(** * Fixplex: fixed-precision unsigned integer simplex tableau

    A shallow embedding of [src/math/polysat/fixplex_def.h] and the
    properties its specification states about it.

    Numerals are [N]-bit unsigned integers, kept as [Z] in [0, 2^N) with the
    wrap-around written out.  Vectors are lists read with [!!] and written
    with [alter]; reading outside a vector, dividing by zero, shifting by
    the width or more, and a failed assertion end the operation with an
    error.  [null_var] is [None]. *)

From Stdlib Require Import ZArith Lia.
From stdpp Require Import base option list.

Local Open Scope Z_scope.

(** ** Outcomes *)

Inductive error : Type :=
  | assertion_violation
  | index_out_of_range
  | division_by_zero
  | undefined_shift.

Inductive res (A : Type) : Type :=
  | Ok (a : A)
  | Err (e : error).
Arguments Ok {A} a.
Arguments Err {A} e.

Definition res_bind {A B : Type} (f : A -> res B) (m : res A) : res B :=
  match m with
  | Ok a => f a
  | Err e => Err e
  end.

#[global] Instance res_mbind : MBind res := @res_bind.
#[global] Instance res_mret : MRet res := @Ok.
#[global] Instance res_fmap : FMap res :=
  fun A B f m => match m with Ok a => Ok (f a) | Err e => Err e end.

Definition of_option {A : Type} (o : option A) : res A :=
  match o with
  | Some a => Ok a
  | None => Err index_out_of_range
  end.

(** A [for] loop over a container whose body may fail. *)
Fixpoint foldlM {A B : Type} (f : A -> B -> res A) (a : A) (l : list B) : res A :=
  match l with
  | [] => Ok a
  | b :: l' => a' ← f a b; foldlM f a' l'
  end.

Inductive lbool : Type := l_false | l_undef | l_true.

Definition UINT_MAX : Z := 2 ^ 32 - 1.
Definition INT_MAX : Z := 2 ^ 31 - 1.

(** ** Numerals *)

Section numeral.
Variable N : Z.

Definition modulus : Z := 2 ^ N.
Definition wrap (z : Z) : Z := z mod modulus.

(** [a + b], [a - b], [a * b] on [numeral] (an unsigned machine integer). *)
Definition nadd (a b : Z) : Z := wrap (a + b).
Definition nsub (a b : Z) : Z := wrap (a - b).
Definition nmul (a b : Z) : Z := wrap (a * b).

(** [a / b]: the truncating quotient of the unsigned values. *)
Definition ndiv (a b : Z) : res Z :=
    if b =? 0 then Err division_by_zero else Ok (a / b).

(** [a >> k] for an unsigned shift count [k]. *)
Definition nshr (a k : Z) : res Z :=
    if (0 <=? k) && (k <? N) then Ok (Z.shiftr a k) else Err undefined_shift.

Fixpoint tz_pos (p : positive) : Z :=
    match p with
    | xO q => 1 + tz_pos q
    | _ => 0
    end.

(** Modelled from the spec: [trailing_zeros] is a numeral-ring primitive
      that is not part of the sources; it is the count of low-order zero
      bits of a ring element (all [N] bits for zero). *)
Definition trailing_zeros (a : Z) : Z :=
    match a with
    | Z0 => N
    | Zpos p => tz_pos p
    | Zneg _ => 0
    end.

(** [in_bounds(val, lo, hi)] *)
Definition in_bounds (val lo hi : Z) : bool :=
    if lo =? hi then true
    else if lo <? hi then (lo <=? val) && (val <? hi)
    else (val <? hi) || (lo <=? val).
End numeral.

(** ** Sparse matrix

    Modelled from the spec: the sparse row/column storage
    ([sparse_matrix_def.h]) is not part of the sources.  It holds rows of
    sparse (variable, coefficient) entries and supports row creation, entry
    insertion, row scaling, row combination (add a scaled row to another)
    and traversal by row or by column (all rows containing a variable). *)

Abbreviation row_entry := (nat * Z)%type.    (* m_var, m_coeff *)
Abbreviation sparse_matrix := (list (list row_entry)).

Section sparse_matrix.
Variable N : Z.

(** [M.mk_row()] *)
Definition mk_row (m : sparse_matrix) : nat * sparse_matrix :=
    (length m, m ++ [[]]).

(** [M.add_var(r, c, v)] *)
Definition add_var (r : nat) (c : Z) (v : nat) (m : sparse_matrix) : sparse_matrix :=
    alter (fun es => es ++ [(v, c)]) r m.

(** [M.row_entries(r)] *)
Definition row_entries (r : nat) (m : sparse_matrix) : res (list row_entry) :=
    of_option (m !! r).

Definition coeffs_of (v : nat) (es : list row_entry) : list Z :=
    snd <$> filter (fun e => fst e = v) es.

(** [M.col_entries(v)]: every entry on [v], with the row it is in. *)
Definition col_entries (v : nat) (m : sparse_matrix) : list (nat * Z) :=
    mjoin (imap (fun r es => (fun c => (r, c)) <$> coeffs_of v es) m).

(** [M.column_size(v)] *)
Definition column_size (v : nat) (m : sparse_matrix) : Z :=
    Z.of_nat (length (col_entries v m)).

Definition row_mul (n : Z) (es : list row_entry) : list row_entry :=
    (fun e => (fst e, nmul N (snd e) n)) <$> es.

(** Add [c] to the coefficient of [v], dropping an entry that becomes
      zero and appending one for a variable the row does not hold. *)
Fixpoint row_add_entry (v : nat) (c : Z) (es : list row_entry) : list row_entry :=
    match es with
    | [] => if c =? 0 then [] else [(v, c)]
    | e :: es' =>
        if decide (fst e = v) then
          let c' := nadd N (snd e) c in
          if c' =? 0 then es' else (v, c') :: es'
        else e :: row_add_entry v c es'
    end.

Definition row_add (es1 : list row_entry) (n : Z) (es2 : list row_entry) : list row_entry :=
    foldl (fun es e => row_add_entry (fst e) (nmul N n (snd e)) es) es1 es2.

(** [M.mul(r, n)] *)
Definition mul (r : nat) (n : Z) (m : sparse_matrix) : sparse_matrix :=
    alter (row_mul n) r m.

(** [M.add(r1, n, r2)]: [r1 += n * r2] *)
Definition add (r1 : nat) (n : Z) (r2 : nat) (m : sparse_matrix) : sparse_matrix :=
    match m !! r2 with
    | Some es2 => alter (fun es1 => row_add es1 n es2) r1 m
    | None => m
    end.
End sparse_matrix.

(** ** The tableau *)

Module var_info.
Record t : Type := mk {
    m_value : Z;
    m_lo : Z;
    m_hi : Z;
    m_is_base : bool;
    m_base2row : nat
  }.
Definition set_value (x : Z) (i : t) : t :=
    mk x (m_lo i) (m_hi i) (m_is_base i) (m_base2row i).
Definition set_is_base (b : bool) (i : t) : t :=
    mk (m_value i) (m_lo i) (m_hi i) b (m_base2row i).
Definition set_base2row (r : nat) (i : t) : t :=
    mk (m_value i) (m_lo i) (m_hi i) (m_is_base i) r.
End var_info.

Module row_info.
Record t : Type := mk {
    m_base : nat;
    m_base_coeff : Z;
    m_value : Z
  }.
(** [row_info()] *)
Definition default : t := mk 0%nat 0 0.
Definition set_base (v : nat) (i : t) : t := mk v (m_base_coeff i) (m_value i).
Definition set_base_coeff (c : Z) (i : t) : t := mk (m_base i) c (m_value i).
Definition set_value (x : Z) (i : t) : t := mk (m_base i) (m_base_coeff i) x.
End row_info.

Record stats : Type := mk_stats {
  m_num_checks : Z;
  m_num_pivots : Z;
  m_num_infeasible : Z
}.

Record fixplex : Type := mk_fixplex {
  M : sparse_matrix;
  m_vars : list var_info.t;
  m_rows : list row_info.t;
  m_to_patch : list nat;
  m_base_vars : list nat;
  m_left_basis : list nat;
  m_infeasible_var : option nat;
  m_bland : bool;
  m_stats : stats;
  m_random : Z;
  m_limit : Z
}.

Definition set_M (f : sparse_matrix -> sparse_matrix) (s : fixplex) : fixplex :=
  mk_fixplex (f (M s)) (m_vars s) (m_rows s) (m_to_patch s) (m_base_vars s)
    (m_left_basis s) (m_infeasible_var s) (m_bland s) (m_stats s) (m_random s) (m_limit s).
Definition set_vars (f : list var_info.t -> list var_info.t) (s : fixplex) : fixplex :=
  mk_fixplex (M s) (f (m_vars s)) (m_rows s) (m_to_patch s) (m_base_vars s)
    (m_left_basis s) (m_infeasible_var s) (m_bland s) (m_stats s) (m_random s) (m_limit s).
Definition set_rows (f : list row_info.t -> list row_info.t) (s : fixplex) : fixplex :=
  mk_fixplex (M s) (m_vars s) (f (m_rows s)) (m_to_patch s) (m_base_vars s)
    (m_left_basis s) (m_infeasible_var s) (m_bland s) (m_stats s) (m_random s) (m_limit s).
Definition set_to_patch (p : list nat) (s : fixplex) : fixplex :=
  mk_fixplex (M s) (m_vars s) (m_rows s) p (m_base_vars s)
    (m_left_basis s) (m_infeasible_var s) (m_bland s) (m_stats s) (m_random s) (m_limit s).
Definition set_base_vars (l : list nat) (s : fixplex) : fixplex :=
  mk_fixplex (M s) (m_vars s) (m_rows s) (m_to_patch s) l
    (m_left_basis s) (m_infeasible_var s) (m_bland s) (m_stats s) (m_random s) (m_limit s).
Definition set_left_basis (l : list nat) (s : fixplex) : fixplex :=
  mk_fixplex (M s) (m_vars s) (m_rows s) (m_to_patch s) (m_base_vars s)
    l (m_infeasible_var s) (m_bland s) (m_stats s) (m_random s) (m_limit s).
Definition set_infeasible_var (v : option nat) (s : fixplex) : fixplex :=
  mk_fixplex (M s) (m_vars s) (m_rows s) (m_to_patch s) (m_base_vars s)
    (m_left_basis s) v (m_bland s) (m_stats s) (m_random s) (m_limit s).
Definition set_bland (b : bool) (s : fixplex) : fixplex :=
  mk_fixplex (M s) (m_vars s) (m_rows s) (m_to_patch s) (m_base_vars s)
    (m_left_basis s) (m_infeasible_var s) b (m_stats s) (m_random s) (m_limit s).
Definition set_stats (f : stats -> stats) (s : fixplex) : fixplex :=
  mk_fixplex (M s) (m_vars s) (m_rows s) (m_to_patch s) (m_base_vars s)
    (m_left_basis s) (m_infeasible_var s) (m_bland s) (f (m_stats s)) (m_random s) (m_limit s).
Definition set_random (x : Z) (s : fixplex) : fixplex :=
  mk_fixplex (M s) (m_vars s) (m_rows s) (m_to_patch s) (m_base_vars s)
    (m_left_basis s) (m_infeasible_var s) (m_bland s) (m_stats s) x (m_limit s).
Definition set_limit (x : Z) (s : fixplex) : fixplex :=
  mk_fixplex (M s) (m_vars s) (m_rows s) (m_to_patch s) (m_base_vars s)
    (m_left_basis s) (m_infeasible_var s) (m_bland s) (m_stats s) (m_random s) x.

(** [m_vars[v].f = ...] and [m_rows[r].f = ...] *)
Definition set_var (v : nat) (f : var_info.t -> var_info.t) : fixplex -> fixplex :=
  set_vars (alter f v).
Definition set_row (r : nat) (f : row_info.t -> row_info.t) : fixplex -> fixplex :=
  set_rows (alter f r).

(** ** What the sources use but do not define

    [fixplex_def.h] is written against the template parameter [Ext] (the
    numeral type and its manager), the class declaration in [fixplex.h] and
    z3's utilities; none of them is part of the sources.  What the code
    takes from them is a parameter of the embedding, and so is the value of
    each name a function body uses without declaring it. *)
Record Ext : Type := mk_Ext {
(** width of [numeral] in bits *)
  ext_N : Z;
(** [m.inv(a)] *)
  inv : Z -> Z;
(** [m.signed_mul(r, x, y)] and [m.signed_add(r, x, y)]: [Some r] when
      they return true, [None] when they return false *)
  signed_mul : Z -> Z -> option Z;
  signed_add : Z -> Z -> option Z;
(** whether [SASSERT] checks its condition *)
  assertions_enabled : bool;
(** [well_formed()] and [well_formed_row(r)] *)
  well_formed : fixplex -> bool;
  well_formed_row : nat -> fixplex -> bool;
(** [add_patch(v)]: the To-Patch set it leaves *)
  add_patch_set : nat -> fixplex -> list nat;
(** [m_to_patch.insert(v)] *)
  patch_insert : nat -> list nat -> list nat;
(** [select_var_to_fix()]: the variable or [null_var], and the To-Patch
      set it leaves *)
  select_var_to_fix : fixplex -> option nat * list nat;
(** [check_blands_rule(v, num_repeated)]: the new [num_repeated],
      [m_bland] and [m_left_basis] *)
  check_blands_rule : nat -> Z -> fixplex -> Z * bool * list nat;
(** [m_limit.inc()]: its answer and the limit's new state *)
  limit_inc : Z -> bool * Z;
  m_max_iterations : Z;
(** [get_num_non_free_dep_vars(y, best_so_far)] *)
  get_num_non_free_dep_vars : nat -> Z -> fixplex -> Z;
(** [m_random()]: the number drawn and the generator's new state *)
  random_next : Z -> Z * Z;
(** [a], [delta_best] and [num_best_so_far], which [select_pivot_core]
      reads without declaring, and the value [delta_y] holds before its
      first assignment *)
  undeclared_a : Z;
  undeclared_delta_best : Z;
  undeclared_num_best_so_far : bool;
  uninitialized_delta_y : Z
}.

Section fixplex.
Context (E : Ext).

Local Abbreviation N := (ext_N E).

(** [SASSERT(c)] *)
Definition SASSERT (c : res bool) : res unit :=
    if assertions_enabled E then
      b ← c; if b : bool then Ok tt else Err assertion_violation
    else Ok tt.

Definition var_at (s : fixplex) (v : nat) : res var_info.t := of_option (m_vars s !! v).
Definition row_at (s : fixplex) (r : nat) : res row_info.t := of_option (m_rows s !! r).

Definition value (s : fixplex) (v : nat) : res Z := of_option (var_info.m_value <$> m_vars s !! v).
Definition lo (s : fixplex) (v : nat) : res Z := of_option (var_info.m_lo <$> m_vars s !! v).
Definition hi (s : fixplex) (v : nat) : res Z := of_option (var_info.m_hi <$> m_vars s !! v).
Definition is_base (s : fixplex) (v : nat) : res bool :=
    of_option (var_info.m_is_base <$> m_vars s !! v).

(** [get_num_vars()] *)
Definition get_num_vars (s : fixplex) : nat := length (m_vars s).

(** [add_patch(v)] *)
Definition add_patch (v : nat) (s : fixplex) : fixplex :=
    set_to_patch (add_patch_set E v s) s.

(** [in_bounds(v)] *)
Definition in_bounds_var (s : fixplex) (v : nat) : res bool :=
    val ← value s v; l ← lo s v; h ← hi s v; Ok (in_bounds val l h).

(** *** [update_value]: increment [v] by [delta] *)

(** The body of the loop over [M.col_entries(v)]. *)
Definition update_value_row (delta : Z) (s : fixplex) (c : nat * Z) : res fixplex :=
  let r := fst c in
  ri ← row_at s r;
  let sv := row_info.m_base ri in
  let val := nadd N (row_info.m_value ri) (nmul N delta (snd c)) in
  let s := set_row r (row_info.set_value val) s in
  q ← ndiv val (row_info.m_base_coeff ri);
  _ ← var_at s sv;
  let s := set_var sv (var_info.set_value (nsub N 0 q)) s in
  Ok (add_patch sv s).

Definition update_value (v : nat) (delta : Z) (s : fixplex) : res fixplex :=
  if delta =? 0 then Ok s
  else
    vi ← var_at s v;
    let s := set_var v (var_info.set_value (nadd N (var_info.m_value vi) delta)) s in
    _ ← SASSERT (negb <$> is_base s v);
    foldlM (update_value_row delta) s (col_entries v (M s)).

(** *** [gauss_jordan]

    The loop reads the back of [m_base_vars] and its row and removes
    nothing (the call that would is compiled out), so it runs for as long
    as [m_base_vars] is not empty: [None] is a run that has not ended
    after [fuel] iterations. *)
Fixpoint gauss_jordan (fuel : nat) (s : fixplex) : option (res fixplex) :=
  match m_base_vars s with
  | [] => Some (Ok s)
  | _ =>
      match fuel with
      | O => None
      | S fuel' =>
          match v ← of_option (last (m_base_vars s)); var_at s v with
          | Ok _ => gauss_jordan fuel' s
          | Err e => Some (Err e)
          end
      end
  end.

(** *** [add_row] *)

(** The loop that fills the new row: entries with a zero coefficient are
    not added. *)
Definition add_row_fill (r : nat) (vars : list nat) (coeffs : list Z)
    (m : sparse_matrix) (i : nat) : res sparse_matrix :=
  c ← of_option (coeffs !! i);
  if c =? 0 then Ok m
  else v ← of_option (vars !! i); Ok (add_var r c v m).

(** The loop over the new row's entries: [base_coeff], [value] and the
    entries whose variable is basic already, pushed on [m_base_vars]. *)
Definition add_row_scan (base_var : nat) (acc : Z * Z * fixplex) (e : row_entry)
    : res (Z * Z * fixplex) :=
  let '(base_coeff, val, s) := acc in
  let v := fst e in
  if decide (v = base_var) then Ok (snd e, val, s)
  else
    b ← is_base s v;
    let s := if b : bool then set_base_vars (m_base_vars s ++ [v]) s else s in
    x ← value s v;
    Ok (base_coeff, nadd N val (nmul N (snd e) x), s).

(** [while (m_rows.size() <= r.id()) m_rows.push_back(row_info())] *)
Definition pad_rows (r : nat) (rows : list row_info.t) : list row_info.t :=
  rows ++ replicate (S r - length rows) row_info.default.

Definition add_row (fuel : nat) (base_var : nat) (num_vars : nat)
    (vars : list nat) (coeffs : list Z) (s : fixplex) : option (res (nat * fixplex)) :=
  let s := set_base_vars [] s in
  let '(r, m) := mk_row (M s) in
  match
    m ← foldlM (add_row_fill r vars coeffs) m (seq 0 num_vars);
    let s := set_M (fun _ => m) s in
    es ← row_entries r (M s);
    '(base_coeff, val, s) ← foldlM (add_row_scan base_var) (0, 0, s) es;
    _ ← SASSERT (Ok (negb (base_coeff =? 0)));
    _ ← SASSERT (negb <$> is_base s base_var);
    let s := set_rows (pad_rows r) s in
    let s := set_row r (fun _ => row_info.mk base_var base_coeff val) s in
    _ ← var_at s base_var;
    let s := set_var base_var (var_info.set_base2row r) s in
    let s := set_var base_var (var_info.set_is_base true) s in
    q ← ndiv val base_coeff;
    let s := set_var base_var (var_info.set_value (nsub N 0 q)) s in
    Ok (add_patch base_var s)
  with
  | Err e => Some (Err e)
  | Ok s =>
      match m_base_vars s with
      | [] =>
          Some (_ ← SASSERT (Ok (well_formed_row E r s));
                _ ← SASSERT (Ok (well_formed E s));
                Ok (r, s))
      | _ =>
          match gauss_jordan fuel s with
          | None => None
          | Some (Err e) => Some (Err e)
          | Some (Ok s) =>
              Some (_ ← SASSERT (Ok (well_formed_row E r s));
                    _ ← SASSERT (Ok (well_formed E s));
                    Ok (r, s))
          end
      end
  end.

(** *** Pivot selection *)

Definition has_minimal_trailing_zeros (y : nat) (b : Z) (s : fixplex) : bool :=
  let tz1 := trailing_zeros N b in
  if tz1 =? 0 then true
  else forallb (fun col => negb (tz1 >? trailing_zeros N (snd col))) (col_entries y (M s)).

(** The locals of [select_pivot_core] that its loop carries. *)
Record pivot_choice : Type := mk_choice {
  result : nat;
  out_b : Z;
  n : Z;
  best_col_sz : Z;
  best_so_far : Z;
  delta_y : Z;
  best_in_bounds : bool;
  random : Z
}.

(** The body of the loop over the row's entries.  [a], [delta_best] and
    [num_best_so_far] are not declared in the function, and [is_pleateau]
    is read as [is_plateau]. *)
Definition select_pivot_step (x : nat) (new_value row_value : Z) (s : fixplex)
    (st : pivot_choice) (e : row_entry) : res pivot_choice :=
  let y := fst e in
  let b := snd e in
  if decide (x = y) then Ok st
  else if negb (has_minimal_trailing_zeros y b s) then Ok st
  else
    vy ← value s y;
    new_y_value ←
      ndiv (nsub N (nsub N row_value (nmul N b vy)) (nmul N (undeclared_a E) new_value)) b;
    ly ← lo s y;
    hy ← hi s y;
    let _in_bounds := in_bounds new_y_value ly hy in
    let delta_y :=
      if _in_bounds then delta_y st
      else if nsub N ly new_y_value <? nsub N new_y_value hy
           then nsub N new_y_value ly
           else nsub N hy new_y_value in
    let num := get_num_non_free_dep_vars E y (best_so_far st) s in
    let col_sz := column_size y (M s) in
    let delta_best := undeclared_delta_best E in
    let is_improvement :=
      if best_so_far st =? INT_MAX then true
      else if negb (best_in_bounds st) && _in_bounds then true
      else if negb (best_in_bounds st) && negb _in_bounds && (delta_y <? delta_best) then true
      else if best_in_bounds st && _in_bounds && (num <? best_so_far st) then true
      else if best_in_bounds st && _in_bounds && (num =? best_so_far st)
              && (col_sz <? best_col_sz st) then true
      else false in
    let is_plateau :=
      negb is_improvement && best_in_bounds st && (delta_y =? delta_best)
      && undeclared_num_best_so_far E && (col_sz =? best_col_sz st) in
    if is_improvement then
      Ok (mk_choice y b 1 col_sz num delta_y _in_bounds (random st))
    else if is_plateau then
      let n := n st + 1 in
      let '(rnd, g) := random_next E (random st) in
      if rnd mod n =? 0 then
        Ok (mk_choice y b n (best_col_sz st) (best_so_far st) delta_y (best_in_bounds st) g)
      else
        Ok (mk_choice (result st) (out_b st) n (best_col_sz st) (best_so_far st) delta_y
              (best_in_bounds st) g)
    else
      Ok (mk_choice (result st) (out_b st) (n st) (best_col_sz st) (best_so_far st) delta_y
            (best_in_bounds st) (random st)).

(** [select_pivot_core(x, delta, new_value, out_b)]: the variable or
    [null_var], the value left in [out_b] (which the caller reads for a
    variable only) and the state. *)
Definition select_pivot_core (x : nat) (delta new_value : Z) (s : fixplex)
    : res (option nat * Z * fixplex) :=
  _ ← SASSERT (is_base s x);
  let max := get_num_vars s in
  xi ← var_at s x;
  let r := var_info.m_base2row xi in
  ri ← row_at s r;
  let row_value := row_info.m_value ri in
  es ← row_entries r (M s);
  st ← foldlM (select_pivot_step x new_value row_value s)
         (mk_choice max 0 0 UINT_MAX INT_MAX (uninitialized_delta_y E) false (m_random s)) es;
  Ok (if decide (result st < max)%nat then Some (result st) else None,
      out_b st, set_random (random st) s).

(** *** Infeasibility proof *)

(** The loop over the row's entries with its early returns. *)
Fixpoint is_infeasible_row_loop (s : fixplex) (es : list row_entry)
    (lo_sum hi_sum diff : Z) : res bool :=
  match es with
  | [] => Ok ((0 <? lo_sum) && (lo_sum <=? hi_sum))
  | e :: es' =>
      let v := fst e in
      let c := snd e in
      l ← lo s v;
      h ← hi s v;
      if l =? h then Ok false
      else
        let lo_sum := nadd N lo_sum (nmul N l c) in
        let hi_sum := nadd N hi_sum (nmul N (nsub N h 1) c) in
        let range := nsub N h l in
        match signed_mul E c range with
        | None => Ok false
        | Some range =>
            match signed_add E diff range with
            | None => Ok false
            | Some diff => is_infeasible_row_loop s es' lo_sum hi_sum diff
            end
        end
  end.

(** [is_infeasible_row(x)]; the row whose entries the loop reads ([r] in
    the source, which the function does not declare) is the row of [x]. *)
Definition is_infeasible_row (x : nat) (s : fixplex) : res bool :=
  _ ← SASSERT (is_base s x);
  xi ← var_at s x;
  let r := var_info.m_base2row xi in
  _ ← row_at s r;
  es ← row_entries r (M s);
  is_infeasible_row_loop s es 0 0 0.

(** *** Pivot execution *)

(** The body of the loop over [M.col_entries(y)]; [m_vars[row_z]] and
    [zI.m_base] are read as the base variable of [row_z], and [row_i] as
    [row_x]. *)
Definition pivot_row (rx : nat) (b old_value_y : Z) (s : fixplex) (col : nat * Z)
    : res fixplex :=
  let rz := fst col in
  if decide (rz = rx) then Ok s
  else
    row_z ← row_at s rz;
    let z := row_info.m_base row_z in
    _ ← var_at s z;
    let c := snd col in
    let tz1 := trailing_zeros N b in
    let tz2 := trailing_zeros N c in
    _ ← SASSERT (Ok (tz1 <=? tz2));
    b1 ← nshr N b tz1;
    cs ← nshr N c (tz2 - tz1);
    let c1 := inv E cs in
    let s := set_M (mul N rz b1) s in
    let s := set_M (add N rz c1 rx) s in
    row_x ← row_at s rx;
    let val :=
      nadd N (nmul N b1 (nsub N (row_info.m_value row_z) old_value_y))
             (nmul N c1 (row_info.m_value row_x)) in
    let s := set_row rz (row_info.set_value val) s in
    let base_coeff := nmul N (row_info.m_base_coeff row_z) b1 in
    let s := set_row rz (row_info.set_base_coeff base_coeff) s in
    q ← ndiv val base_coeff;
    let s := set_var z (var_info.set_value (nsub N 0 q)) s in
    _ ← SASSERT (Ok (well_formed_row E rz s));
    Ok (add_patch z s).

Definition incr (c : Z) : Z := (c + 1) mod 2 ^ 32.

Definition pivot (x y : nat) (b new_value : Z) (s : fixplex) : res fixplex :=
  let s := set_stats (fun st =>
             mk_stats (m_num_checks st) (incr (m_num_pivots st)) (m_num_infeasible st)) s in
  _ ← SASSERT (is_base s x);
  _ ← SASSERT (negb <$> is_base s y);
  xI ← var_at s x;
  yI ← var_at s y;
  let rx := var_info.m_base2row xI in
  row_x ← row_at s rx;
  let a := row_info.m_base_coeff row_x in
  let old_value_y := var_info.m_value yI in
  let s := set_row rx (row_info.set_base y) s in
  let val :=
    nadd N (nsub N (row_info.m_value row_x) (nmul N b old_value_y)) (nmul N a new_value) in
  let s := set_row rx (row_info.set_value val) s in
  let s := set_row rx (row_info.set_base_coeff b) s in
  let s := set_var y (var_info.set_base2row rx) s in
  let s := set_var y (var_info.set_is_base true) s in
  q ← ndiv val b;
  let s := set_var y (var_info.set_value (nsub N 0 q)) s in
  let s := set_var x (var_info.set_is_base false) s in
  let s := set_var x (var_info.set_value new_value) s in
  let s := add_patch y s in
  _ ← SASSERT (Ok (well_formed_row E rx s));
  s ← foldlM (pivot_row rx b old_value_y) s (col_entries y (M s));
  _ ← SASSERT (Ok (well_formed E s));
  Ok s.

(** *** The feasibility loop *)

(** [new_value] and [delta] as [make_var_feasible] sets them for a variable
    at [val] with bounds [lo] and [hi]. *)
Definition new_value_delta (val l h : Z) : Z * Z :=
  if nsub N l val <? nsub N val h
  then (l, nsub N l val)
  else (nsub N h 1, nsub N val (nsub N h 1)).

Definition make_var_feasible (x : nat) (s : fixplex) : res (lbool * fixplex) :=
  ib ← in_bounds_var s x;
  if ib : bool then Ok (l_true, s)
  else
    val ← value s x;
    l ← lo s x;
    h ← hi s x;
    let '(new_value, delta) := new_value_delta val l h in
    '(y, b, s) ← select_pivot_core x delta new_value s;
    match y with
    | None =>
        inf ← is_infeasible_row x s;
        Ok (if inf : bool then l_false else l_undef, s)
    | Some y =>
        s ← pivot x y b new_value s;
        Ok (l_true, s)
    end.

(** One iteration of the [while] loop of [make_feasible]: the loop ends
    with a verdict or a failure, or goes on to the next iteration. *)
Inductive iteration : Type :=
  | Return (r : res (lbool * fixplex))
  | Continue (num_repeated : Z) (s : fixplex).

Definition make_feasible_body (num_iterations num_repeated : Z) (s : fixplex) : iteration :=
  let '(v, patch) := select_var_to_fix E s in
  let s := set_to_patch patch s in
  match v with
  | None => Return (_ ← SASSERT (Ok (well_formed E s)); Ok (l_true, s))
  | Some v =>
      let '(ok, lim) := limit_inc E (m_limit s) in
      let s := set_limit lim s in
      if negb ok || (num_iterations >? m_max_iterations E) then Return (Ok (l_undef, s))
      else
        let '(num_repeated, bland, lb) := check_blands_rule E v num_repeated s in
        let s := set_left_basis lb (set_bland bland s) in
        match make_var_feasible v s with
        | Err e => Return (Err e)
        | Ok (l_true, s) => Continue num_repeated s
        | Ok (l_false, s) =>
            let s := set_to_patch (patch_insert E v (m_to_patch s)) s in
            let s := set_infeasible_var (Some v) s in
            let s := set_stats (fun st =>
                       mk_stats (m_num_checks st) (m_num_pivots st)
                         (incr (m_num_infeasible st))) s in
            Return (Ok (l_false, s))
        | Ok (l_undef, s) =>
            let s := set_to_patch (patch_insert E v (m_to_patch s)) s in
            Return (Ok (l_undef, s))
        end
  end.

(** The [while] loop of [make_feasible]; [None] is a run that has not
    ended after [fuel] more iterations. *)
Fixpoint make_feasible_loop (fuel : nat) (num_iterations num_repeated : Z) (s : fixplex)
    : option (res (lbool * fixplex)) :=
  match make_feasible_body num_iterations num_repeated s with
  | Return r => Some r
  | Continue num_repeated s =>
      match fuel with
      | O => None
      | S fuel' => make_feasible_loop fuel' (incr num_iterations) num_repeated s
      end
  end.

Definition make_feasible (fuel : nat) (s : fixplex) : option (res (lbool * fixplex)) :=
  let s := set_stats (fun st =>
             mk_stats (incr (m_num_checks st)) (m_num_pivots st) (m_num_infeasible st)) s in
  let s := set_left_basis [] s in
  let s := set_infeasible_var None s in
  let s := set_bland false s in
  match SASSERT (Ok (well_formed E s)) with
  | Err e => Some (Err e)
  | Ok _ => make_feasible_loop fuel 0 0 s
  end.
End fixplex.

(** ** An instance for the examples

    Modelled from the spec: what the examples need of the parts that are
    not in the sources.  The checked operations detect overflow of the
    [N]-bit unsigned result, [m.inv] is the additive inverse that the
    comment on [pivot] uses ([r <- b1 * r - c1 * r_x]), a variable joins the
    To-Patch set when it is out of bounds, and the loop takes the least
    variable of the set. *)

Definition checked_mul (N x y : Z) : option Z :=
  if x * y <? 2 ^ N then Some (x * y) else None.
Definition checked_add (N x y : Z) : option Z :=
  if x + y <? 2 ^ N then Some (x + y) else None.

Definition set_insert (v : nat) (p : list nat) : list nat :=
  if decide (v ∈ p) then p else v :: p.

Definition ex_add_patch (v : nat) (s : fixplex) : list nat :=
  match m_vars s !! v with
  | Some i =>
      if in_bounds (var_info.m_value i) (var_info.m_lo i) (var_info.m_hi i)
      then m_to_patch s
      else set_insert v (m_to_patch s)
  | None => m_to_patch s
  end.

Definition ex_select_var_to_fix (s : fixplex) : option nat * list nat :=
  match m_to_patch s with
  | [] => (None, [])
  | v :: p =>
      let m := foldr Nat.min v p in
      (Some m, filter (fun u => u ≠ m) (v :: p))
  end.

Definition ex_check_blands_rule (v : nat) (num_repeated : Z) (s : fixplex)
    : Z * bool * list nat :=
  if m_bland s then (num_repeated, true, m_left_basis s)
  else if decide (v ∈ m_left_basis s) then
    (incr num_repeated, incr num_repeated >? 1000, m_left_basis s)
  else (num_repeated, false, set_insert v (m_left_basis s)).

Definition example_Ext (N : Z) (assertions : bool) (max_iterations : Z)
    (patch : nat -> fixplex -> list nat) : Ext :=
  {| ext_N := N;
     inv := fun a => nsub N 0 a;
     signed_mul := checked_mul N;
     signed_add := checked_add N;
     assertions_enabled := assertions;
     well_formed := fun _ => true;
     well_formed_row := fun _ _ => true;
     add_patch_set := patch;
     patch_insert := set_insert;
     select_var_to_fix := ex_select_var_to_fix;
     check_blands_rule := ex_check_blands_rule;
     limit_inc := fun l => (true, l + 1);
     m_max_iterations := max_iterations;
     get_num_non_free_dep_vars := fun _ _ _ => 0;
     random_next := fun g => (g, g + 1);
     undeclared_a := 1;
     undeclared_delta_best := 0;
     undeclared_num_best_so_far := false;
     uninitialized_delta_y := 0 |}.

Definition uint4_ext : Ext := example_Ext 4 true 100 ex_add_patch.

(** The same with an [add_patch] that enqueues its variable whatever its
    value. *)
Definition uint4_enqueue_ext : Ext :=
  example_Ext 4 true 100 (fun v s => set_insert v (m_to_patch s)).

(** The same as [uint4_ext] with [SASSERT] compiled away. *)
Definition uint4_release_ext : Ext := example_Ext 4 false 100 ex_add_patch.

Definition empty_fixplex : fixplex :=
  mk_fixplex [] [] [] [] [] [] None false (mk_stats 0 0 0) 0 0.

(** A variable that is not basic, with its value and bounds. *)
Definition free_var (val l h : Z) : var_info.t := var_info.mk val l h false 0.

(** ** The quantities of the infeasibility proof

    For a row with entries [(v_i, c_i)], the bounds [(lo(v_i), hi(v_i), c_i)]
    of its entries, the ring sums [lo_sum] of [c_i * lo(v_i)] and [hi_sum]
    of [c_i * (hi(v_i) - 1)], and the checked sum of the ranges
    [c_i * (hi(v_i) - lo(v_i))], which is [None] when a checked operation
    reports an overflow. *)

Abbreviation bounds := (Z * Z * Z)%type.    (* lo, hi, coefficient *)

Definition row_bounds (s : fixplex) (es : list row_entry) : option (list bounds) :=
  mapM (fun e => i ← m_vars s !! fst e;
                 Some (var_info.m_lo i, var_info.m_hi i, snd e)) es.

Definition lo_sum_from (N : Z) (acc : Z) (bs : list bounds) : Z :=
  foldl (fun acc b => nadd N acc (nmul N (snd b) (fst (fst b)))) acc bs.
Definition hi_sum_from (N : Z) (acc : Z) (bs : list bounds) : Z :=
  foldl (fun acc b => nadd N acc (nmul N (snd b) (nsub N (snd (fst b)) 1))) acc bs.
Definition range_sum_from (E : Ext) (acc : Z) (bs : list bounds) : option Z :=
  foldl (fun acc b =>
           diff ← acc;
           range ← signed_mul E (snd b) (nsub (ext_N E) (snd (fst b)) (fst (fst b)));
           signed_add E diff range) (Some acc) bs.

Definition lo_sum (N : Z) : list bounds -> Z := lo_sum_from N 0.
Definition hi_sum (N : Z) : list bounds -> Z := hi_sum_from N 0.
Definition range_sum (E : Ext) : list bounds -> option Z := range_sum_from E 0.

Definition constrained (b : bounds) : Prop := fst (fst b) ≠ snd (fst b).

(** A value of the numeral type. *)
Definition is_numeral (N z : Z) : Prop := 0 <= z < 2 ^ N.

Definition numeral_bounds (N : Z) (b : bounds) : Prop :=
  is_numeral N (fst (fst b)) /\ is_numeral N (snd (fst b)) /\ is_numeral N (snd b).

Definition sumZ (l : list Z) : Z := foldr Z.add 0 l.

(** The left-hand side of the row's equation [sum of c_i * v_i = 0] under
    an assignment [val] of the variables. *)
Definition row_eval (N : Z) (val : nat -> Z) (es : list row_entry) : Z :=
  wrap N (sumZ ((fun e => snd e * val (fst e)) <$> es)).

(** An assignment that keeps every variable of the row within its bounds. *)
Definition within_bounds (N : Z) (s : fixplex) (val : nat -> Z) (es : list row_entry) : Prop :=
  forall e, e ∈ es ->
    exists i, m_vars s !! fst e = Some i /\ is_numeral N (val (fst e)) /\
              in_bounds (val (fst e)) (var_info.m_lo i) (var_info.m_hi i) = true.

(** The integer sums behind the ring sums. *)
Definition sum_lo (bs : list bounds) : Z := sumZ ((fun b => snd b * fst (fst b)) <$> bs).
Definition sum_coeff (bs : list bounds) : Z := sumZ (snd <$> bs).
Definition sum_range (N : Z) (bs : list bounds) : Z :=
  sumZ ((fun b => snd b * nsub N (snd (fst b)) (fst (fst b))) <$> bs).

(** ** Pivot selection

    What the loop of [select_pivot_core] keeps true of its choice: it is
    still the initial [max], or an entry of the row other than [x] that
    passes the eligibility gate. *)
Definition choice_ok (E : Ext) (x : nat) (s : fixplex) (es : list row_entry) (max : nat)
    (st : pivot_choice) : Prop :=
  result st = max \/
  ((result st, out_b st) ∈ es /\ result st ≠ x /\
   has_minimal_trailing_zeros E (result st) (out_b st) s = true).

(** ** The basis

    Which variables are marked basic, with the row each points at, and
    which variable each row has as its base.  The invariant: the rows of
    the matrix and their records correspond, and a variable is marked
    basic with row [r] exactly when [r] has it as base. *)

Definition basic_vars (s : fixplex) : list (bool * nat) :=
  (fun i => (var_info.m_is_base i, var_info.m_base2row i)) <$> m_vars s.

Definition row_bases (s : fixplex) : list nat := row_info.m_base <$> m_rows s.

Definition basis_view (s : fixplex) : list (bool * nat) * list nat * nat :=
  (basic_vars s, row_bases s, length (M s)).

Definition basis_inv (s : fixplex) : Prop :=
  length (m_rows s) = length (M s) /\
  (forall v r, basic_vars s !! v = Some (true, r) -> row_bases s !! r = Some v) /\
  (forall r v, row_bases s !! r = Some v -> basic_vars s !! v = Some (true, r)).

(** ** The row invariant

    The cached value of a row is the ring sum of [coefficient * value] over
    the entries other than the base, and the value of the base variable is
    [0 - cached / base_coeff], with the quotient of the unsigned values.
    The division is exact when it leaves no remainder; then the row's
    equation holds. *)

Definition val_of (s : fixplex) (v : nat) : Z :=
  default 0 (var_info.m_value <$> m_vars s !! v).

Definition row_term (s : fixplex) (base : nat) (e : row_entry) : Z :=
  if decide (fst e = base) then 0 else snd e * val_of s (fst e).

Definition row_sum (N : Z) (s : fixplex) (base : nat) (es : list row_entry) : Z :=
  wrap N (sumZ (row_term s base <$> es)).

Definition row_inv (N : Z) (s : fixplex) : Prop :=
  forall r ri es, m_rows s !! r = Some ri -> M s !! r = Some es ->
    row_info.m_value ri = row_sum N s (row_info.m_base ri) es /\
    val_of s (row_info.m_base ri)
    = nsub N 0 (row_info.m_value ri / row_info.m_base_coeff ri).

Definition exact_rows (s : fixplex) : Prop :=
  forall r ri, m_rows s !! r = Some ri ->
    row_info.m_value ri mod row_info.m_base_coeff ri = 0.

(** The row's equation [base_coeff * base + cached = 0] in the ring. *)
Definition row_equation (N : Z) (s : fixplex) (ri : row_info.t) : Prop :=
  nadd N (nmul N (row_info.m_base_coeff ri) (val_of s (row_info.m_base ri)))
         (row_info.m_value ri) = 0.

(** The shape of a tableau: the basis invariant; a row holds a variable
    once; the base variable of a row is in no other row; and a row holds
    its base variable with the base coefficient. *)
Definition tableau_wf (s : fixplex) : Prop :=
  basis_inv s /\
  (forall r es, M s !! r = Some es -> NoDup (fst <$> es)) /\
  (forall r r' es e, M s !! r = Some es -> e ∈ es ->
     row_bases s !! r' = Some (fst e) -> r' = r) /\
  (forall r ri es, m_rows s !! r = Some ri -> M s !! r = Some es ->
     (row_info.m_base ri, row_info.m_base_coeff ri) ∈ es).

(** ** The two parts of [pivot] *)

(** The cached value [pivot] gives the row of [x]. *)
Definition pivot_value (N : Z) (row_x : row_info.t) (b old_value_y new_value : Z) : Z :=
  nadd N (nsub N (row_info.m_value row_x) (nmul N b old_value_y))
         (nmul N (row_info.m_base_coeff row_x) new_value).

(** The state [pivot] reaches before its loop over the column of [y]:
    [y] is the base of row [rx] with coefficient [b] and cached value
    [val], and [x] is not basic, at [new_value]. *)
Definition pivot_exchange (E : Ext) (x y rx : nat) (b new_value val : Z) (s : fixplex)
    : fixplex :=
  add_patch E y
    (set_var x (var_info.set_value new_value)
    (set_var x (var_info.set_is_base false)
    (set_var y (var_info.set_value (nsub (ext_N E) 0 (val / b)))
    (set_var y (var_info.set_is_base true)
    (set_var y (var_info.set_base2row rx)
    (set_row rx (row_info.set_base_coeff b)
    (set_row rx (row_info.set_value val)
    (set_row rx (row_info.set_base y)
    (set_stats (fun st =>
       mk_stats (m_num_checks st) (incr (m_num_pivots st)) (m_num_infeasible st)) s))))))))).

(** What the loop of [pivot] computes for a row [z] that holds [y] with
    coefficient [c]: the factors [b1] and [c1], the cached value and the
    base coefficient. *)
Definition cascade_b1 (E : Ext) (b : Z) : Z := Z.shiftr b (trailing_zeros (ext_N E) b).
Definition cascade_c1 (E : Ext) (b c : Z) : Z :=
  inv E (Z.shiftr c (trailing_zeros (ext_N E) c - trailing_zeros (ext_N E) b)).
Definition cascade_value (E : Ext) (b c old_value_y val_x : Z) (row_z : row_info.t) : Z :=
  nadd (ext_N E)
    (nmul (ext_N E) (cascade_b1 E b) (nsub (ext_N E) (row_info.m_value row_z) old_value_y))
    (nmul (ext_N E) (cascade_c1 E b c) val_x).
Definition cascade_base_coeff (E : Ext) (b : Z) (row_z : row_info.t) : Z :=
  nmul (ext_N E) (row_info.m_base_coeff row_z) (cascade_b1 E b).
Definition cascade_row (E : Ext) (b c : Z) (es_x es_z : list row_entry) : list row_entry :=
  row_add (ext_N E) (row_mul (ext_N E) (cascade_b1 E b) es_z) (cascade_c1 E b c) es_x.

(** An [add_patch] that puts its variable in the To-Patch set and keeps
    what the set holds. *)
Definition patch_enqueues (E : Ext) : Prop :=
  forall v s, v ∈ add_patch_set E v s /\
              forall u, u ∈ m_to_patch s -> u ∈ add_patch_set E v s.

(** ** Contracts of the callers *)



(** ** Example tableaux *)

(** One row [x + y = 0] over 4-bit numerals with [x] (variable 0) basic:
    [x] in [[5,16)] and [y] in [[13,16)], at [y = 13] and [x = 3]. *)
Definition infeasible_example : fixplex :=
  mk_fixplex [[(0%nat, 1); (1%nat, 1)]]
    [var_info.mk 3 5 0 true 0; var_info.mk 13 13 0 false 0]
    [row_info.mk 0 1 13]
    [0%nat] [] [] None false (mk_stats 0 0 0) 0 0.

(** Two rows over 4-bit numerals, [x + 2y = 0] with [x] (variable 0)
    basic and [z + y = 0] with [z] (variable 2) basic, at [y = 1]; [x] is
    out of its bounds [[5,8)]. *)
Definition gate_example : fixplex :=
  mk_fixplex [[(0%nat, 1); (1%nat, 2)]; [(2%nat, 1); (1%nat, 1)]]
    [var_info.mk 14 5 8 true 0; var_info.mk 1 0 0 false 0; var_info.mk 15 0 0 true 1]
    [row_info.mk 0 1 2; row_info.mk 2 1 1]
    [0%nat] [] [] None false (mk_stats 0 0 0) 0 0.

(** One row [x + y = 0] over 4-bit numerals with [x] (variable 0) basic
    and bounded by [[4,8)], at [y = 2] and [x = 14]. *)
Definition nearer_example : fixplex :=
  mk_fixplex [[(0%nat, 1); (1%nat, 1)]]
    [var_info.mk 14 4 8 true 0; var_info.mk 2 0 0 false 0]
    [row_info.mk 0 1 2]
    [0%nat] [] [] None false (mk_stats 0 0 0) 0 0.

(** The size of the step between two ring elements, in the shorter
    direction. *)
Definition step_magnitude (N a b : Z) : Z := Z.min (nsub N a b) (nsub N b a).

(** Two rows over 4-bit numerals, [x + y = 0] with [x] (variable 0) basic
    and [z + 2y = 0] with [z] (variable 2) basic, at [y = 0]; [x] is out of
    its bounds [[5,16)]. *)
Definition cascade_example : fixplex :=
  mk_fixplex [[(0%nat, 1); (1%nat, 1)]; [(2%nat, 1); (1%nat, 2)]]
    [var_info.mk 0 5 0 true 0; var_info.mk 0 0 0 false 0; var_info.mk 0 0 4 true 1]
    [row_info.mk 0 1 0; row_info.mk 2 1 0]
    [0%nat] [] [] None false (mk_stats 0 0 0) 0 0.

(** One row [x + 2y = 0] over 4-bit numerals with [x] (variable 0) basic,
    at [y = 0]; [x] is out of its bounds [[5,16)]. *)
Definition inexact_example : fixplex :=
  mk_fixplex [[(0%nat, 1); (1%nat, 2)]]
    [var_info.mk 0 5 0 true 0; var_info.mk 0 0 0 false 0]
    [row_info.mk 0 1 0]
    [0%nat] [] [] None false (mk_stats 0 0 0) 0 0.

(** One row [2s + v = 0] over 4-bit numerals with [s] (variable 0) basic,
    at [v = 2] and [s = 15]; the cached value 2 is divided by 2 exactly. *)
Definition inexact_update_example : fixplex :=
  mk_fixplex [[(0%nat, 2); (1%nat, 1)]]
    [var_info.mk 15 0 0 true 0; var_info.mk 2 0 0 false 0]
    [row_info.mk 0 2 2]
    [] [] [] None false (mk_stats 0 0 0) 0 0.

(** Two rows over 4-bit numerals, [x + 3y = 0] with [x] (variable 0) basic
    and [z + y = 0] with [z] (variable 2) basic, at [y = 6], [x = 14] and
    [z = 10]; both equations hold and both divisions are exact. *)
Definition round_trip_example : fixplex :=
  mk_fixplex [[(0%nat, 1); (1%nat, 3)]; [(2%nat, 1); (1%nat, 1)]]
    [var_info.mk 14 0 0 true 0; var_info.mk 6 0 0 false 0; var_info.mk 10 0 0 true 1]
    [row_info.mk 0 1 2; row_info.mk 2 1 6]
    [] [] [] None false (mk_stats 0 0 0) 0 0.

(** Three variables over 4-bit numerals before any row: [x] (variable 0)
    with bounds [[5,16)], [y] free and [z] (variable 2) with bounds [[0,4)],
    all at 0. *)
Definition shared_column_vars : fixplex :=
  mk_fixplex []
    [var_info.mk 0 5 0 false 0; var_info.mk 0 0 0 false 0; var_info.mk 0 0 4 false 0]
    [] [] [] [] None false (mk_stats 0 0 0) 0 0.

(** The tableau [add_row] builds from it for [x + 2y = 0] with base [x] and
    [z + 2y = 0] with base [z]. *)
Definition shared_column_example : fixplex :=
  mk_fixplex [[(0%nat, 1); (1%nat, 2)]; [(2%nat, 1); (1%nat, 2)]]
    [var_info.mk 0 5 0 true 0; var_info.mk 0 0 0 false 0; var_info.mk 0 0 4 true 1]
    [row_info.mk 0 1 0; row_info.mk 2 1 0]
    [0%nat] [] [] None false (mk_stats 0 0 0) 0 0.

(** ** Tableaux whose rows share no variable *)

(** No variable is held by two rows. *)
Definition single_rows (m : sparse_matrix) : Prop :=
  forall v r r' c c', (r, c) ∈ col_entries v m -> (r', c') ∈ col_entries v m -> r = r'.

(** What the invariants of the tableau read of a state. *)
Definition tableau_view (s : fixplex) : sparse_matrix * list var_info.t * list row_info.t :=
  (M s, m_vars s, m_rows s).

Definition sound_tableau (N : Z) (s : fixplex) : Prop :=
  tableau_wf s /\ row_inv N s /\ single_rows (M s).

(** ** A pivot and the pivot back *)


Definition values (s : fixplex) : list Z := var_info.m_value <$> m_vars s.


(** The rows of [gate_example] with [y] bounded by [[1,2)]: [x + 2y] is
    then between 7 and 9, and the row of [x] has no solution. *)
Definition stuck_example : fixplex :=
  mk_fixplex [[(0%nat, 1); (1%nat, 2)]; [(2%nat, 1); (1%nat, 1)]]
    [var_info.mk 14 5 8 true 0; var_info.mk 1 1 2 false 0; var_info.mk 15 0 0 true 1]
    [row_info.mk 0 1 2; row_info.mk 2 1 1]
    [0%nat] [] [] None false (mk_stats 0 0 0) 0 0.

(** ** Registering variables *)

(** The loop of [ensure_var(v)]: [while (v >= m_vars.size())] pushes
    [var_info()], whose members the class declaration initialises; the
    record it pushes is the parameter [d], and [fuel] bounds the
    iterations. *)
Fixpoint ensure_var_loop (d : var_info.t) (fuel : nat) (v : nat) (vars : list var_info.t)
    : list var_info.t :=
  match fuel with
  | O => vars
  | S fuel' =>
      if decide (length vars <= v)%nat then ensure_var_loop d fuel' v (vars ++ [d])
      else vars
  end.

(** [ensure_var(v)]; [v + 1] iterations are enough for the loop.
    [M.ensure_var] allocates the column of the new variable, which holds no
    entry, and [m_to_patch.set_bounds] the capacity of the To-Patch heap:
    neither shows in the rows or in the members of the set. *)
Definition ensure_var (d : var_info.t) (v : nat) (s : fixplex) : fixplex :=
  set_vars (ensure_var_loop d (S v) v) s.

(** The bounds of the variables, in order. *)
Definition bounds_of (s : fixplex) : list (Z * Z) :=
  (fun i => (var_info.m_lo i, var_info.m_hi i)) <$> m_vars s.

(** ** A limit that fires *)

(** [E] with another [m_limit.inc()]. *)
Definition with_limit (f : Z -> bool * Z) (E : Ext) : Ext :=
  {| ext_N := ext_N E;
     inv := inv E;
     signed_mul := signed_mul E;
     signed_add := signed_add E;
     assertions_enabled := assertions_enabled E;
     well_formed := well_formed E;
     well_formed_row := well_formed_row E;
     add_patch_set := add_patch_set E;
     patch_insert := patch_insert E;
     select_var_to_fix := select_var_to_fix E;
     check_blands_rule := check_blands_rule E;
     limit_inc := f;
     m_max_iterations := m_max_iterations E;
     get_num_non_free_dep_vars := get_num_non_free_dep_vars E;
     random_next := random_next E;
     undeclared_a := undeclared_a E;
     undeclared_delta_best := undeclared_delta_best E;
     undeclared_num_best_so_far := undeclared_num_best_so_far E;
     uninitialized_delta_y := uninitialized_delta_y E |}.

(** [uint4_ext] with a limit that fires the first time it is polled and
    never after. *)
Definition uint4_cancel_ext : Ext := with_limit (fun l => (0 <? l, l + 1)) uint4_ext.

(** [uint4_ext] with the iteration bound at [UINT_MAX]. *)
Definition uint4_unbounded_ext : Ext := example_Ext 4 true UINT_MAX ex_add_patch.

(** The two tableaux between which the pivots on [infeasible_example]
    alternate: [x + y = 0] at [x = 3], [y = 13] with [x] basic and to be
    repaired, and at [x = 5], [y = 11] with [y] basic and to be repaired. *)
Definition cycling (s : fixplex) : Prop :=
  (tableau_view s = tableau_view infeasible_example /\ m_to_patch s = [0%nat]) \/
  (tableau_view s = ([[(0%nat, 1); (1%nat, 1)]],
                     [var_info.mk 5 5 0 false 0; var_info.mk 11 13 0 true 0],
                     [row_info.mk 1 1 5]) /\
   m_to_patch s = [1%nat]).

(** ** More example tableaux *)

(** Three variables over 4-bit numerals before any row: [x] (variable 0)
    with bounds [[5,16)], [y] and [z] free, all at 0. *)
Definition cascade_free_vars : fixplex :=
  mk_fixplex []
    [var_info.mk 0 5 0 false 0; var_info.mk 0 0 0 false 0; var_info.mk 0 0 0 false 0]
    [] [] [] [] None false (mk_stats 0 0 0) 0 0.

(** The tableau [add_row] builds from it for [x + y = 0] with base [x] and
    [z + 2y = 0] with base [z]: the rows of [cascade_example] with [z]
    free. *)
Definition cascade_free_example : fixplex :=
  mk_fixplex [[(0%nat, 1); (1%nat, 1)]; [(2%nat, 1); (1%nat, 2)]]
    [var_info.mk 0 5 0 true 0; var_info.mk 0 0 0 false 0; var_info.mk 0 0 0 true 1]
    [row_info.mk 0 1 0; row_info.mk 2 1 0]
    [0%nat] [] [] None false (mk_stats 0 0 0) 0 0.

(** Two rows over 4-bit numerals with odd coefficients, [x + y = 0] with
    [x] (variable 0) basic and [z + 3y = 0] with [z] (variable 2) basic, at
    [y = 1], [x = 15] and [z = 13]; both equations hold and [x] is out of
    its bounds [[4,8)]. *)
Definition cascade_odd_example : fixplex :=
  mk_fixplex [[(0%nat, 1); (1%nat, 1)]; [(2%nat, 1); (1%nat, 3)]]
    [var_info.mk 15 4 8 true 0; var_info.mk 1 0 0 false 0; var_info.mk 13 0 0 true 1]
    [row_info.mk 0 1 1; row_info.mk 2 1 3]
    [0%nat] [] [] None false (mk_stats 0 0 0) 0 0.

(** Two rows that share no variable, [x + y = 0] with [x] (variable 0)
    basic and [z + w = 0] with [z] (variable 2) basic, at [y = w = 2] and
    [x = z = 14]; [x] and [z] are out of their bounds [[4,8)] and in the
    To-Patch set. *)
Definition two_rows_example : fixplex :=
  mk_fixplex [[(0%nat, 1); (1%nat, 1)]; [(2%nat, 1); (3%nat, 1)]]
    [var_info.mk 14 4 8 true 0; var_info.mk 2 0 0 false 0;
     var_info.mk 14 4 8 true 1; var_info.mk 2 0 0 false 0]
    [row_info.mk 0 1 2; row_info.mk 2 1 2]
    [0%nat; 2%nat] [] [] None false (mk_stats 0 0 0) 0 0.

(** [uint4_ext] with an iteration budget of 0. *)
Definition uint4_budget_ext : Ext := example_Ext 4 true 0 ex_add_patch.

(** One row [x + y = 0] over 4-bit numerals with [x] (variable 0) basic
    and bounded by [[4,8)], at [y = 10] and [x = 6]: [x] is in the To-Patch
    set and within its bounds. *)
Definition settled_example : fixplex :=
  mk_fixplex [[(0%nat, 1); (1%nat, 1)]]
    [var_info.mk 6 4 8 true 0; var_info.mk 10 0 0 false 0]
    [row_info.mk 0 1 10]
    [0%nat] [] [] None false (mk_stats 0 0 0) 0 0.

(** The same row at [y = 15] and [x = 1]: [x] is three steps below [lo]. *)
Definition lower_example : fixplex :=
  mk_fixplex [[(0%nat, 1); (1%nat, 1)]]
    [var_info.mk 1 4 8 true 0; var_info.mk 15 0 0 false 0]
    [row_info.mk 0 1 15]
    [0%nat] [] [] None false (mk_stats 0 0 0) 0 0.

(** * Properties *)

(** ** Outcomes *)

Lemma res_bind_Ok {A B : Type} (m : res A) (f : A -> res B) (b : B) :
  m ≫= f = Ok b -> exists a, m = Ok a /\ f a = Ok b.
Proof. destruct m as [a|e]; [eauto | discriminate]. Qed.

Lemma of_option_Ok {A : Type} (o : option A) (a : A) : of_option o = Ok a <-> o = Some a.
Proof. destruct o; simpl; split; congruence. Qed.

(** Read a field of a state through the assignments made to it. *)
Ltac proj_step :=
  match goal with
  | |- context [M (set_M ?f ?s)] =>
      change (M (set_M f s)) with (f (M s))
  | |- context [m_vars (set_M ?f ?s)] =>
      change (m_vars (set_M f s)) with (m_vars s)
  | |- context [m_rows (set_M ?f ?s)] =>
      change (m_rows (set_M f s)) with (m_rows s)
  | |- context [m_to_patch (set_M ?f ?s)] =>
      change (m_to_patch (set_M f s)) with (m_to_patch s)
  | |- context [m_base_vars (set_M ?f ?s)] =>
      change (m_base_vars (set_M f s)) with (m_base_vars s)
  | |- context [m_random (set_M ?f ?s)] =>
      change (m_random (set_M f s)) with (m_random s)
  | |- context [m_limit (set_M ?f ?s)] =>
      change (m_limit (set_M f s)) with (m_limit s)
  | |- context [M (set_vars ?f ?s)] =>
      change (M (set_vars f s)) with (M s)
  | |- context [m_vars (set_vars ?f ?s)] =>
      change (m_vars (set_vars f s)) with (f (m_vars s))
  | |- context [m_rows (set_vars ?f ?s)] =>
      change (m_rows (set_vars f s)) with (m_rows s)
  | |- context [m_to_patch (set_vars ?f ?s)] =>
      change (m_to_patch (set_vars f s)) with (m_to_patch s)
  | |- context [m_base_vars (set_vars ?f ?s)] =>
      change (m_base_vars (set_vars f s)) with (m_base_vars s)
  | |- context [m_random (set_vars ?f ?s)] =>
      change (m_random (set_vars f s)) with (m_random s)
  | |- context [m_limit (set_vars ?f ?s)] =>
      change (m_limit (set_vars f s)) with (m_limit s)
  | |- context [M (set_rows ?f ?s)] =>
      change (M (set_rows f s)) with (M s)
  | |- context [m_vars (set_rows ?f ?s)] =>
      change (m_vars (set_rows f s)) with (m_vars s)
  | |- context [m_rows (set_rows ?f ?s)] =>
      change (m_rows (set_rows f s)) with (f (m_rows s))
  | |- context [m_to_patch (set_rows ?f ?s)] =>
      change (m_to_patch (set_rows f s)) with (m_to_patch s)
  | |- context [m_base_vars (set_rows ?f ?s)] =>
      change (m_base_vars (set_rows f s)) with (m_base_vars s)
  | |- context [m_random (set_rows ?f ?s)] =>
      change (m_random (set_rows f s)) with (m_random s)
  | |- context [m_limit (set_rows ?f ?s)] =>
      change (m_limit (set_rows f s)) with (m_limit s)
  | |- context [M (set_var ?v ?f ?s)] =>
      change (M (set_var v f s)) with (M s)
  | |- context [m_vars (set_var ?v ?f ?s)] =>
      change (m_vars (set_var v f s)) with (alter f v (m_vars s))
  | |- context [m_rows (set_var ?v ?f ?s)] =>
      change (m_rows (set_var v f s)) with (m_rows s)
  | |- context [m_to_patch (set_var ?v ?f ?s)] =>
      change (m_to_patch (set_var v f s)) with (m_to_patch s)
  | |- context [m_base_vars (set_var ?v ?f ?s)] =>
      change (m_base_vars (set_var v f s)) with (m_base_vars s)
  | |- context [m_random (set_var ?v ?f ?s)] =>
      change (m_random (set_var v f s)) with (m_random s)
  | |- context [m_limit (set_var ?v ?f ?s)] =>
      change (m_limit (set_var v f s)) with (m_limit s)
  | |- context [M (set_row ?r ?f ?s)] =>
      change (M (set_row r f s)) with (M s)
  | |- context [m_vars (set_row ?r ?f ?s)] =>
      change (m_vars (set_row r f s)) with (m_vars s)
  | |- context [m_rows (set_row ?r ?f ?s)] =>
      change (m_rows (set_row r f s)) with (alter f r (m_rows s))
  | |- context [m_to_patch (set_row ?r ?f ?s)] =>
      change (m_to_patch (set_row r f s)) with (m_to_patch s)
  | |- context [m_base_vars (set_row ?r ?f ?s)] =>
      change (m_base_vars (set_row r f s)) with (m_base_vars s)
  | |- context [m_random (set_row ?r ?f ?s)] =>
      change (m_random (set_row r f s)) with (m_random s)
  | |- context [m_limit (set_row ?r ?f ?s)] =>
      change (m_limit (set_row r f s)) with (m_limit s)
  | |- context [M (set_to_patch ?p ?s)] =>
      change (M (set_to_patch p s)) with (M s)
  | |- context [m_vars (set_to_patch ?p ?s)] =>
      change (m_vars (set_to_patch p s)) with (m_vars s)
  | |- context [m_rows (set_to_patch ?p ?s)] =>
      change (m_rows (set_to_patch p s)) with (m_rows s)
  | |- context [m_to_patch (set_to_patch ?p ?s)] =>
      change (m_to_patch (set_to_patch p s)) with p
  | |- context [m_base_vars (set_to_patch ?p ?s)] =>
      change (m_base_vars (set_to_patch p s)) with (m_base_vars s)
  | |- context [m_random (set_to_patch ?p ?s)] =>
      change (m_random (set_to_patch p s)) with (m_random s)
  | |- context [m_limit (set_to_patch ?p ?s)] =>
      change (m_limit (set_to_patch p s)) with (m_limit s)
  | |- context [M (set_base_vars ?l ?s)] =>
      change (M (set_base_vars l s)) with (M s)
  | |- context [m_vars (set_base_vars ?l ?s)] =>
      change (m_vars (set_base_vars l s)) with (m_vars s)
  | |- context [m_rows (set_base_vars ?l ?s)] =>
      change (m_rows (set_base_vars l s)) with (m_rows s)
  | |- context [m_to_patch (set_base_vars ?l ?s)] =>
      change (m_to_patch (set_base_vars l s)) with (m_to_patch s)
  | |- context [m_base_vars (set_base_vars ?l ?s)] =>
      change (m_base_vars (set_base_vars l s)) with l
  | |- context [m_random (set_base_vars ?l ?s)] =>
      change (m_random (set_base_vars l s)) with (m_random s)
  | |- context [m_limit (set_base_vars ?l ?s)] =>
      change (m_limit (set_base_vars l s)) with (m_limit s)
  | |- context [M (set_left_basis ?l ?s)] =>
      change (M (set_left_basis l s)) with (M s)
  | |- context [m_vars (set_left_basis ?l ?s)] =>
      change (m_vars (set_left_basis l s)) with (m_vars s)
  | |- context [m_rows (set_left_basis ?l ?s)] =>
      change (m_rows (set_left_basis l s)) with (m_rows s)
  | |- context [m_to_patch (set_left_basis ?l ?s)] =>
      change (m_to_patch (set_left_basis l s)) with (m_to_patch s)
  | |- context [m_base_vars (set_left_basis ?l ?s)] =>
      change (m_base_vars (set_left_basis l s)) with (m_base_vars s)
  | |- context [m_random (set_left_basis ?l ?s)] =>
      change (m_random (set_left_basis l s)) with (m_random s)
  | |- context [m_limit (set_left_basis ?l ?s)] =>
      change (m_limit (set_left_basis l s)) with (m_limit s)
  | |- context [M (set_infeasible_var ?v ?s)] =>
      change (M (set_infeasible_var v s)) with (M s)
  | |- context [m_vars (set_infeasible_var ?v ?s)] =>
      change (m_vars (set_infeasible_var v s)) with (m_vars s)
  | |- context [m_rows (set_infeasible_var ?v ?s)] =>
      change (m_rows (set_infeasible_var v s)) with (m_rows s)
  | |- context [m_to_patch (set_infeasible_var ?v ?s)] =>
      change (m_to_patch (set_infeasible_var v s)) with (m_to_patch s)
  | |- context [m_base_vars (set_infeasible_var ?v ?s)] =>
      change (m_base_vars (set_infeasible_var v s)) with (m_base_vars s)
  | |- context [m_random (set_infeasible_var ?v ?s)] =>
      change (m_random (set_infeasible_var v s)) with (m_random s)
  | |- context [m_limit (set_infeasible_var ?v ?s)] =>
      change (m_limit (set_infeasible_var v s)) with (m_limit s)
  | |- context [M (set_bland ?b ?s)] =>
      change (M (set_bland b s)) with (M s)
  | |- context [m_vars (set_bland ?b ?s)] =>
      change (m_vars (set_bland b s)) with (m_vars s)
  | |- context [m_rows (set_bland ?b ?s)] =>
      change (m_rows (set_bland b s)) with (m_rows s)
  | |- context [m_to_patch (set_bland ?b ?s)] =>
      change (m_to_patch (set_bland b s)) with (m_to_patch s)
  | |- context [m_base_vars (set_bland ?b ?s)] =>
      change (m_base_vars (set_bland b s)) with (m_base_vars s)
  | |- context [m_random (set_bland ?b ?s)] =>
      change (m_random (set_bland b s)) with (m_random s)
  | |- context [m_limit (set_bland ?b ?s)] =>
      change (m_limit (set_bland b s)) with (m_limit s)
  | |- context [M (set_stats ?f ?s)] =>
      change (M (set_stats f s)) with (M s)
  | |- context [m_vars (set_stats ?f ?s)] =>
      change (m_vars (set_stats f s)) with (m_vars s)
  | |- context [m_rows (set_stats ?f ?s)] =>
      change (m_rows (set_stats f s)) with (m_rows s)
  | |- context [m_to_patch (set_stats ?f ?s)] =>
      change (m_to_patch (set_stats f s)) with (m_to_patch s)
  | |- context [m_base_vars (set_stats ?f ?s)] =>
      change (m_base_vars (set_stats f s)) with (m_base_vars s)
  | |- context [m_random (set_stats ?f ?s)] =>
      change (m_random (set_stats f s)) with (m_random s)
  | |- context [m_limit (set_stats ?f ?s)] =>
      change (m_limit (set_stats f s)) with (m_limit s)
  | |- context [M (set_random ?g ?s)] =>
      change (M (set_random g s)) with (M s)
  | |- context [m_vars (set_random ?g ?s)] =>
      change (m_vars (set_random g s)) with (m_vars s)
  | |- context [m_rows (set_random ?g ?s)] =>
      change (m_rows (set_random g s)) with (m_rows s)
  | |- context [m_to_patch (set_random ?g ?s)] =>
      change (m_to_patch (set_random g s)) with (m_to_patch s)
  | |- context [m_base_vars (set_random ?g ?s)] =>
      change (m_base_vars (set_random g s)) with (m_base_vars s)
  | |- context [m_random (set_random ?g ?s)] =>
      change (m_random (set_random g s)) with g
  | |- context [m_limit (set_random ?g ?s)] =>
      change (m_limit (set_random g s)) with (m_limit s)
  | |- context [M (set_limit ?l ?s)] =>
      change (M (set_limit l s)) with (M s)
  | |- context [m_vars (set_limit ?l ?s)] =>
      change (m_vars (set_limit l s)) with (m_vars s)
  | |- context [m_rows (set_limit ?l ?s)] =>
      change (m_rows (set_limit l s)) with (m_rows s)
  | |- context [m_to_patch (set_limit ?l ?s)] =>
      change (m_to_patch (set_limit l s)) with (m_to_patch s)
  | |- context [m_base_vars (set_limit ?l ?s)] =>
      change (m_base_vars (set_limit l s)) with (m_base_vars s)
  | |- context [m_random (set_limit ?l ?s)] =>
      change (m_random (set_limit l s)) with (m_random s)
  | |- context [m_limit (set_limit ?l ?s)] =>
      change (m_limit (set_limit l s)) with l
  | |- context [M (add_patch ?E ?v ?s)] =>
      change (M (add_patch E v s)) with (M s)
  | |- context [m_vars (add_patch ?E ?v ?s)] =>
      change (m_vars (add_patch E v s)) with (m_vars s)
  | |- context [m_rows (add_patch ?E ?v ?s)] =>
      change (m_rows (add_patch E v s)) with (m_rows s)
  | |- context [m_to_patch (add_patch ?E ?v ?s)] =>
      change (m_to_patch (add_patch E v s)) with (add_patch_set E v s)
  | |- context [m_base_vars (add_patch ?E ?v ?s)] =>
      change (m_base_vars (add_patch E v s)) with (m_base_vars s)
  | |- context [m_random (add_patch ?E ?v ?s)] =>
      change (m_random (add_patch E v s)) with (m_random s)
  | |- context [m_limit (add_patch ?E ?v ?s)] =>
      change (m_limit (add_patch E v s)) with (m_limit s)
  end.
Ltac proj_simpl := repeat proj_step; cbv beta.

Ltac res_simpl :=
  cbn [mbind res_mbind res_bind fmap res_fmap option_fmap option_map of_option
       mret res_mret fst snd].

(** ** [in_bounds] *)

(** C10: [in_bounds] is true for an unconstrained interval, the half-open
    range test for [lo < hi], and the wrapping test for [lo > hi]. *)
Theorem in_bounds_cases (val lo hi : Z) :
  (lo = hi -> in_bounds val lo hi = true) /\
  (lo < hi -> in_bounds val lo hi = (lo <=? val) && (val <? hi)) /\
  (lo > hi -> in_bounds val lo hi = (val <? hi) || (lo <=? val)).
Proof.
  unfold in_bounds. repeat split; intros H.
  - by rewrite (proj2 (Z.eqb_eq lo hi) H).
  - rewrite (proj2 (Z.eqb_neq lo hi)) by lia.
    by rewrite (proj2 (Z.ltb_lt lo hi) H).
  - rewrite (proj2 (Z.eqb_neq lo hi)) by lia.
    by rewrite (proj2 (Z.ltb_ge lo hi)) by lia.
Qed.

Lemma in_bounds_cases_witness :
  in_bounds 15 7 7 = true /\
  in_bounds 0 2 5 = (2 <=? 0) && (0 <? 5) /\
  in_bounds 15 9 4 = (15 <? 4) || (9 <=? 15).
Proof.
  split; [| split].
  - apply (proj1 (in_bounds_cases 15 7 7)). reflexivity.
  - apply (proj1 (proj2 (in_bounds_cases 0 2 5))). lia.
  - apply (proj2 (proj2 (in_bounds_cases 15 9 4))). lia.
Defined.

Lemma in_bounds_true (val lo hi : Z) :
  in_bounds val lo hi = true <->
  lo = hi \/ (lo < hi /\ lo <= val < hi) \/ (hi < lo /\ (val < hi \/ lo <= val)).
Proof.
  unfold in_bounds.
  destruct (Z.eqb_spec lo hi); [intuition lia |].
  destruct (Z.ltb_spec lo hi).
  - rewrite andb_true_iff, Z.leb_le, Z.ltb_lt. lia.
  - rewrite orb_true_iff, Z.leb_le, Z.ltb_lt. lia.
Qed.

(** ** The infeasibility proof *)

Section is_infeasible_row.
Context (E : Ext).
Local Abbreviation N := (ext_N E).

Lemma nmul_comm (a b : Z) : nmul N a b = nmul N b a.
Proof. unfold nmul. by rewrite Z.mul_comm. Qed.

Lemma range_sum_from_None (bs : list bounds) :
  foldl (fun acc b =>
           diff ← acc;
           range ← signed_mul E (snd b) (nsub N (snd (fst b)) (fst (fst b)));
           signed_add E diff range) None bs = None.
Proof. induction bs as [|b bs IH]; [done | exact IH]. Qed.

Lemma range_sum_from_cons (diff : Z) (b : bounds) (bs : list bounds) :
  range_sum_from E diff (b :: bs) =
  match signed_mul E (snd b) (nsub N (snd (fst b)) (fst (fst b))) with
  | None => None
  | Some range =>
      match signed_add E diff range with
      | None => None
      | Some diff' => range_sum_from E diff' bs
      end
  end.
Proof.
  unfold range_sum_from. cbn [foldl mbind option_bind].
  destruct (signed_mul E _ _) as [range|]; [| apply range_sum_from_None].
  cbn [mbind option_bind].
  destruct (signed_add E diff range); [reflexivity | apply range_sum_from_None].
Qed.

Lemma row_bounds_cons (s : fixplex) (e : row_entry) (es : list row_entry) (bs : list bounds) :
  row_bounds s (e :: es) = Some bs ->
  exists i bs', m_vars s !! fst e = Some i /\ row_bounds s es = Some bs' /\
                bs = (var_info.m_lo i, var_info.m_hi i, snd e) :: bs'.
Proof.
  unfold row_bounds. cbn. intros H.
  destruct (m_vars s !! fst e) as [i|]; [| discriminate]. cbn in H.
  destruct (mapM _ es) as [bs'|]; [| discriminate]. cbn in H.
  exists i, bs'. by inversion H.
Qed.

(** The loop returns true exactly when every entry is constrained, the
    checked sum of the ranges exists, and [0 < lo_sum <= hi_sum]. *)
Lemma is_infeasible_row_loop_spec (s : fixplex) (es : list row_entry) :
  forall (bs : list bounds) (lo_s hi_s diff : Z),
    row_bounds s es = Some bs ->
    exists b, is_infeasible_row_loop E s es lo_s hi_s diff = Ok b /\
      (b = true <->
       Forall constrained bs /\ is_Some (range_sum_from E diff bs) /\
       0 < lo_sum_from N lo_s bs /\ lo_sum_from N lo_s bs <= hi_sum_from N hi_s bs).
Proof.
  induction es as [|e es IH]; intros bs lo_s hi_s diff Hb.
  - inversion Hb; subst. eexists; split; [reflexivity |]. cbn.
    rewrite andb_true_iff, Z.ltb_lt, Z.leb_le. split.
    + intros [? ?]. by repeat split; [constructor | eexists | |].
    + tauto.
  - apply row_bounds_cons in Hb as (i & bs' & Hi & Hbs' & ->).
    cbn [is_infeasible_row_loop]. unfold lo, hi. rewrite Hi.
    cbn [fmap option_fmap option_map of_option mbind res_mbind res_bind fst snd].
    destruct (Z.eqb_spec (var_info.m_lo i) (var_info.m_hi i)) as [Heq|Hne].
    { eexists; split; [reflexivity |]. split; [discriminate |].
      intros (Hc & _). inversion Hc as [|? ? Hc1 _]; subst. by destruct Hc1. }
    assert (Hcons : forall P Q R : Prop,
      (Forall constrained ((var_info.m_lo i, var_info.m_hi i, snd e) :: bs') /\ P /\ Q /\ R) <->
      (Forall constrained bs' /\ P /\ Q /\ R)).
    { intros. rewrite Forall_cons. unfold constrained at 1. cbn [fst snd]. tauto. }
    setoid_rewrite Hcons. setoid_rewrite range_sum_from_cons. cbn [fst snd].
    destruct (signed_mul E (snd e) _) as [range|] eqn:Hmul.
    2:{ eexists; split; [reflexivity |]. split; [discriminate |].
        intros (_ & [z Hz] & _). discriminate. }
    destruct (signed_add E diff range) as [diff'|] eqn:Hadd.
    2:{ eexists; split; [reflexivity |]. split; [discriminate |].
        intros (_ & [z Hz] & _). discriminate. }
    destruct (IH bs' (nadd N lo_s (nmul N (var_info.m_lo i) (snd e)))
                 (nadd N hi_s (nmul N (nsub N (var_info.m_hi i) 1) (snd e))) diff' Hbs')
      as (b & Hrun & Hiff).
    exists b. split; [exact Hrun |]. rewrite Hiff.
    unfold lo_sum_from, hi_sum_from. cbn [foldl fst snd].
    by rewrite !(nmul_comm (snd e)).
Qed.
End is_infeasible_row.

(** ** Soundness of the infeasibility proof when the checked operations
    detect overflow of the unsigned result *)

Section soundness.
Variable N : Z.
Hypothesis N_nonneg : 0 <= N.

Lemma sumZ_cons (x : Z) (l : list Z) : sumZ (x :: l) = x + sumZ l.
Proof. reflexivity. Qed.

Lemma modulus_pos : 0 < 2 ^ N.
Proof. by apply Z.pow_pos_nonneg. Qed.

Lemma wrap_range (z : Z) : 0 <= wrap N z < 2 ^ N.
Proof. apply Z.mod_pos_bound, modulus_pos. Qed.

Lemma wrap_small (z : Z) : 0 <= z < 2 ^ N -> wrap N z = z.
Proof. apply Z.mod_small. Qed.

Lemma wrap_add_l (a b : Z) : wrap N (wrap N a + b) = wrap N (a + b).
Proof. unfold wrap, modulus. by rewrite Zplus_mod_idemp_l. Qed.

Lemma wrap_add_r (a b : Z) : wrap N (a + wrap N b) = wrap N (a + b).
Proof. unfold wrap, modulus. by rewrite Zplus_mod_idemp_r. Qed.

Lemma wrap_eq_iff (a b : Z) : wrap N a = wrap N b <-> exists k, a = b + k * 2 ^ N.
Proof.
  pose proof modulus_pos as HM. unfold wrap, modulus. split.
  - intros H. exists (a / 2 ^ N - b / 2 ^ N).
    rewrite (Z.mod_eq a), (Z.mod_eq b) in H by lia. lia.
  - intros [k ->]. by rewrite Z_mod_plus_full.
Qed.

Lemma lo_sum_from_wrap (bs : list bounds) (a : Z) :
  lo_sum_from N (wrap N a) bs = wrap N (a + sum_lo bs).
Proof.
  revert a. induction bs as [|b bs IH]; intros a.
  - unfold sum_lo. cbn. by rewrite Z.add_0_r.
  - unfold lo_sum_from in *. cbn [foldl]. unfold nadd at 2, nmul.
    rewrite wrap_add_l, wrap_add_r, IH. unfold sum_lo. rewrite !fmap_cons, !sumZ_cons. f_equal. lia.
Qed.

(** [c * ((h - 1) mod 2^N)] and [c * (l + (h - l) mod 2^N - 1)] agree in
    the ring. *)
Lemma hi_term_wrap (l h c : Z) :
  exists k, c * nsub N h 1 = c * (l + nsub N h l - 1) + k * 2 ^ N.
Proof.
  pose proof modulus_pos as HM. unfold nsub, wrap, modulus.
  exists (c * ((h - l) / 2 ^ N - (h - 1) / 2 ^ N)).
  rewrite (Z.mod_eq (h - 1)), (Z.mod_eq (h - l)) by lia. ring.
Qed.

Lemma hi_sum_from_wrap (bs : list bounds) (a : Z) :
  hi_sum_from N (wrap N a) bs = wrap N (a + sum_lo bs + sum_range N bs - sum_coeff bs).
Proof.
  revert a. induction bs as [|b bs IH]; intros a.
  - unfold sum_lo, sum_range, sum_coeff. cbn. f_equal. lia.
  - unfold hi_sum_from in *. cbn [foldl]. unfold nadd at 2, nmul.
    rewrite wrap_add_l, wrap_add_r, IH. unfold sum_lo, sum_range, sum_coeff.
    rewrite !fmap_cons, !sumZ_cons.
    apply wrap_eq_iff.
    destruct (hi_term_wrap (fst (fst b)) (snd (fst b)) (snd b)) as [k Hk].
    exists k. lia.
Qed.

Lemma range_sum_checked (E : Ext) (bs : list bounds) (d d' : Z) :
  ext_N E = N ->
  (forall x y, signed_mul E x y = checked_mul N x y) ->
  (forall x y, signed_add E x y = checked_add N x y) ->
  Forall (numeral_bounds N) bs ->
  0 <= d < 2 ^ N ->
  range_sum_from E d bs = Some d' ->
  d' = d + sum_range N bs /\ d' < 2 ^ N.
Proof.
  intros HN Hmul Hadd Hbs. revert d. induction Hbs as [|b bs Hb _ IH]; intros d Hd Hrun.
  - inversion Hrun; subst. unfold sum_range. cbn. lia.
  - rewrite range_sum_from_cons, Hmul, HN in Hrun. unfold checked_mul in Hrun.
    destruct (Z.ltb_spec (snd b * nsub N (snd (fst b)) (fst (fst b))) (2 ^ N)); [| discriminate].
    rewrite Hadd in Hrun. unfold checked_add in Hrun.
    destruct (Z.ltb_spec (d + snd b * nsub N (snd (fst b)) (fst (fst b))) (2 ^ N));
      [| discriminate].
    destruct Hb as (_ & _ & Hc). unfold is_numeral in Hc.
    pose proof (wrap_range (snd (fst b) - fst (fst b))) as Hr. fold (nsub N (snd (fst b)) (fst (fst b))) in Hr.
    apply IH in Hrun as [-> ?]; [| nia]. unfold sum_range.
    rewrite !fmap_cons, !sumZ_cons. split; [lia | done].
Qed.
Lemma wrap_shift (z k : Z) : wrap N (z + k * 2 ^ N) = wrap N z.
Proof. unfold wrap, modulus. apply Z_mod_plus_full. Qed.

Lemma wrap_neg (z : Z) : - 2 ^ N <= z < 0 -> wrap N z = z + 2 ^ N.
Proof.
  intros Hz. rewrite <- (wrap_shift z 1), wrap_small; lia.
Qed.

(** A value within constrained bounds is [lo] plus an offset below the
    size of the interval, up to a multiple of [2^N]. *)
Lemma within_offset (l h v : Z) :
  is_numeral N l -> is_numeral N h -> is_numeral N v -> l ≠ h ->
  in_bounds v l h = true ->
  exists t k, 0 <= t <= nsub N h l - 1 /\ v = l + t + k * 2 ^ N.
Proof.
  unfold is_numeral, nsub. intros Hl Hh Hv Hne Hin.
  apply in_bounds_true in Hin as [? | [[Hlt Hin] | [Hlt Hin]]]; [done | |].
  - rewrite wrap_small by lia. exists (v - l), 0. lia.
  - rewrite wrap_neg by lia. destruct Hin.
    + exists (v - l + 2 ^ N), (-1). lia.
    + exists (v - l), 0. lia.
Qed.

Lemma row_eval_offset (s : fixplex) (val : nat -> Z) (es : list row_entry) :
  forall bs : list bounds,
    row_bounds s es = Some bs ->
    Forall (numeral_bounds N) bs ->
    Forall constrained bs ->
    within_bounds N s val es ->
    exists t k,
      0 <= t <= sum_range N bs - sum_coeff bs /\
      sumZ ((fun e => snd e * val (fst e)) <$> es) = sum_lo bs + t + k * 2 ^ N.
Proof.
  induction es as [|e es IH]; intros bs Hb Hnum Hcon Hval.
  - inversion Hb; subst. exists 0, 0. unfold sum_range, sum_coeff, sum_lo. cbn. lia.
  - apply row_bounds_cons in Hb as (i & bs' & Hi & Hbs' & ->).
    inversion Hnum as [|? ? (Hl & Hh & Hc) Hnum']; subst.
    inversion Hcon as [|? ? Hne Hcon']; subst.
    destruct (IH bs' Hbs' Hnum' Hcon') as (t & k & Ht & Hsum).
    { intros e' He'. apply Hval. by right. }
    destruct (Hval e) as (i' & Hi' & Hv & Hin); [by left |].
    rewrite Hi in Hi'. inversion Hi'; subst i'.
    cbn [fst snd] in Hl, Hh, Hc. unfold constrained in Hne. cbn [fst snd] in Hne.
    destruct (within_offset _ _ _ Hl Hh Hv Hne Hin) as (t1 & k1 & Ht1 & Hv1).
    exists (snd e * t1 + t), (snd e * k1 + k).
    unfold sum_range, sum_coeff, sum_lo in *.
    rewrite !fmap_cons, !sumZ_cons. cbn [fst snd]. rewrite Hsum.
    unfold is_numeral in Hc. split; [nia | rewrite Hv1 at 1; ring].
Qed.

Lemma sum_coeff_nonneg (bs : list bounds) :
  Forall (numeral_bounds N) bs -> 0 <= sum_coeff bs.
Proof.
  unfold sum_coeff. induction 1 as [|b bs (_ & _ & Hc) _ IH]; [done |].
  rewrite fmap_cons, sumZ_cons. unfold is_numeral in Hc. lia.
Qed.

(** With checks that detect unsigned overflow, a row that the loop proves
    infeasible has no solution within the bounds. *)
Lemma infeasible_sound (E : Ext) (s : fixplex) (val : nat -> Z)
    (es : list row_entry) (bs : list bounds) :
  ext_N E = N ->
  (forall x y, signed_mul E x y = checked_mul N x y) ->
  (forall x y, signed_add E x y = checked_add N x y) ->
  row_bounds s es = Some bs ->
  Forall (numeral_bounds N) bs ->
  Forall constrained bs ->
  is_Some (range_sum E bs) ->
  0 < lo_sum N bs ->
  lo_sum N bs <= hi_sum N bs ->
  within_bounds N s val es ->
  row_eval N val es ≠ 0.
Proof.
  intros HN Hmul Hadd Hb Hnum Hcon [d Hd] Hlo Hhi Hval.
  pose proof modulus_pos as HM.
  apply (range_sum_checked E bs 0 d HN Hmul Hadd Hnum) in Hd as [-> Hd]; [| lia].
  destruct (row_eval_offset s val es bs Hb Hnum Hcon Hval) as (t & k & Ht & Hsum).
  unfold lo_sum, hi_sum in *.
  change 0 with (wrap N 0) in Hlo at 2. change 0 with (wrap N 0) in Hhi.
  rewrite lo_sum_from_wrap in Hlo, Hhi. rewrite hi_sum_from_wrap in Hhi.
  rewrite !Z.add_0_l in *.
  unfold row_eval. rewrite Hsum.
  pose proof (wrap_range (sum_lo bs)) as HL.
  pose proof (sum_coeff_nonneg bs Hnum) as HC.
  set (L := wrap N (sum_lo bs)) in *.
  assert (HH : wrap N (sum_lo bs + sum_range N bs - sum_coeff bs)
               = wrap N (L + (sum_range N bs - sum_coeff bs))).
  { unfold L. rewrite wrap_add_l. f_equal. lia. }
  rewrite HH in Hhi.
  assert (Hfit : L + (sum_range N bs - sum_coeff bs) < 2 ^ N).
  { destruct (Z_lt_ge_dec (L + (sum_range N bs - sum_coeff bs)) (2 ^ N)) as [|Hge]; [done |].
    exfalso.
    assert (Hw : wrap N (L + (sum_range N bs - sum_coeff bs))
                 = L + (sum_range N bs - sum_coeff bs) - 2 ^ N).
    { rewrite <- (wrap_shift _ (-1)), wrap_small; lia. }
    lia. }
  assert (Hv : wrap N (sum_lo bs + t + k * 2 ^ N) = L + t).
  { rewrite wrap_shift, <- wrap_add_l. fold L. apply wrap_small. lia. }
  rewrite Hv. lia.
Qed.
End soundness.

(** C1: [is_infeasible_row] answers true exactly when no variable of the
    row is unconstrained, no checked range computation overflows, and
    [0 < lo_sum <= hi_sum] for the ring sums of [c_i * lo(v_i)] and
    [c_i * (hi(v_i) - 1)]; it answers false when a variable is unconstrained
    or a range computation overflows; and when the checks detect overflow of
    the unsigned result, a true answer is never wrong: no assignment within
    the bounds solves the row's equation. *)
Theorem is_infeasible_row_correct (E : Ext) (s : fixplex) (x : nat) (xi : var_info.t)
    (es : list row_entry) (bs : list bounds) :
  m_vars s !! x = Some xi ->
  var_info.m_is_base xi = true ->
  is_Some (m_rows s !! var_info.m_base2row xi) ->
  M s !! var_info.m_base2row xi = Some es ->
  row_bounds s es = Some bs ->
  exists b,
    is_infeasible_row E x s = Ok b /\
    (b = true <->
     Forall constrained bs /\ is_Some (range_sum E bs) /\
     0 < lo_sum (ext_N E) bs /\ lo_sum (ext_N E) bs <= hi_sum (ext_N E) bs) /\
    (Exists (fun b => fst (fst b) = snd (fst b)) bs -> b = false) /\
    (range_sum E bs = None -> b = false) /\
    (0 <= ext_N E ->
     (forall a c, signed_mul E a c = checked_mul (ext_N E) a c) ->
     (forall a c, signed_add E a c = checked_add (ext_N E) a c) ->
     Forall (numeral_bounds (ext_N E)) bs ->
     b = true ->
     forall val, within_bounds (ext_N E) s val es -> row_eval (ext_N E) val es ≠ 0).
Proof.
  intros Hx Hbase [ri Hri] Hes Hbs.
  destruct (is_infeasible_row_loop_spec E s es bs 0 0 0 Hbs) as (b & Hrun & Hiff).
  exists b. split; [| split; [exact Hiff | split; [| split]]].
  - unfold is_infeasible_row, SASSERT, is_base, var_at, row_at, row_entries.
    rewrite Hx. res_simpl. rewrite Hbase, Hri. res_simpl. rewrite Hes. res_simpl.
    by destruct (assertions_enabled E).
  - intros Hex. destruct b; [| done].
    apply Exists_exists in Hex as (b & Hb & Heq).
    destruct Hiff as [Hiff _]. destruct (Hiff eq_refl) as (Hall & _).
    rewrite Forall_forall in Hall. by destruct (Hall b Hb).
  - intros Hnone. destruct b; [| done].
    destruct Hiff as [Hiff _]. destruct (Hiff eq_refl) as (_ & [d Hd] & _).
    unfold range_sum in Hnone. congruence.
  - intros HN Hmul Hadd Hnum -> val Hval.
    destruct Hiff as [Hiff _]. destruct (Hiff eq_refl) as (Hall & Hd & Hlo & Hhi).
    by eapply (infeasible_sound (ext_N E) HN E s val es bs).
Qed.

Lemma is_infeasible_row_correct_witness :
  is_infeasible_row uint4_ext 0 infeasible_example = Ok true /\
  (forall val, within_bounds 4 infeasible_example val [(0%nat, 1); (1%nat, 1)] ->
               row_eval 4 val [(0%nat, 1); (1%nat, 1)] ≠ 0).
Proof.
  destruct (is_infeasible_row_correct uint4_ext infeasible_example 0
              (var_info.mk 3 5 0 true 0) [(0%nat, 1); (1%nat, 1)] [(5, 0, 1); (13, 0, 1)]
              eq_refl eq_refl (ex_intro _ (row_info.mk 0 1 13) eq_refl) eq_refl eq_refl)
    as (b & Hrun & _ & _ & _ & Hsound).
  assert (Hb : b = true) by (vm_compute in Hrun; congruence).
  subst b. split; [exact Hrun |].
  apply Hsound; [cbn; lia | reflexivity | reflexivity | | reflexivity].
  repeat constructor; cbn; lia.
Defined.

(** ** Loops *)

Lemma foldlM_app {A B : Type} (f : A -> B -> res A) (a : A) (l1 l2 : list B) :
  foldlM f a (l1 ++ l2) = a' ← foldlM f a l1; foldlM f a' l2.
Proof.
  revert a. induction l1 as [|b l1 IH]; intros a; [done |].
  cbn [foldlM app]. destruct (f a b) as [a'|e]; [apply IH | done].
Qed.

(** A property that every step of a loop keeps holds when the loop ends. *)
Lemma foldlM_invariant {A B : Type} (P : A -> Prop) (f : A -> B -> res A) (l : list B) :
  (forall a b a', b ∈ l -> P a -> f a b = Ok a' -> P a') ->
  forall a a', P a -> foldlM f a l = Ok a' -> P a'.
Proof.
  induction l as [|b l IH]; intros Hstep a a' Ha Hrun.
  - inversion Hrun. by subst.
  - cbn [foldlM] in Hrun. apply res_bind_Ok in Hrun as (a1 & Hf & Hrun).
    eapply IH; [| | exact Hrun].
    + intros ? ? ? ?. apply Hstep. by right.
    + eapply Hstep; [by left | exact Ha | exact Hf].
Qed.

Lemma foldlM_skip {A B : Type} (f : A -> B -> res A) (l : list B) (a : A) :
  (forall b, b ∈ l -> f a b = Ok a) -> foldlM f a l = Ok a.
Proof.
  induction l as [|b l IH]; intros Hstep; [done |].
  cbn [foldlM]. rewrite Hstep by (by left). apply IH. intros ? ?. apply Hstep. by right.
Qed.

(** ** Pivot selection *)

Section select_pivot.
Context (E : Ext).
Local Abbreviation N := (ext_N E).

Lemma tz_pos_nonneg (p : positive) : 0 <= tz_pos p.
Proof. induction p; cbn [tz_pos]; lia. Qed.

Lemma trailing_zeros_nonneg (a : Z) : 0 <= N -> 0 <= trailing_zeros N a.
Proof. intros HN. destruct a; cbn; [done | apply tz_pos_nonneg | done]. Qed.

(** The eligibility gate: the trailing zeros of [b] are at most those of
    every coefficient on [y]. *)
Lemma has_minimal_trailing_zeros_iff (y : nat) (b : Z) (s : fixplex) :
  0 <= N ->
  has_minimal_trailing_zeros E y b s = true <->
  forall col, col ∈ col_entries y (M s) ->
              trailing_zeros N b <= trailing_zeros N (snd col).
Proof.
  intros HN. unfold has_minimal_trailing_zeros.
  destruct (Z.eqb_spec (trailing_zeros N b) 0) as [H0|H0].
  - split; [| done]. intros _ col _. rewrite H0. by apply trailing_zeros_nonneg.
  - rewrite forallb_forall. split.
    + intros H col Hcol. apply list_elem_of_In, H in Hcol.
      apply negb_true_iff in Hcol. rewrite Z.gtb_ltb in Hcol. apply Z.ltb_ge in Hcol. lia.
    + intros H col Hcol. apply list_elem_of_In, H in Hcol.
      apply negb_true_iff. rewrite Z.gtb_ltb. apply Z.ltb_ge. lia.
Qed.
Lemma select_pivot_step_ok (x : nat) (new_value row_value : Z) (s : fixplex)
    (es : list row_entry) (max : nat) (st st' : pivot_choice) (e : row_entry) :
  e ∈ es ->
  choice_ok E x s es max st ->
  select_pivot_step E x new_value row_value s st e = Ok st' ->
  choice_ok E x s es max st'.
Proof.
  intros He Hst. unfold select_pivot_step.
  destruct (decide (x = fst e)) as [|Hx]; [intros [= <-]; exact Hst |].
  destruct (has_minimal_trailing_zeros E (fst e) (snd e) s) eqn:Hmin;
    [| intros [= <-]; exact Hst].
  cbn [negb]. intros Hrun.
  apply res_bind_Ok in Hrun as (vy & _ & Hrun).
  apply res_bind_Ok in Hrun as (new_y & _ & Hrun).
  apply res_bind_Ok in Hrun as (ly & _ & Hrun).
  apply res_bind_Ok in Hrun as (hy & _ & Hrun).
  assert (Hnew : forall n c k d bb g,
             choice_ok E x s es max (mk_choice (fst e) (snd e) n c k d bb g)).
  { intros. right. cbn. split; [by destruct e | split; [congruence | exact Hmin]]. }
  assert (Hold : forall n c k d bb g,
             choice_ok E x s es max (mk_choice (result st) (out_b st) n c k d bb g)).
  { intros. exact Hst. }
  repeat match type of Hrun with
         | (if ?c then _ else _) = _ => destruct c
         | (let '(_, _) := ?p in _) = _ => destruct p
         end;
    injection Hrun as <-; auto.
Qed.

Lemma select_pivot_step_skip (x : nat) (new_value row_value : Z) (s : fixplex)
    (st : pivot_choice) (e : row_entry) :
  fst e = x \/ has_minimal_trailing_zeros E (fst e) (snd e) s = false ->
  select_pivot_step E x new_value row_value s st e = Ok st.
Proof.
  intros H. unfold select_pivot_step.
  destruct (decide (x = fst e)); [done |].
  destruct H as [H | H]; [congruence | by rewrite H].
Qed.

(** A variable that [select_pivot_core] returns is an entry of the row of
    [x], other than [x], that passes the eligibility gate. *)
Lemma select_pivot_core_eligible (x y : nat) (delta new_value b : Z) (s s' : fixplex) :
  select_pivot_core E x delta new_value s = Ok (Some y, b, s') ->
  exists xi es,
    m_vars s !! x = Some xi /\ M s !! var_info.m_base2row xi = Some es /\
    (y, b) ∈ es /\ y ≠ x /\ has_minimal_trailing_zeros E y b s = true.
Proof.
  unfold select_pivot_core. intros Hrun.
  apply res_bind_Ok in Hrun as (_ & _ & Hrun).
  apply res_bind_Ok in Hrun as (xi & Hxi & Hrun).
  apply res_bind_Ok in Hrun as (ri & _ & Hrun).
  apply res_bind_Ok in Hrun as (es & Hes & Hrun).
  apply res_bind_Ok in Hrun as (st & Hloop & Hrun).
  apply of_option_Ok in Hxi, Hes. exists xi, es. split; [done | split; [done |]].
  assert (Hok : choice_ok E x s es (get_num_vars s) st).
  { eapply (foldlM_invariant (choice_ok E x s es (get_num_vars s))); [| | exact Hloop].
    - intros st1 e st2 He. by apply select_pivot_step_ok.
    - by left. }
  destruct (decide (result st < get_num_vars s)%nat) as [Hlt|]; [| discriminate].
  injection Hrun as <- <- _.
  destruct Hok as [Hmax | ?]; [lia | done].
Qed.

(** When no entry of the row other than [x] passes the gate,
    [select_pivot_core] returns [null_var]. *)
Lemma select_pivot_core_none (x : nat) (delta new_value : Z) (s : fixplex)
    (xi : var_info.t) (es : list row_entry) :
  m_vars s !! x = Some xi ->
  var_info.m_is_base xi = true ->
  is_Some (m_rows s !! var_info.m_base2row xi) ->
  M s !! var_info.m_base2row xi = Some es ->
  (forall e, e ∈ es -> fst e ≠ x ->
             has_minimal_trailing_zeros E (fst e) (snd e) s = false) ->
  exists b, select_pivot_core E x delta new_value s = Ok (None, b, set_random (m_random s) s).
Proof.
  intros Hx Hbase [ri Hri] Hes Hnone. exists 0.
  unfold select_pivot_core, SASSERT, is_base, var_at, row_at, row_entries.
  rewrite Hx. res_simpl. rewrite Hbase, Hri. res_simpl. rewrite Hes. res_simpl.
  assert (Hsassert : (if assertions_enabled E then Ok () else Ok ()) = Ok ())
    by (by destruct (assertions_enabled E)).
  rewrite Hsassert. res_simpl.
  rewrite foldlM_skip.
  - res_simpl. cbn [result out_b random]. by destruct (decide _); [lia |].
  - intros e He. apply select_pivot_step_skip.
    destruct (decide (fst e = x)); [by left | right; by apply Hnone].
Qed.
End select_pivot.

Lemma make_var_feasible_no_pivot (E : Ext) (x : nat) (s s1 : fixplex) (xi : var_info.t) (b : Z) :
  m_vars s !! x = Some xi ->
  in_bounds (var_info.m_value xi) (var_info.m_lo xi) (var_info.m_hi xi) = false ->
  select_pivot_core E x
    (snd (new_value_delta E (var_info.m_value xi) (var_info.m_lo xi) (var_info.m_hi xi)))
    (fst (new_value_delta E (var_info.m_value xi) (var_info.m_lo xi) (var_info.m_hi xi))) s
  = Ok (None, b, s1) ->
  make_var_feasible E x s =
  inf ← is_infeasible_row E x s1; Ok (if inf : bool then l_false else l_undef, s1).
Proof.
  intros Hx Hout Hsel. unfold make_var_feasible, in_bounds_var, value, lo, hi.
  rewrite Hx. res_simpl. rewrite Hout.
  destruct (new_value_delta E _ _ _) as [new_value delta]. cbn [fst snd] in Hsel.
  rewrite Hsel. by res_simpl.
Qed.

(** C6: a variable is eligible as pivot partner only if the trailing zeros
    of its coefficient [b] are at most those of every coefficient on it in
    any row; [select_pivot_core] returns only eligible entries of the row,
    returns [null_var] when the row has none, and [make_var_feasible] then
    goes to the infeasibility proof. *)
Theorem eligibility_gate (E : Ext) :
  0 <= ext_N E ->
  (forall y b s,
     has_minimal_trailing_zeros E y b s = true <->
     forall col, col ∈ col_entries y (M s) ->
                 trailing_zeros (ext_N E) b <= trailing_zeros (ext_N E) (snd col)) /\
  (forall x y delta new_value b s s',
     select_pivot_core E x delta new_value s = Ok (Some y, b, s') ->
     exists xi es,
       m_vars s !! x = Some xi /\ M s !! var_info.m_base2row xi = Some es /\
       (y, b) ∈ es /\ y ≠ x /\
       forall col, col ∈ col_entries y (M s) ->
                   trailing_zeros (ext_N E) b <= trailing_zeros (ext_N E) (snd col)) /\
  (forall x delta new_value s xi es,
     m_vars s !! x = Some xi ->
     var_info.m_is_base xi = true ->
     is_Some (m_rows s !! var_info.m_base2row xi) ->
     M s !! var_info.m_base2row xi = Some es ->
     (forall e, e ∈ es -> fst e ≠ x ->
        exists col, col ∈ col_entries (fst e) (M s) /\
                    trailing_zeros (ext_N E) (snd col) < trailing_zeros (ext_N E) (snd e)) ->
     exists b, select_pivot_core E x delta new_value s
               = Ok (None, b, set_random (m_random s) s)) /\
  (forall x s s1 xi b,
     m_vars s !! x = Some xi ->
     in_bounds (var_info.m_value xi) (var_info.m_lo xi) (var_info.m_hi xi) = false ->
     select_pivot_core E x
       (snd (new_value_delta E (var_info.m_value xi) (var_info.m_lo xi) (var_info.m_hi xi)))
       (fst (new_value_delta E (var_info.m_value xi) (var_info.m_lo xi) (var_info.m_hi xi))) s
     = Ok (None, b, s1) ->
     make_var_feasible E x s =
     inf ← is_infeasible_row E x s1; Ok (if inf : bool then l_false else l_undef, s1)).
Proof.
  intros HN. split; [| split; [| split]].
  - intros. by apply has_minimal_trailing_zeros_iff.
  - intros x y delta new_value b s s' Hsel.
    apply select_pivot_core_eligible in Hsel as (xi & es & ? & ? & ? & ? & Hmin).
    exists xi, es. repeat (split; [done |]). by apply has_minimal_trailing_zeros_iff.
  - intros x delta new_value s xi es Hx Hbase Hrow Hes Hnone.
    eapply select_pivot_core_none; try done.
    intros e He Hne. destruct (Hnone e He Hne) as (col & Hcol & Hlt).
    destruct (has_minimal_trailing_zeros E (fst e) (snd e) s) eqn:Hmin; [| done].
    rewrite has_minimal_trailing_zeros_iff in Hmin by done.
    specialize (Hmin col Hcol). lia.
  - intros. by eapply make_var_feasible_no_pivot.
Qed.

Lemma eligibility_gate_witness :
  exists b, select_pivot_core uint4_ext 0 9 7 gate_example = Ok (None, b, gate_example).
Proof.
  destruct (eligibility_gate uint4_ext) as (_ & _ & Hnone & _); [cbn; lia |].
  apply (Hnone 0%nat 9 7 gate_example (var_info.mk 14 5 8 true 0)
           [(0%nat, 1); (1%nat, 2)] eq_refl eq_refl
           (ex_intro _ (row_info.mk 0 1 2) eq_refl) eq_refl).
  intros e He Hne.
  apply elem_of_cons in He as [-> | He]; [done |].
  apply elem_of_cons in He as [-> | He]; [| by apply elem_of_nil in He].
  exists (1%nat, 1). split; [| cbn; lia].
  vm_compute. right. left.
Defined.

(** ** The candidate value of [make_var_feasible] *)

Section new_value.
Context (E : Ext).
Local Abbreviation N := (ext_N E).
Hypothesis N_nonneg : 0 <= N.

Lemma wrap_sub_r (a b : Z) : wrap N (a - wrap N b) = wrap N (a - b).
Proof. unfold wrap, modulus. by rewrite Zminus_mod_idemp_r. Qed.

(** For a value out of its bounds, the step down to [hi - 1] is one more
    than the distance down to [hi]. *)
Lemma step_down_succ (val l h : Z) :
  is_numeral N val -> is_numeral N l -> is_numeral N h ->
  in_bounds val l h = false ->
  nsub N val (nsub N h 1) = nsub N val h + 1.
Proof.
  unfold is_numeral, nsub. intros Hv Hl Hh Hout.
  assert (Hnot : ~ (l = h \/ (l < h /\ l <= val < h) \/ (h < l /\ (val < h \/ l <= val)))).
  { rewrite <- in_bounds_true. congruence. }
  rewrite wrap_sub_r.
  destruct (Z_lt_ge_dec val h).
  - rewrite (wrap_neg N (val - h)) by lia.
    rewrite <- (wrap_shift N (val - (h - 1)) 1), (wrap_small N) by lia. lia.
  - rewrite !(wrap_small N) by lia. lia.
Qed.

Lemma new_value_delta_steps (val l h : Z) :
  is_numeral N val -> is_numeral N l -> is_numeral N h ->
  in_bounds val l h = false ->
  (nsub N l val < nsub N val h /\
   new_value_delta E val l h = (l, nsub N l val) /\
   nsub N l val < nsub N val (nsub N h 1)) \/
  (nsub N val h <= nsub N l val /\
   new_value_delta E val l h = (nsub N h 1, nsub N val (nsub N h 1)) /\
   nsub N val (nsub N h 1) <= nsub N l val + 1).
Proof.
  intros Hv Hl Hh Hout. rewrite (step_down_succ val l h) by done.
  unfold new_value_delta. rewrite (step_down_succ val l h) by done.
  destruct (Z.ltb_spec (nsub N l val) (nsub N val h)); [left | right]; repeat split; lia.
Qed.
End new_value.

Lemma make_var_feasible_in_bounds (E : Ext) (x : nat) (s : fixplex) (xi : var_info.t) :
  m_vars s !! x = Some xi ->
  in_bounds (var_info.m_value xi) (var_info.m_lo xi) (var_info.m_hi xi) = true ->
  make_var_feasible E x s = Ok (l_true, s).
Proof.
  intros Hx Hin. unfold make_var_feasible, in_bounds_var, value, lo, hi.
  rewrite Hx. res_simpl. by rewrite Hin.
Qed.

(** ** The basis invariant *)

Lemma fmap_alter_same {A B : Type} (f : A -> B) (g : A -> A) (i : nat) (l : list A) :
  (forall x, f (g x) = f x) -> f <$> alter g i l = f <$> l.
Proof.
  intros H. rewrite (list_fmap_alter f g id) by (apply Forall_forall; intros; apply H).
  by apply list_alter_id.
Qed.

Lemma basis_view_inv (s s' : fixplex) :
  basis_view s' = basis_view s -> basis_inv s -> basis_inv s'.
Proof.
  unfold basis_view, basis_inv. intros [= Hv Hr HM] (Hlen & H1 & H2).
  assert (Hlen' : length (m_rows s') = length (m_rows s)).
  { apply (f_equal length) in Hr. unfold row_bases in Hr. by rewrite !length_fmap in Hr. }
  rewrite Hv, Hr, HM. split; [congruence | done].
Qed.

Lemma basis_view_set_value (v : nat) (x : Z) (s : fixplex) :
  basis_view (set_var v (var_info.set_value x) s) = basis_view s.
Proof.
  unfold basis_view, basic_vars, row_bases. proj_simpl. by rewrite fmap_alter_same.
Qed.

Lemma basis_view_set_row_value (r : nat) (x : Z) (s : fixplex) :
  basis_view (set_row r (row_info.set_value x) s) = basis_view s.
Proof.
  unfold basis_view, basic_vars, row_bases. proj_simpl. by rewrite fmap_alter_same.
Qed.

Lemma basis_view_set_row_base_coeff (r : nat) (x : Z) (s : fixplex) :
  basis_view (set_row r (row_info.set_base_coeff x) s) = basis_view s.
Proof.
  unfold basis_view, basic_vars, row_bases. proj_simpl. by rewrite fmap_alter_same.
Qed.

Lemma basis_view_add_patch (E : Ext) (v : nat) (s : fixplex) :
  basis_view (add_patch E v s) = basis_view s.
Proof. reflexivity. Qed.

Lemma basis_view_mul (N : Z) (r : nat) (n : Z) (s : fixplex) :
  basis_view (set_M (mul N r n) s) = basis_view s.
Proof.
  unfold basis_view, basic_vars, row_bases, mul. proj_simpl. by rewrite length_alter.
Qed.

Lemma basis_view_add (N : Z) (r1 : nat) (n : Z) (r2 : nat) (s : fixplex) :
  basis_view (set_M (add N r1 n r2) s) = basis_view s.
Proof.
  unfold basis_view, basic_vars, row_bases, add. proj_simpl.
  destruct (M s !! r2); [| done]. by rewrite length_alter.
Qed.

Create Rewrite HintDb basis.
#[local] Hint Rewrite basis_view_set_value basis_view_set_row_value
  basis_view_set_row_base_coeff basis_view_add_patch basis_view_mul basis_view_add : basis.

Section basis.
Context (E : Ext).
Local Abbreviation N := (ext_N E).

Lemma update_value_row_basis (delta : Z) (s s' : fixplex) (c : nat * Z) :
  update_value_row E delta s c = Ok s' -> basis_view s' = basis_view s.
Proof.
  unfold update_value_row. intros Hrun.
  apply res_bind_Ok in Hrun as (ri & _ & Hrun).
  apply res_bind_Ok in Hrun as (q & _ & Hrun).
  apply res_bind_Ok in Hrun as (? & _ & Hrun).
  injection Hrun as <-. by autorewrite with basis.
Qed.

Lemma update_value_basis (v : nat) (delta : Z) (s s' : fixplex) :
  update_value E v delta s = Ok s' -> basis_view s' = basis_view s.
Proof.
  unfold update_value. destruct (delta =? 0); [by intros [= <-] |]. intros Hrun.
  apply res_bind_Ok in Hrun as (vi & _ & Hrun).
  apply res_bind_Ok in Hrun as (? & _ & Hrun).
  eapply (foldlM_invariant (fun s1 => basis_view s1 = basis_view s)); [| | exact Hrun].
  - intros s1 c s2 _ H1 H2. apply update_value_row_basis in H2. congruence.
  - by autorewrite with basis.
Qed.

Lemma pivot_row_basis (rx : nat) (b old_value_y : Z) (s s' : fixplex) (col : nat * Z) :
  pivot_row E rx b old_value_y s col = Ok s' -> basis_view s' = basis_view s.
Proof.
  unfold pivot_row. destruct (decide (fst col = rx)); [by intros [= <-] |]. intros Hrun.
  apply res_bind_Ok in Hrun as (row_z & _ & Hrun).
  apply res_bind_Ok in Hrun as (? & _ & Hrun).
  apply res_bind_Ok in Hrun as (? & _ & Hrun).
  apply res_bind_Ok in Hrun as (b1 & _ & Hrun).
  apply res_bind_Ok in Hrun as (cs & _ & Hrun).
  apply res_bind_Ok in Hrun as (row_x & _ & Hrun).
  apply res_bind_Ok in Hrun as (q & _ & Hrun).
  apply res_bind_Ok in Hrun as (? & _ & Hrun).
  injection Hrun as <-. by autorewrite with basis.
Qed.
Lemma SASSERT_Ok (c : res bool) (u : unit) :
  assertions_enabled E = true -> SASSERT E c = Ok u -> c = Ok true.
Proof.
  unfold SASSERT. intros ->. destruct c as [[]|]; [done | discriminate | discriminate].
Qed.

Lemma is_base_set_stats (f : stats -> stats) (s : fixplex) (v : nat) :
  is_base (set_stats f s) v = is_base s v.
Proof. reflexivity. Qed.

Lemma is_base_Ok (s : fixplex) (v : nat) (b : bool) :
  is_base s v = Ok b <-> exists r, basic_vars s !! v = Some (b, r).
Proof.
  unfold is_base, basic_vars. rewrite list_lookup_fmap.
  destruct (m_vars s !! v) as [i|]; cbn; split.
  - intros [= <-]. by eexists.
  - by intros [r [= <- _]].
  - discriminate.
  - by intros [r ?].
Qed.

(** The exchange of [pivot] on the two views: [y] becomes the base of the
    row of [x]. *)
Lemma basis_exchange (bv : list (bool * nat)) (rb : list nat) (x y rx ry : nat) :
  (forall v r, bv !! v = Some (true, r) -> rb !! r = Some v) ->
  (forall r v, rb !! r = Some v -> bv !! v = Some (true, r)) ->
  bv !! x = Some (true, rx) ->
  bv !! y = Some (false, ry) ->
  let bv' := alter (fun p => (false, snd p)) x
               (alter (fun p => (true, snd p)) y (alter (fun p => (fst p, rx)) y bv)) in
  let rb' := alter (fun _ => y) rx rb in
  (forall v r, bv' !! v = Some (true, r) -> rb' !! r = Some v) /\
  (forall r v, rb' !! r = Some v -> bv' !! v = Some (true, r)).
Proof.
  intros H1 H2 Hx Hy bv' rb'.
  assert (Hxy : x ≠ y) by congruence.
  assert (Hrx : rb !! rx = Some x) by by apply H1.
  assert (Hbx : bv' !! x = Some (false, rx)).
  { unfold bv'. rewrite list_lookup_alter_eq, !list_lookup_alter_ne, Hx by done. done. }
  assert (Hby : bv' !! y = Some (true, rx)).
  { unfold bv'. rewrite list_lookup_alter_ne, !list_lookup_alter_eq, Hy by done. done. }
  assert (Hbo : forall v, v ≠ x -> v ≠ y -> bv' !! v = bv !! v).
  { intros v ? ?. unfold bv'. by rewrite !list_lookup_alter_ne. }
  assert (Hrbx : rb' !! rx = Some y).
  { unfold rb'. by rewrite list_lookup_alter_eq, Hrx. }
  assert (Hrbo : forall r, r ≠ rx -> rb' !! r = rb !! r).
  { intros r ?. unfold rb'. by rewrite list_lookup_alter_ne. }
  split.
  - intros v r Hv. destruct (decide (v = x)) as [-> | Hvx]; [congruence |].
    destruct (decide (v = y)) as [-> | Hvy]; [congruence |].
    rewrite Hbo in Hv by done. pose proof (H1 _ _ Hv) as Hr.
    rewrite Hrbo; [done |]. intros ->. congruence.
  - intros r v Hr. destruct (decide (r = rx)) as [-> | Hne]; [congruence |].
    rewrite Hrbo in Hr by done. pose proof (H2 _ _ Hr) as Hv.
    rewrite Hbo; [done | |]; intros ->; congruence.
Qed.

Lemma pivot_basis (x y : nat) (b new_value : Z) (s s' : fixplex) :
  basis_inv s ->
  assertions_enabled E = true \/ (is_base s x = Ok true /\ is_base s y = Ok false) ->
  pivot E x y b new_value s = Ok s' ->
  basis_inv s'.
Proof.
  intros (Hlen & H1 & H2) Hpre. unfold pivot. intros Hrun.
  apply res_bind_Ok in Hrun as (u1 & Hax & Hrun).
  apply res_bind_Ok in Hrun as (u2 & Hay & Hrun).
  assert (Hbase : is_base s x = Ok true /\ is_base s y = Ok false).
  { destruct Hpre as [Hon | ?]; [| done].
    apply (SASSERT_Ok _ _ Hon) in Hax, Hay. rewrite is_base_set_stats in Hax, Hay.
    split; [done |]. destruct (is_base s y) as [[]|]; cbn in Hay; congruence. }
  clear Hax Hay. destruct Hbase as [Hbx Hby].
  apply is_base_Ok in Hbx as [rx Hbx]. apply is_base_Ok in Hby as [ry Hby].
  apply res_bind_Ok in Hrun as (xI & HxI & Hrun).
  apply res_bind_Ok in Hrun as (yI & HyI & Hrun).
  apply of_option_Ok in HxI. cbn in HxI.
  assert (Hrx : var_info.m_base2row xI = rx).
  { unfold basic_vars in Hbx. rewrite list_lookup_fmap, HxI in Hbx. by injection Hbx. }
  rewrite Hrx in Hrun.
  apply res_bind_Ok in Hrun as (row_x & _ & Hrun).
  apply res_bind_Ok in Hrun as (q & _ & Hrun).
  apply res_bind_Ok in Hrun as (u3 & _ & Hrun).
  apply res_bind_Ok in Hrun as (s1 & Hloop & Hrun).
  apply res_bind_Ok in Hrun as (u4 & _ & Hrun). injection Hrun as <-.
  eapply (foldlM_invariant basis_inv); [| | exact Hloop].
  { intros sa col sb _ Ha Hstep. apply pivot_row_basis in Hstep.
    by apply (basis_view_inv sa). }
  destruct (basis_exchange _ _ x y rx ry H1 H2 Hbx Hby) as [H1' H2'].
  unfold basis_inv, basic_vars, row_bases. proj_simpl.
  rewrite !length_alter.
  rewrite !(list_fmap_alter row_info.m_base _ id) by (by apply Forall_forall).
  rewrite (list_fmap_alter row_info.m_base (row_info.set_base y) (fun _ => y))
    by (by apply Forall_forall).
  rewrite !(list_alter_id id) by done.
  rewrite !(list_fmap_alter _ (var_info.set_value _) id) by (by apply Forall_forall).
  rewrite !(list_alter_id id) by done.
  rewrite (list_fmap_alter _ (var_info.set_is_base false) (fun p => (false, snd p)))
    by (by apply Forall_forall).
  rewrite !(list_fmap_alter _ (var_info.set_value _) id) by (by apply Forall_forall).
  rewrite !(list_alter_id id) by done.
  rewrite (list_fmap_alter _ (var_info.set_is_base true) (fun p => (true, snd p)))
    by (by apply Forall_forall).
  rewrite (list_fmap_alter _ (var_info.set_base2row rx) (fun p => (fst p, rx)))
    by (by apply Forall_forall).
  split; [done | split; [exact H1' | exact H2']].
Qed.
End basis.

Section add_row.
Context (E : Ext).
Local Abbreviation N := (ext_N E).

Lemma gauss_jordan_Ok (fuel : nat) (s s' : fixplex) :
  gauss_jordan fuel s = Some (Ok s') -> s' = s /\ m_base_vars s = [].
Proof.
  induction fuel as [|fuel IH]; cbn [gauss_jordan].
  - destruct (m_base_vars s); [by intros [= <-] | discriminate].
  - destruct (m_base_vars s) eqn:Hb; [by intros [= <-] |].
    destruct (_ ≫= _); [| discriminate]. intros H. apply IH in H as [_ H]. congruence.
Qed.

(** The elimination never ends when there is a basic variable to
    eliminate. *)
Lemma gauss_jordan_diverges (fuel : nat) (s : fixplex) (v : nat) (i : var_info.t) :
  last (m_base_vars s) = Some v -> m_vars s !! v = Some i ->
  gauss_jordan fuel s = None.
Proof.
  intros Hlast Hv. induction fuel as [|fuel IH]; cbn [gauss_jordan].
  - destruct (m_base_vars s); [discriminate | done].
  - destruct (m_base_vars s) eqn:Hb; [discriminate |].
    rewrite Hlast. unfold var_at. res_simpl. rewrite Hv. exact IH.
Qed.

Lemma add_row_fill_length (r : nat) (vars : list nat) (coeffs : list Z)
    (m m' : sparse_matrix) (l : list nat) :
  foldlM (add_row_fill r vars coeffs) m l = Ok m' -> length m' = length m.
Proof.
  apply (foldlM_invariant (fun m1 => length m1 = length m)); [| done].
  intros m1 i m2 _ Hlen. unfold add_row_fill. intros Hrun.
  apply res_bind_Ok in Hrun as (c & _ & Hrun).
  destruct (c =? 0); [by injection Hrun as <- |].
  apply res_bind_Ok in Hrun as (v & _ & Hrun). injection Hrun as <-.
  unfold add_var. by rewrite length_alter.
Qed.

Lemma add_row_scan_frame (base_var : nat) (es : list row_entry)
    (acc acc' : Z * Z * fixplex) :
  foldlM (add_row_scan E base_var) acc es = Ok acc' ->
  M (snd acc') = M (snd acc) /\ m_vars (snd acc') = m_vars (snd acc) /\
  m_rows (snd acc') = m_rows (snd acc).
Proof.
  apply (foldlM_invariant
           (fun a => M (snd a) = M (snd acc) /\ m_vars (snd a) = m_vars (snd acc) /\
                     m_rows (snd a) = m_rows (snd acc))); [| done].
  intros [[bc val] s1] e a2 _ Hinv. unfold add_row_scan.
  destruct (decide (fst e = base_var)); [by intros [= <-] |]. intros Hrun.
  apply res_bind_Ok in Hrun as (b & _ & Hrun).
  apply res_bind_Ok in Hrun as (x & _ & Hrun). injection Hrun as <-.
  by destruct b.
Qed.

(** The new row on the two views: it has [base_var] as its base. *)
Lemma basis_extend (bv : list (bool * nat)) (rb : list nat) (base_var r0 d : nat) :
  (forall v r, bv !! v = Some (true, r) -> rb !! r = Some v) ->
  (forall r v, rb !! r = Some v -> bv !! v = Some (true, r)) ->
  bv !! base_var = Some (false, r0) ->
  let r := length rb in
  let bv' := alter (fun p => (true, snd p)) base_var (alter (fun p => (fst p, r)) base_var bv) in
  let rb' := alter (fun _ => base_var) r (rb ++ replicate (S r - length rb) d) in
  (forall v r, bv' !! v = Some (true, r) -> rb' !! r = Some v) /\
  (forall r v, rb' !! r = Some v -> bv' !! v = Some (true, r)).
Proof.
  intros H1 H2 Hb r bv' rb'.
  assert (Hbb : bv' !! base_var = Some (true, r)).
  { unfold bv'. by rewrite !list_lookup_alter_eq, Hb. }
  assert (Hbo : forall v, v ≠ base_var -> bv' !! v = bv !! v).
  { intros v ?. unfold bv'. by rewrite !list_lookup_alter_ne. }
  assert (Hrep : (S r - length rb = 1)%nat) by (unfold r; lia).
  assert (Hrr : rb' !! r = Some base_var).
  { unfold rb'. rewrite list_lookup_alter_eq, lookup_app_r, Hrep by (unfold r; lia).
    replace (r - length rb)%nat with 0%nat by (unfold r; lia). done. }
  assert (Hro : forall r', r' ≠ r -> rb' !! r' = rb !! r').
  { intros r' Hne. unfold rb'. rewrite list_lookup_alter_ne, Hrep by done.
    destruct (decide (r' < r)%nat) as [Hlt | Hge].
    - by rewrite lookup_app_l.
    - rewrite lookup_app_r by (unfold r in *; lia).
      rewrite (lookup_ge_None_2 rb) by (unfold r in *; lia).
      apply lookup_ge_None_2. cbn. unfold r in *. lia. }
  split.
  - intros v r' Hv. destruct (decide (v = base_var)) as [-> | Hne]; [congruence |].
    rewrite Hbo in Hv by done. pose proof (H1 _ _ Hv) as Hr.
    rewrite Hro; [done |]. apply lookup_lt_Some in Hr. unfold r. lia.
  - intros r' v Hr. destruct (decide (r' = r)) as [-> | Hne]; [congruence |].
    rewrite Hro in Hr by done. pose proof (H2 _ _ Hr) as Hv.
    rewrite Hbo; [done |]. intros ->. congruence.
Qed.
Lemma add_row_basis (fuel base_var num_vars : nat) (vars : list nat) (coeffs : list Z)
    (s s' : fixplex) (r : nat) :
  basis_inv s ->
  assertions_enabled E = true \/ is_base s base_var = Ok false ->
  add_row E fuel base_var num_vars vars coeffs s = Some (Ok (r, s')) ->
  basis_inv s'.
Proof.
  intros (Hlen & H1 & H2) Hpre. unfold add_row, mk_row.
  destruct (_ ≫= _) as [s9|] eqn:Hchain; [| discriminate].
  intros Hend.
  assert (Hs9 : s' = s9 /\ r = length (M s)).
  { destruct (m_base_vars s9).
    - apply (f_equal (fun o => from_option id (Err assertion_violation) o)) in Hend.
      cbn [from_option id] in Hend.
      apply res_bind_Ok in Hend as (? & _ & Hend).
      apply res_bind_Ok in Hend as (? & _ & Hend). by injection Hend as <- <-.
    - destruct (gauss_jordan fuel s9) as [[s10|]|] eqn:Hgj; [| discriminate | discriminate].
      apply gauss_jordan_Ok in Hgj as [-> _].
      apply (f_equal (fun o => from_option id (Err assertion_violation) o)) in Hend.
      cbn [from_option id] in Hend.
      apply res_bind_Ok in Hend as (? & _ & Hend).
      apply res_bind_Ok in Hend as (? & _ & Hend). by injection Hend as <- <-. }
  destruct Hs9 as [-> ->]. clear Hend.
  apply res_bind_Ok in Hchain as (m & Hfill & Hchain).
  apply add_row_fill_length in Hfill. rewrite length_app in Hfill. cbn in Hfill.
  apply res_bind_Ok in Hchain as (es & _ & Hchain).
  apply res_bind_Ok in Hchain as ([[bc val] s2] & Hscan & Hchain).
  apply add_row_scan_frame in Hscan as (HM2 & Hv2 & Hr2). cbn in HM2, Hv2, Hr2.
  apply res_bind_Ok in Hchain as (? & _ & Hchain).
  apply res_bind_Ok in Hchain as (? & Hassert & Hchain).
  assert (Hbase : is_base s base_var = Ok false).
  { destruct Hpre as [Hon | ?]; [| done].
    apply (SASSERT_Ok _ _ _ Hon) in Hassert. unfold is_base in *. rewrite Hv2 in Hassert.
    destruct (of_option _) as [[]|]; cbn in Hassert; congruence. }
  apply is_base_Ok in Hbase as [r0 Hbase].
  apply res_bind_Ok in Hchain as (? & _ & Hchain).
  apply res_bind_Ok in Hchain as (q & _ & Hchain). injection Hchain as <-.
  assert (Hlenrb : length (row_bases s) = length (M s)).
  { unfold row_bases. by rewrite length_fmap. }
  destruct (basis_extend _ _ base_var r0 (row_info.m_base row_info.default) H1 H2 Hbase)
    as [H1' H2'].
  rewrite Hlenrb in H1', H2'.
  unfold basis_inv, basic_vars, row_bases, pad_rows. proj_simpl.
  rewrite HM2, Hv2, Hr2. proj_simpl.
  rewrite !length_alter, length_app, length_replicate, Hfill, Hlen.
  rewrite !(list_fmap_alter _ (var_info.set_value _) id) by (by apply Forall_forall).
  rewrite !(list_alter_id id) by done.
  rewrite (list_fmap_alter _ (var_info.set_is_base true) (fun p => (true, snd p)))
    by (by apply Forall_forall).
  rewrite (list_fmap_alter _ (var_info.set_base2row (length (M s))) (fun p => (fst p, length (M s))))
    by (by apply Forall_forall).
  rewrite (list_fmap_alter row_info.m_base _ (fun _ => base_var)) by (by apply Forall_forall).
  rewrite fmap_app, fmap_replicate.
  split; [lia | split; [exact H1' | exact H2']].
Qed.
End add_row.

Section make_feasible_basis.
Context (E : Ext).
Hypothesis assertions_on : assertions_enabled E = true.

Lemma select_pivot_core_state (x : nat) (delta new_value b : Z) (y : option nat)
    (s s' : fixplex) :
  select_pivot_core E x delta new_value s = Ok (y, b, s') ->
  exists g, s' = set_random g s.
Proof.
  unfold select_pivot_core. intros Hrun.
  apply res_bind_Ok in Hrun as (? & _ & Hrun).
  apply res_bind_Ok in Hrun as (? & _ & Hrun).
  apply res_bind_Ok in Hrun as (? & _ & Hrun).
  apply res_bind_Ok in Hrun as (? & _ & Hrun).
  apply res_bind_Ok in Hrun as (st & _ & Hrun).
  injection Hrun as _ _ <-. by eexists.
Qed.

Lemma make_var_feasible_basis (x : nat) (s s' : fixplex) (v : lbool) :
  basis_inv s -> make_var_feasible E x s = Ok (v, s') -> basis_inv s'.
Proof.
  intros Hinv. unfold make_var_feasible. intros Hrun.
  apply res_bind_Ok in Hrun as ([] & _ & Hrun); [by injection Hrun as _ <- |].
  apply res_bind_Ok in Hrun as (val & _ & Hrun).
  apply res_bind_Ok in Hrun as (l & _ & Hrun).
  apply res_bind_Ok in Hrun as (h & _ & Hrun).
  destruct (new_value_delta E val l h) as [new_value delta].
  apply res_bind_Ok in Hrun as ([[y b] s1] & Hsel & Hrun).
  apply select_pivot_core_state in Hsel as [g ->].
  assert (Hinv1 : basis_inv (set_random g s)) by (by apply (basis_view_inv s)).
  destruct y as [y|].
  - apply res_bind_Ok in Hrun as (s2 & Hpivot & Hrun). injection Hrun as _ <-.
    eapply pivot_basis; [exact Hinv1 | by left | exact Hpivot].
  - apply res_bind_Ok in Hrun as (inf & _ & Hrun). by injection Hrun as _ <-.
Qed.

Lemma make_feasible_body_basis (k nr : Z) (s : fixplex) :
  basis_inv s ->
  match make_feasible_body E k nr s with
  | Return (Ok (_, s')) => basis_inv s'
  | Return (Err _) => True
  | Continue _ s' => basis_inv s'
  end.
Proof.
  intros Hinv. unfold make_feasible_body.
  destruct (select_var_to_fix E s) as [[v|] patch].
  2:{ unfold SASSERT. rewrite assertions_on. res_simpl.
      destruct (well_formed E _); [by apply (basis_view_inv s) | done]. }
  destruct (limit_inc E _) as [ok lim].
  destruct (negb ok || _); [by apply (basis_view_inv s) |].
  destruct (check_blands_rule E v nr _) as [[nr' bland] lb].
  destruct (make_var_feasible E v _) as [[verdict s1]|] eqn:Hrun; [| done].
  apply make_var_feasible_basis in Hrun; [| by apply (basis_view_inv s)].
  destruct verdict; [by apply (basis_view_inv s1) .. | done].
Qed.

Lemma make_feasible_loop_basis (fuel : nat) :
  forall (k nr : Z) (s s' : fixplex) (v : lbool),
    basis_inv s -> make_feasible_loop E fuel k nr s = Some (Ok (v, s')) -> basis_inv s'.
Proof.
  induction fuel as [|fuel IH]; intros k nr s s' v Hinv; cbn [make_feasible_loop];
    pose proof (make_feasible_body_basis k nr s Hinv) as Hbody;
    destruct (make_feasible_body E k nr s) as [[[v1 s1]|]|nr1 s1]; try discriminate.
  - by intros [= _ <-].
  - by intros [= _ <-].
  - by apply IH.
Qed.

Lemma make_feasible_basis (fuel : nat) (s s' : fixplex) (v : lbool) :
  basis_inv s -> make_feasible E fuel s = Some (Ok (v, s')) -> basis_inv s'.
Proof.
  intros Hinv. unfold make_feasible. destruct (SASSERT E _); [| discriminate].
  apply make_feasible_loop_basis. by apply (basis_view_inv s).
Qed.
End make_feasible_basis.

Lemma basis_inv_owner (s : fixplex) :
  basis_inv s ->
  (forall v, is_base s v = Ok true <->
             exists r ri, m_rows s !! r = Some ri /\ row_info.m_base ri = v) /\
  (forall r1 r2 ri1 ri2,
     m_rows s !! r1 = Some ri1 -> m_rows s !! r2 = Some ri2 ->
     row_info.m_base ri1 = row_info.m_base ri2 -> r1 = r2).
Proof.
  intros (_ & H1 & H2). unfold row_bases in H1, H2. split.
  - intros v. rewrite is_base_Ok. split.
    + intros [r Hv]. apply H1 in Hv. rewrite list_lookup_fmap in Hv.
      destruct (m_rows s !! r) as [ri|] eqn:Hr; [| discriminate].
      exists r, ri. split; [done |]. by injection Hv.
    + intros (r & ri & Hr & <-). exists r. apply H2.
      by rewrite list_lookup_fmap, Hr.
  - intros r1 r2 ri1 ri2 Hr1 Hr2 Heq.
    assert (Hb1 : basic_vars s !! row_info.m_base ri1 = Some (true, r1)).
    { apply H2. by rewrite list_lookup_fmap, Hr1. }
    assert (Hb2 : basic_vars s !! row_info.m_base ri2 = Some (true, r2)).
    { apply H2. by rewrite list_lookup_fmap, Hr2. }
    congruence.
Qed.

(** C4, as far as the code keeps it: exactly the variables marked basic
    have an owning row, every row owns one basic variable, and two rows
    never own the same variable; [add_row], [update_value], [pivot] and
    [make_feasible] keep this so whenever they return: [update_value]
    always, [add_row] and [pivot] when what they assert of their arguments
    holds, [make_feasible] when the assertions of the pivots it performs are
    checked. *)
Theorem basis_invariant (E : Ext) (s : fixplex) :
  basis_inv s ->
  ((forall v, is_base s v = Ok true <->
              exists r ri, m_rows s !! r = Some ri /\ row_info.m_base ri = v) /\
   (forall r1 r2 ri1 ri2,
      m_rows s !! r1 = Some ri1 -> m_rows s !! r2 = Some ri2 ->
      row_info.m_base ri1 = row_info.m_base ri2 -> r1 = r2)) /\
  (forall fuel base_var num_vars vars coeffs r s',
     assertions_enabled E = true \/ is_base s base_var = Ok false ->
     add_row E fuel base_var num_vars vars coeffs s = Some (Ok (r, s')) -> basis_inv s') /\
  (forall v delta s', update_value E v delta s = Ok s' -> basis_inv s') /\
  (forall x y b new_value s',
     assertions_enabled E = true \/ (is_base s x = Ok true /\ is_base s y = Ok false) ->
     pivot E x y b new_value s = Ok s' -> basis_inv s') /\
  (forall fuel verdict s',
     assertions_enabled E = true ->
     make_feasible E fuel s = Some (Ok (verdict, s')) -> basis_inv s').
Proof.
  intros Hinv. split; [by apply basis_inv_owner |]. split; [| split; [| split]].
  - intros. by eapply add_row_basis.
  - intros v delta s' Hrun. apply update_value_basis in Hrun. by apply (basis_view_inv s).
  - intros. by eapply pivot_basis.
  - intros. by eapply make_feasible_basis.
Qed.

Lemma infeasible_example_basis : basis_inv infeasible_example.
Proof.
  split; [done |]. split.
  - intros [|[|v]] r; cbn; intros [=]. by subst.
  - intros [|r] v; cbn; [| by destruct r]. intros [= <-]. done.
Qed.

Lemma basis_invariant_witness :
  exists verdict s',
    make_feasible uint4_ext 200 infeasible_example = Some (Ok (verdict, s')) /\ basis_inv s'.
Proof.
  destruct (basis_invariant uint4_ext infeasible_example infeasible_example_basis)
    as (_ & _ & _ & _ & Hmf).
  destruct (make_feasible uint4_ext 200 infeasible_example) as [[[verdict s']|]|] eqn:Hrun;
    [| vm_compute in Hrun; discriminate | vm_compute in Hrun; discriminate].
  exists verdict, s'. split; [reflexivity |]. exact (Hmf 200%nat verdict s' eq_refl Hrun).
Defined.

(** ** Termination of the feasibility loop *)

Section termination.
Context (E : Ext).

Lemma make_feasible_body_continue (k nr nr' : Z) (s s' : fixplex) :
  make_feasible_body E k nr s = Continue nr' s' -> k <= m_max_iterations E.
Proof.
  unfold make_feasible_body.
  destruct (select_var_to_fix E s) as [[v|] patch]; [| discriminate].
  destruct (limit_inc E _) as [ok lim].
  destruct (Z.gtb_spec k (m_max_iterations E)) as [Hgt | Hle]; [| done].
  rewrite orb_true_r. discriminate.
Qed.

(** The loop ends once the iterations left and those counted pass the
    bound. *)
Lemma make_feasible_loop_terminates (fuel : nat) :
  forall (k nr : Z) (s : fixplex),
    m_max_iterations E < UINT_MAX ->
    0 <= k ->
    m_max_iterations E + 1 <= k + Z.of_nat fuel ->
    exists out, make_feasible_loop E fuel k nr s = Some out.
Proof.
  induction fuel as [|fuel IH]; intros k nr s Hmax Hk Hfuel; cbn [make_feasible_loop];
    destruct (make_feasible_body E k nr s) as [r | nr' s'] eqn:Hbody; try by eexists.
  - apply make_feasible_body_continue in Hbody. lia.
  - apply make_feasible_body_continue in Hbody.
    assert (Hincr : incr k = k + 1).
    { unfold incr. apply Z.mod_small. unfold UINT_MAX in Hmax. lia. }
    rewrite Hincr. apply IH; [done | lia | lia].
Qed.

(** More fuel does not change how a run ends. *)
Lemma make_feasible_loop_mono (fuel : nat) :
  forall (fuel' : nat) (k nr : Z) (s : fixplex) (out : res (lbool * fixplex)),
    (fuel <= fuel')%nat ->
    make_feasible_loop E fuel k nr s = Some out ->
    make_feasible_loop E fuel' k nr s = Some out.
Proof.
  induction fuel as [|fuel IH]; intros fuel' k nr s out Hle; cbn [make_feasible_loop].
  - destruct fuel'; cbn [make_feasible_loop];
      by destruct (make_feasible_body E k nr s).
  - destruct fuel' as [|fuel']; [lia |]. cbn [make_feasible_loop].
    destruct (make_feasible_body E k nr s); [done |]. apply IH. lia.
Qed.

(** An iteration in which the limit fires or the budget is exceeded ends
    the loop with [l_undef]; it changes the To-Patch set and the limit
    only. *)
Lemma make_feasible_loop_abort (fuel : nat) (k nr : Z) (s : fixplex)
    (v : nat) (patch : list nat) (ok : bool) (lim : Z) :
  select_var_to_fix E s = (Some v, patch) ->
  limit_inc E (m_limit s) = (ok, lim) ->
  ok = false \/ m_max_iterations E < k ->
  make_feasible_loop E fuel k nr s
  = Some (Ok (l_undef, set_limit lim (set_to_patch patch s))).
Proof.
  intros Hsel Hlim Habort.
  assert (Hbody : make_feasible_body E k nr s
                  = Return (Ok (l_undef, set_limit lim (set_to_patch patch s)))).
  { unfold make_feasible_body. rewrite Hsel. cbn [m_limit set_to_patch]. rewrite Hlim.
    destruct Habort as [-> | Hgt]; [done |].
    rewrite (proj2 (Z.gtb_gt _ _)) by lia. by rewrite orb_true_r. }
  destruct fuel; cbn [make_feasible_loop]; by rewrite Hbody.
Qed.
End termination.

(** C3: with an iteration bound below [UINT_MAX], [make_feasible] ends on
    every tableau after at most the bound plus one iterations that go on,
    with a verdict or at a failed check of one of its steps; an iteration
    in which the limit fires or the count of iterations exceeds the bound
    returns [l_undef] at once, leaving the matrix, the variables and the
    rows as the last completed iteration left them, and the To-Patch set as
    [select_var_to_fix] left it: the variable it selected is not put
    back. *)
Theorem make_feasible_terminates (E : Ext) :
  m_max_iterations E < UINT_MAX ->
  (forall s fuel,
     (Z.to_nat (m_max_iterations E + 1) <= fuel)%nat ->
     exists out,
       make_feasible E fuel s = Some out /\
       make_feasible E (Z.to_nat (m_max_iterations E + 1)) s = Some out) /\
  (forall fuel k nr s v patch ok lim,
     select_var_to_fix E s = (Some v, patch) ->
     limit_inc E (m_limit s) = (ok, lim) ->
     ok = false \/ m_max_iterations E < k ->
     exists s',
       make_feasible_loop E fuel k nr s = Some (Ok (l_undef, s')) /\
       M s' = M s /\ m_vars s' = m_vars s /\ m_rows s' = m_rows s /\
       m_to_patch s' = patch).
Proof.
  intros Hmax. split.
  - intros s fuel Hfuel. unfold make_feasible.
    destruct (SASSERT E _) as [u|e]; [| by exists (Err e)].
    match goal with
    | |- context [make_feasible_loop E _ 0 0 ?s0] =>
        destruct (make_feasible_loop_terminates E (Z.to_nat (m_max_iterations E + 1))
                    0 0 s0 Hmax) as [out Hout]; [lia | lia |]
    end.
    exists out. split; [| exact Hout].
    eapply make_feasible_loop_mono; [exact Hfuel | exact Hout].
  - intros fuel k nr s v patch ok lim Hsel Hlim Habort.
    eexists. split; [by eapply make_feasible_loop_abort |]. done.
Qed.

Lemma make_feasible_terminates_witness :
  exists out, make_feasible uint4_ext 101 infeasible_example = Some out.
Proof.
  destruct (make_feasible_terminates uint4_ext) as [Hend _]; [by vm_compute |].
  destruct (Hend infeasible_example 101%nat) as (out & Hout & _); [by vm_compute |].
  by exists out.
Defined.

(** An iteration that repairs its variable goes on with the state
    [make_var_feasible] returns. *)
Lemma make_feasible_body_pivots (E : Ext) (k nr : Z) (s : fixplex) (v : nat)
    (patch : list nat) (lim : Z) :
  select_var_to_fix E s = (Some v, patch) ->
  limit_inc E (m_limit s) = (true, lim) ->
  k <= m_max_iterations E ->
  forall s1 : bool -> list nat -> fixplex,
    (forall bland lb,
       make_var_feasible E v
         (set_left_basis lb (set_bland bland (set_limit lim (set_to_patch patch s))))
       = Ok (l_true, s1 bland lb)) ->
    exists nr' bland lb, make_feasible_body E k nr s = Continue nr' (s1 bland lb).
Proof.
  intros Hsel Hlim Hk s1 Hrun. unfold make_feasible_body. rewrite Hsel.
  cbn [m_limit set_to_patch]. rewrite Hlim.
  destruct (Z.gtb_spec k (m_max_iterations E)) as [Hgt | _]; [lia |]. cbn [negb orb].
  destruct (check_blands_rule E v nr _) as [[nr' bland] lb].
  rewrite Hrun. by exists nr', bland, lb.
Qed.

Lemma cycling_step (k nr : Z) (s : fixplex) :
  k <= UINT_MAX -> cycling s ->
  exists nr' s',
    make_feasible_body uint4_unbounded_ext k nr s = Continue nr' s' /\ cycling s'.
Proof.
  intros Hk Hc. destruct s as [m vars rows tp bv lb iv bl st rnd lim].
  unfold cycling, tableau_view in Hc. cbn [M m_vars m_rows m_to_patch] in Hc.
  destruct Hc as [[[= -> -> ->] ->] | [[= -> -> ->] ->]].
  - match goal with
    | |- context [make_feasible_body _ _ _ ?s] =>
        edestruct (make_feasible_body_pivots uint4_unbounded_ext k nr s 0%nat [] (lim + 1))
          as (nr' & bland & lb' & Hbody); [reflexivity | reflexivity | exact Hk | |]
    end.
    + intros bland lb'. lazy -[incr]. reflexivity.
    + cbv beta in Hbody. eexists _, _. split; [exact Hbody |]. right. split; reflexivity.
  - match goal with
    | |- context [make_feasible_body _ _ _ ?s] =>
        edestruct (make_feasible_body_pivots uint4_unbounded_ext k nr s 1%nat [] (lim + 1))
          as (nr' & bland & lb' & Hbody); [reflexivity | reflexivity | exact Hk | |]
    end.
    + intros bland lb'. lazy -[incr]. reflexivity.
    + cbv beta in Hbody. eexists _, _. split; [exact Hbody |]. left. split; reflexivity.
Qed.

Lemma cycling_loop (fuel : nat) :
  forall k nr s, 0 <= k <= UINT_MAX -> cycling s ->
    make_feasible_loop uint4_unbounded_ext fuel k nr s = None.
Proof.
  induction fuel as [|fuel IH]; intros k nr s Hk Hc; cbn [make_feasible_loop];
    destruct (cycling_step k nr s (proj2 Hk) Hc) as (nr' & s' & -> & Hc'); [done |].
  apply IH; [| done]. unfold incr, UINT_MAX.
  pose proof (Z.mod_pos_bound (k + 1) (2 ^ 32) ltac:(lia)). lia.
Qed.

(** With the bound at [UINT_MAX], which the 32-bit count of iterations
    never exceeds, and a limit that does not fire, the loop need not end.
    On [infeasible_example], whose row has no solution within the bounds
    and for which [is_infeasible_row] answers true, every iteration finds a
    pivot: [x] and [y] are exchanged for ever, whatever [check_blands_rule]
    records, since [select_pivot_core] does not read [m_bland].  With the
    bound at 100 the same run returns [l_undef]. *)
Lemma unbounded_cycle :
  is_infeasible_row uint4_unbounded_ext 0 infeasible_example = Ok true /\
  (forall fuel, make_feasible uint4_unbounded_ext fuel infeasible_example = None) /\
  exists s', make_feasible uint4_ext 200 infeasible_example = Some (Ok (l_undef, s')).
Proof.
  split; [reflexivity |]. split.
  - intros fuel. unfold make_feasible. cbn [SASSERT].
    apply cycling_loop; [unfold UINT_MAX; lia |]. left. split; reflexivity.
  - eexists. vm_compute. reflexivity.
Qed.

(** Where C3 fails: the exit of the loop on a limit that fires or a budget
    that is exceeded does not put the selected variable back in the
    To-Patch set, as the two other exits with [l_false] and [l_undef] do.
    On [stuck_example], whose [x] is out of its bounds and for which
    [make_feasible] answers [l_false], a [make_feasible] whose limit fires
    returns [l_undef] with the tableau as it was and an empty To-Patch set,
    and the next [make_feasible], whose limit does not fire, returns
    [l_true] with [x] out of its bounds.  On [two_rows_example] with a
    budget of 0 the first iteration repairs [x], the second finds the
    budget exceeded and returns [l_undef] having dropped [z], and the next
    [make_feasible] returns [l_true] with [z] out of its bounds. *)
Lemma abort_drops_variable :
  (m_to_patch stuck_example = [0%nat] /\
   in_bounds_var stuck_example 0 = Ok false /\
   (exists s0, make_feasible uint4_ext 200 stuck_example = Some (Ok (l_false, s0))) /\
   exists s1 s2,
     make_feasible uint4_cancel_ext 200 stuck_example = Some (Ok (l_undef, s1)) /\
     tableau_view s1 = tableau_view stuck_example /\
     m_to_patch s1 = [] /\
     make_feasible uint4_cancel_ext 200 s1 = Some (Ok (l_true, s2)) /\
     tableau_view s2 = tableau_view stuck_example /\
     in_bounds_var s2 0 = Ok false) /\
  (m_to_patch two_rows_example = [0%nat; 2%nat] /\
   in_bounds_var two_rows_example 2 = Ok false /\
   exists s1 s2,
     make_feasible uint4_budget_ext 200 two_rows_example = Some (Ok (l_undef, s1)) /\
     in_bounds_var s1 0 = Ok true /\
     in_bounds_var s1 2 = Ok false /\
     m_to_patch s1 = [] /\
     make_feasible uint4_budget_ext 200 s1 = Some (Ok (l_true, s2)) /\
     tableau_view s2 = tableau_view s1 /\
     in_bounds_var s2 2 = Ok false).
Proof.
  split.
  - split; [reflexivity |]. split; [reflexivity |].
    split; [eexists; vm_compute; reflexivity |].
    eexists _, _. split; [vm_compute; reflexivity |].
    split; [reflexivity |]. split; [reflexivity |].
    split; [vm_compute; reflexivity |]. split; reflexivity.
  - split; [reflexivity |]. split; [reflexivity |].
    eexists _, _. split; [vm_compute; reflexivity |].
    split; [reflexivity |]. split; [reflexivity |]. split; [reflexivity |].
    split; [vm_compute; reflexivity |]. split; reflexivity.
Qed.

(** ** Contract violations *)


Section contracts.
Context (E : Ext).
Local Abbreviation N := (ext_N E).

(** What the filling loop keeps true of the new row [r]: its entries have
    non-zero coefficients and come from the arrays. *)
Lemma add_row_fill_entries (r num_vars : nat) (vars : list nat) (coeffs : list Z)
    (m m' : sparse_matrix) :
  m !! r = Some [] ->
  foldlM (add_row_fill r vars coeffs) m (seq 0 num_vars) = Ok m' ->
  exists es, m' !! r = Some es /\
    forall e, e ∈ es ->
      snd e ≠ 0 /\
      exists i, (i < num_vars)%nat /\ vars !! i = Some (fst e) /\ coeffs !! i = Some (snd e).
Proof.
  intros Hr. apply (foldlM_invariant (fun m1 => exists es, m1 !! r = Some es /\
    forall e, e ∈ es ->
      snd e ≠ 0 /\
      exists i, (i < num_vars)%nat /\ vars !! i = Some (fst e) /\ coeffs !! i = Some (snd e))).
  - intros m1 i m2 Hi (es & Hes & Hall). unfold add_row_fill. intros Hrun.
    apply elem_of_seq in Hi.
    apply res_bind_Ok in Hrun as (c & Hc & Hrun). apply of_option_Ok in Hc.
    destruct (Z.eqb_spec c 0) as [|Hne]; [injection Hrun as <-; by exists es |].
    apply res_bind_Ok in Hrun as (v & Hv & Hrun). apply of_option_Ok in Hv.
    injection Hrun as <-. exists (es ++ [(v, c)]). split.
    + unfold add_var. by rewrite list_lookup_alter_eq, Hes.
    + intros e [He | He]%elem_of_app; [by apply Hall |].
      apply list_elem_of_singleton in He as ->. split; [done |]. exists i. cbn. split; [lia | done].
  - exists []. split; [done |]. intros e He. by apply elem_of_nil in He.
Qed.


Lemma ndiv_Ok (a b q : Z) : ndiv a b = Ok q -> b ≠ 0.
Proof. unfold ndiv. by destruct (Z.eqb_spec b 0). Qed.







End contracts.




(** ** Columns *)

Lemma col_entries_snoc (v : nat) (m : sparse_matrix) (es : list row_entry) :
  col_entries v (m ++ [es])
  = col_entries v m ++ ((fun c => (length m, c)) <$> coeffs_of v es).
Proof.
  unfold col_entries. rewrite imap_app, join_app. cbn [imap mjoin list_join].
  rewrite app_nil_r. by rewrite Nat.add_0_r.
Qed.

Lemma elem_of_coeffs_of (v : nat) (c : Z) (es : list row_entry) :
  c ∈ coeffs_of v es <-> (v, c) ∈ es.
Proof.
  unfold coeffs_of. rewrite list_elem_of_fmap. split.
  - intros ([u c'] & -> & [Hu He]%list_elem_of_filter). cbn in Hu. by subst.
  - intros He. exists (v, c). split; [done |]. by apply list_elem_of_filter.
Qed.

(** The column of [v] holds [(r, c)] exactly when row [r] holds [v] with
    coefficient [c]. *)
Lemma elem_of_col_entries (v r : nat) (c : Z) (m : sparse_matrix) :
  (r, c) ∈ col_entries v m <-> exists es, m !! r = Some es /\ (v, c) ∈ es.
Proof.
  induction m as [|es m IH] using rev_ind.
  - split; [by intros ?%elem_of_nil | by intros (? & ? & _)].
  - rewrite col_entries_snoc, elem_of_app, IH, list_elem_of_fmap. split.
    + intros [(es' & Hes' & He) | (c' & [= -> ->] & Hc)].
      * exists es'. split; [by apply lookup_app_l_Some | done].
      * exists es. split; [by rewrite list_lookup_middle |]. by apply elem_of_coeffs_of.
    + intros (es' & Hes' & He). apply lookup_app_Some in Hes' as [Hes' | [Hlen Hes']].
      * left. by exists es'.
      * right. apply list_lookup_singleton_Some in Hes' as [Hr ->].
        exists c. split; [f_equal; lia | by apply elem_of_coeffs_of].
Qed.

Lemma coeffs_of_NoDup (v : nat) (es : list row_entry) :
  NoDup (fst <$> es) -> (length (coeffs_of v es) <= 1)%nat.
Proof.
  unfold coeffs_of. rewrite length_fmap.
  induction es as [|e es IH]; [cbn; lia |].
  rewrite fmap_cons, NoDup_cons. intros [Hnotin Hnd].
  rewrite filter_cons. destruct (decide (fst e = v)) as [<- | Hne]; [| by apply IH].
  assert (Hnil : filter (fun e' : row_entry => fst e' = fst e) es = []).
  { destruct (filter _ es) as [|e' l] eqn:Hf; [done |].
    assert (He' : e' ∈ filter (fun e' : row_entry => fst e' = fst e) es) by (rewrite Hf; by left).
    apply list_elem_of_filter in He' as [Heq He']. destruct Hnotin.
    rewrite <- Heq. by apply list_elem_of_fmap_2. }
  rewrite Hnil. cbn. lia.
Qed.

Lemma col_entries_lt (v r : nat) (m : sparse_matrix) :
  r ∈ fst <$> col_entries v m -> (r < length m)%nat.
Proof.
  intros ([r' c] & -> & (es & Hes & _)%elem_of_col_entries)%list_elem_of_fmap.
  by apply lookup_lt_Some in Hes.
Qed.

(** A column visits a row once when rows hold a variable once. *)
Lemma col_entries_NoDup (v : nat) (m : sparse_matrix) :
  (forall r es, m !! r = Some es -> NoDup (fst <$> es)) ->
  NoDup (fst <$> col_entries v m).
Proof.
  induction m as [|es m IH] using rev_ind; intros Hrows; [constructor |].
  rewrite col_entries_snoc, fmap_app. apply NoDup_app. split; [| split].
  - apply IH. intros r es' Hes'. apply (Hrows r). by apply lookup_app_l_Some.
  - intros r Hr Hr'. apply col_entries_lt in Hr.
    apply list_elem_of_fmap in Hr' as ([r' c] & -> & (c' & [= -> _] & _)%list_elem_of_fmap).
    cbn in Hr. lia.
  - pose proof (coeffs_of_NoDup v es (Hrows (length m) es (list_lookup_middle _ _ _ _ eq_refl)))
      as Hlen.
    destruct (coeffs_of v es) as [|c [|c' l]]; cbn in *; [constructor | | lia].
    apply NoDup_singleton.
Qed.

(** ** Loops over a column

    [update_value] and the cascade of [pivot] run over the column of a
    variable and change, for each row [r] they do not skip, the entries of
    [r], its record and the value of its base variable.  When the column
    visits each row once and rows have different bases, the loop leaves for
    every row what its own step computed from the state before the loop. *)

Section row_loop.
Variable step : fixplex -> nat * Z -> res fixplex.
Variable skipped : nat -> bool.
Variable FM : Z -> list row_entry -> list row_entry.
Variable FR : Z -> row_info.t -> row_info.t.
Variable FV : Z -> row_info.t -> Z.
Variable Inv : fixplex -> Prop.

Hypothesis FR_base : forall c ri, row_info.m_base (FR c ri) = row_info.m_base ri.
Hypothesis step_Inv : forall s col s', Inv s -> step s col = Ok s' -> Inv s'.
Hypothesis step_skip : forall s col s',
  skipped (fst col) = true -> step s col = Ok s' ->
  M s' = M s /\ m_rows s' = m_rows s /\ m_vars s' = m_vars s.
Hypothesis step_effect : forall s col s',
  Inv s -> skipped (fst col) = false -> step s col = Ok s' ->
  exists ri,
    m_rows s !! fst col = Some ri /\ is_Some (m_vars s !! row_info.m_base ri) /\
    M s' = alter (FM (snd col)) (fst col) (M s) /\
    m_rows s' = alter (FR (snd col)) (fst col) (m_rows s) /\
    m_vars s' = alter (var_info.set_value (FV (snd col) ri)) (row_info.m_base ri) (m_vars s).

Lemma row_loop_effect (l : list (nat * Z)) :
  forall s s',
    NoDup (fst <$> l) ->
    Inv s ->
    (forall r1 r2 ri1 ri2,
       m_rows s !! r1 = Some ri1 -> m_rows s !! r2 = Some ri2 ->
       row_info.m_base ri1 = row_info.m_base ri2 -> r1 = r2) ->
    foldlM step s l = Ok s' ->
    (forall r, r ∉ fst <$> l \/ skipped r = true ->
       M s' !! r = M s !! r /\ m_rows s' !! r = m_rows s !! r) /\
    (forall v,
       (forall col ri, col ∈ l -> skipped (fst col) = false ->
          m_rows s !! fst col = Some ri -> row_info.m_base ri ≠ v) ->
       m_vars s' !! v = m_vars s !! v) /\
    (forall col, col ∈ l -> skipped (fst col) = false ->
       exists ri,
         m_rows s !! fst col = Some ri /\
         M s' !! fst col = FM (snd col) <$> M s !! fst col /\
         m_rows s' !! fst col = Some (FR (snd col) ri) /\
         var_info.m_value <$> m_vars s' !! row_info.m_base ri = Some (FV (snd col) ri)).
Proof.
  induction l as [|col l IH]; intros s s' Hnd Hinv Hdist Hrun.
  { injection Hrun as <-. split; [done | split; [done |]].
    intros col Hcol. by apply elem_of_nil in Hcol. }
  cbn [foldlM] in Hrun. apply res_bind_Ok in Hrun as (s2 & Hstep & Hrun).
  rewrite fmap_cons, NoDup_cons in Hnd. destruct Hnd as [Hnotin Hnd].
  assert (Hinv2 : Inv s2) by (by eapply step_Inv).
  assert (Hne : forall col', col' ∈ l -> fst col' ≠ fst col).
  { intros col' Hcol' Heq. apply Hnotin. rewrite <- Heq. by apply list_elem_of_fmap_2. }
  destruct (skipped (fst col)) eqn:Hskip.
  - destruct (step_skip _ _ _ Hskip Hstep) as (HM & HR & HV).
    destruct (IH s2 s' Hnd Hinv2) as (IHF & IHV & IHE); [by rewrite HR | done |].
    rewrite HM, HR, HV in *. split; [| split].
    + intros r [Hr | Hr]; apply IHF; [left | by right].
      intros Hr'. apply Hr. by right.
    + intros v Hv. apply IHV. intros col' ri Hcol'. apply Hv. by right.
    + intros col' [-> | Hcol']%elem_of_cons Hs; [congruence | by apply IHE].
  - destruct (step_effect _ _ _ Hinv Hskip Hstep) as (ri & Hri & [vi Hvi] & HM & HR & HV).
    assert (HR2 : forall r, r ≠ fst col -> m_rows s2 !! r = m_rows s !! r).
    { intros r Hr. by rewrite HR, list_lookup_alter_ne. }
    assert (HM2 : forall r, r ≠ fst col -> M s2 !! r = M s !! r).
    { intros r Hr. by rewrite HM, list_lookup_alter_ne. }
    assert (HRc : m_rows s2 !! fst col = Some (FR (snd col) ri)).
    { by rewrite HR, list_lookup_alter_eq, Hri. }
    assert (Hdist2 : forall r1 r2 ri1 ri2,
               m_rows s2 !! r1 = Some ri1 -> m_rows s2 !! r2 = Some ri2 ->
               row_info.m_base ri1 = row_info.m_base ri2 -> r1 = r2).
    { intros r1 r2 ri1 ri2 H1 H2 Hb.
      destruct (decide (r1 = fst col)) as [-> | Hn1];
        destruct (decide (r2 = fst col)) as [-> | Hn2]; [done | | |].
      - rewrite HRc in H1. injection H1 as <-. rewrite HR2 in H2 by done.
        rewrite FR_base in Hb. by eapply Hdist.
      - rewrite HRc in H2. injection H2 as <-. rewrite HR2 in H1 by done.
        rewrite FR_base in Hb. by eapply Hdist.
      - rewrite HR2 in H1, H2 by done. by eapply Hdist. }
    destruct (IH s2 s' Hnd Hinv2 Hdist2 Hrun) as (IHF & IHV & IHE).
    split; [| split].
    + intros r Hr.
      assert (Hrc : r ≠ fst col).
      { destruct Hr as [Hr | Hr]; [| congruence]. intros ->. apply Hr. by left. }
      rewrite <- HM2, <- HR2 by done. apply IHF.
      destruct Hr as [Hr | Hr]; [left | by right]. intros Hr'. apply Hr. by right.
    + intros v Hv. rewrite IHV.
      * rewrite HV. apply list_lookup_alter_ne. eapply Hv; [by left | done | done].
      * intros col' ri' Hcol' Hs' Hri'. rewrite HR2 in Hri' by (by apply Hne).
        eapply Hv; [by right | done | done].
    + intros col' [-> | Hcol']%elem_of_cons Hs'.
      * exists ri. split; [done |].
        destruct (IHF (fst col)) as [-> ->]; [by left |].
        split; [by rewrite HM, list_lookup_alter_eq |]. split; [done |].
        rewrite IHV.
        -- by rewrite HV, list_lookup_alter_eq, Hvi.
        -- intros col' ri' Hcol' _ Hri' Hb. apply (Hne col' Hcol').
           eapply Hdist2; [exact Hri' | exact HRc | by rewrite FR_base].
      * destruct (IHE col' Hcol' Hs') as (ri' & Hri' & HMe & HRe & HVe).
        rewrite HR2 in Hri' by (by apply Hne). rewrite HM2 in HMe by (by apply Hne).
        by exists ri'.
Qed.
End row_loop.

(** ** The row invariant under [update_value] *)

Lemma sumZ_update (f f' : row_entry -> Z) (v : nat) (es : list row_entry) :
  NoDup (fst <$> es) ->
  (forall e, e ∈ es -> fst e ≠ v -> f' e = f e) ->
  (forall c, (v, c) ∈ es -> sumZ (f' <$> es) = sumZ (f <$> es) + f' (v, c) - f (v, c)) /\
  (v ∉ fst <$> es -> sumZ (f' <$> es) = sumZ (f <$> es)).
Proof.
  induction es as [|e es IH]; intros Hnd Hsame.
  { split; [intros c Hc; by apply elem_of_nil in Hc | done]. }
  rewrite fmap_cons, NoDup_cons in Hnd. destruct Hnd as [Hnotin Hnd].
  destruct (IH Hnd) as [IHin IHout]; [intros e' He'; apply Hsame; by right |].
  rewrite !fmap_cons, !sumZ_cons. split.
  - intros c [<- | Hc]%elem_of_cons.
    + rewrite IHout; [lia |]. exact Hnotin.
    + rewrite (IHin c Hc), (Hsame e); [lia | by left |].
      intros Heq. apply Hnotin. rewrite Heq. by apply (list_elem_of_fmap_2 fst _ (v, c)).
  - intros Hv. rewrite IHout, (Hsame e); [done | by left | |].
    + intros Heq. apply Hv. rewrite <- Heq. by left.
    + intros Hv'. apply Hv. by right.
Qed.

Lemma row_bases_lookup (s : fixplex) (r : nat) (ri : row_info.t) :
  m_rows s !! r = Some ri -> row_bases s !! r = Some (row_info.m_base ri).
Proof. intros H. unfold row_bases. by rewrite list_lookup_fmap, H. Qed.

Lemma val_of_lookup (s s' : fixplex) (v : nat) :
  m_vars s' !! v = m_vars s !! v -> val_of s' v = val_of s v.
Proof. unfold val_of. by intros ->. Qed.

Section update_value_rows.
Context (E : Ext).
Local Abbreviation N := (ext_N E).

Lemma update_value_row_effect (delta : Z) (s s' : fixplex) (col : nat * Z) :
  update_value_row E delta s col = Ok s' ->
  exists ri,
    m_rows s !! fst col = Some ri /\ is_Some (m_vars s !! row_info.m_base ri) /\
    M s' = alter (fun es => es) (fst col) (M s) /\
    m_rows s' = alter (fun ri => row_info.set_value
                         (nadd N (row_info.m_value ri) (nmul N delta (snd col))) ri)
                  (fst col) (m_rows s) /\
    m_vars s' = alter (var_info.set_value
                         (nsub N 0 (nadd N (row_info.m_value ri) (nmul N delta (snd col))
                                    / row_info.m_base_coeff ri)))
                  (row_info.m_base ri) (m_vars s).
Proof.
  unfold update_value_row. intros Hrun.
  apply res_bind_Ok in Hrun as (ri & Hri & Hrun). apply of_option_Ok in Hri.
  apply res_bind_Ok in Hrun as (q & Hq & Hrun).
  apply res_bind_Ok in Hrun as (vi & Hvi & Hrun). apply of_option_Ok in Hvi.
  injection Hrun as <-. exists ri. split; [done |]. split; [by exists vi |].
  proj_simpl. split; [by rewrite list_alter_id | split].
  - apply list_alter_ext; [| done]. intros ri' Hri'. congruence.
  - unfold ndiv in Hq. destruct (_ =? 0); [discriminate |]. by injection Hq as <-.
Qed.
Lemma update_value_loop_effect (delta : Z) (l : list (nat * Z)) (s s' : fixplex) :
  NoDup (fst <$> l) ->
  (forall r1 r2 ri1 ri2,
     m_rows s !! r1 = Some ri1 -> m_rows s !! r2 = Some ri2 ->
     row_info.m_base ri1 = row_info.m_base ri2 -> r1 = r2) ->
  foldlM (update_value_row E delta) s l = Ok s' ->
  M s' = M s /\
  (forall r, r ∉ fst <$> l -> m_rows s' !! r = m_rows s !! r) /\
  (forall u,
     (forall col ri, col ∈ l -> m_rows s !! fst col = Some ri -> row_info.m_base ri ≠ u) ->
     m_vars s' !! u = m_vars s !! u) /\
  (forall col, col ∈ l ->
     exists ri,
       m_rows s !! fst col = Some ri /\
       m_rows s' !! fst col
       = Some (row_info.set_value
                 (nadd N (row_info.m_value ri) (nmul N delta (snd col))) ri) /\
       val_of s' (row_info.m_base ri)
       = nsub N 0 (nadd N (row_info.m_value ri) (nmul N delta (snd col))
                   / row_info.m_base_coeff ri)).
Proof.
  intros Hnd Hdist Hrun.
  assert (HM : M s' = M s).
  { eapply (foldlM_invariant (fun s1 => M s1 = M s)); [| done | exact Hrun].
    intros s1 col s2 _ H1 H2. apply update_value_row_effect in H2 as (_ & _ & _ & H2 & _).
    by rewrite H2, list_alter_id. }
  destruct (row_loop_effect (update_value_row E delta) (fun _ => false) (fun _ es => es)
              (fun c ri => row_info.set_value
                             (nadd N (row_info.m_value ri) (nmul N delta c)) ri)
              (fun c ri => nsub N 0 (nadd N (row_info.m_value ri) (nmul N delta c)
                                     / row_info.m_base_coeff ri))
              (fun _ => True)) with (l := l) (s := s) (s' := s')
    as (HF & HV & HE); try done.
  { intros s1 col s2 _ _ H. by apply update_value_row_effect in H. }
  split; [done |]. split; [| split].
  - intros r Hr. apply HF. by left.
  - intros u Hu. apply HV. intros col ri Hcol _. by apply Hu.
  - intros col Hcol. destruct (HE col Hcol eq_refl) as (ri & Hri & _ & HR & HVv).
    exists ri. split; [done |]. split; [done |].
    unfold val_of. by rewrite HVv.
Qed.

Lemma update_value_row_inv (v : nat) (delta : Z) (s s' : fixplex) :
  0 <= N ->
  tableau_wf s -> row_inv N s -> is_base s v = Ok false ->
  update_value E v delta s = Ok s' ->
  row_inv N s'.
Proof.
  intros HN (Hbasis & Hnd & Hown & _) Hinv Hbase. unfold update_value.
  destruct (delta =? 0); [by intros [= <-] |]. intros Hrun.
  apply res_bind_Ok in Hrun as (vi & Hvi & Hrun). apply of_option_Ok in Hvi.
  apply res_bind_Ok in Hrun as (? & _ & Hrun).
  revert Hrun. proj_simpl. intros Hrun.
  destruct (basis_inv_owner s Hbasis) as [Howner Hdist].
  destruct Hbasis as (Hlen & Hb1 & Hb2).
  apply is_base_Ok in Hbase as [r0 Hbase].
  set (s1 := set_var v (var_info.set_value (nadd N (var_info.m_value vi) delta)) s) in *.
  apply update_value_loop_effect in Hrun as (HM & HF & HV & HE);
    [| by apply col_entries_NoDup | exact Hdist].
  change (M s1) with (M s) in HM. change (m_rows s1) with (m_rows s) in HF, HV, HE.
  (* no row has [v] as its base *)
  assert (Hvbase : forall r ri, m_rows s !! r = Some ri -> row_info.m_base ri ≠ v).
  { intros r ri Hri Heq.
    apply row_bases_lookup, Hb2 in Hri. congruence. }
  assert (Hvval : val_of s' v = nadd N (var_info.m_value vi) delta).
  { unfold val_of. rewrite HV.
    - unfold s1. proj_simpl. by rewrite list_lookup_alter_eq, Hvi.
    - intros col ri _ Hri. by eapply Hvbase. }
  intros r ri' es Hri' Hes. rewrite HM in Hes.
  assert (Hri : exists ri, m_rows s !! r = Some ri).
  { apply lookup_lt_is_Some. rewrite Hlen. by apply lookup_lt_Some in Hes. }
  destruct Hri as [ri Hri]. destruct (Hinv r ri es Hri Hes) as [Hcached Hbval].
  (* values of the entries of the row, other than its base and [v] *)
  assert (Hother : forall e, e ∈ es -> fst e ≠ v ->
            row_term s' (row_info.m_base ri) e = row_term s (row_info.m_base ri) e).
  { intros e He Hev. unfold row_term. destruct (decide (fst e = row_info.m_base ri)); [done |].
    f_equal. apply val_of_lookup. rewrite HV.
    - unfold s1. proj_simpl. by apply list_lookup_alter_ne.
    - intros col ri0 _ Hri0 Heq.
      pose proof (row_bases_lookup _ _ _ Hri0) as Hrb. rewrite Heq in Hrb.
      apply (Hown r _ es e Hes He) in Hrb. subst. congruence. }
  destruct (sumZ_update (row_term s (row_info.m_base ri)) (row_term s' (row_info.m_base ri))
              v es (Hnd r es Hes) Hother) as [Hin Hout].
  destruct (decide (r ∈ fst <$> col_entries v (M s))) as [Hr | Hr].
  - apply list_elem_of_fmap in Hr as ([r' c] & -> & Hcol). cbn [fst] in *.
    destruct (HE _ Hcol) as (ri0 & Hri0 & Hnew & Hbnew). cbn [fst snd] in *.
    rewrite Hri in Hri0. injection Hri0 as <-. rewrite Hri' in Hnew. injection Hnew as ->.
    cbn [row_info.m_base row_info.m_value row_info.m_base_coeff row_info.set_value].
    split; [| exact Hbnew].
    apply elem_of_col_entries in Hcol as (es' & Hes' & Hvc). rewrite Hes in Hes'.
    injection Hes' as <-.
    unfold row_sum. rewrite (Hin c Hvc). unfold row_term at 2 3. cbn [fst snd].
    destruct (decide (v = row_info.m_base ri)) as [Heq | _]; [by destruct (Hvbase _ ri Hri) |].
    rewrite Hvval. unfold val_of. rewrite Hvi. cbn [fmap option_fmap option_map default].
    rewrite Hcached. unfold row_sum, nadd, nmul.
    rewrite wrap_add_l, wrap_add_r. apply wrap_eq_iff; [done |].
    unfold wrap, modulus.
    exists (c * ((var_info.m_value vi + delta) / 2 ^ N)).
    rewrite (Z.mod_eq (var_info.m_value vi + delta)) by (pose proof (modulus_pos N HN); lia).
    unfold id. ring.
  - rewrite (HF r Hr), Hri in Hri'. injection Hri' as <-.
    split.
    + unfold row_sum. rewrite Hout; [exact Hcached |].
      intros Hv. apply Hr. apply list_elem_of_fmap in Hv as ([v' c] & -> & Hvc).
      apply (list_elem_of_fmap_2 fst _ (r, c)). apply elem_of_col_entries. by exists es.
    + rewrite <- Hbval. apply val_of_lookup. rewrite HV.
      * unfold s1. proj_simpl. apply list_lookup_alter_ne. intros ->. by eapply Hvbase.
      * intros col ri0 Hcol Hri0 Heq. apply Hr.
        rewrite (Hdist r (fst col) ri ri0 Hri Hri0) by done.
        by apply list_elem_of_fmap_2.
Qed.
End update_value_rows.

(** ** The parts of [pivot] *)

Section pivot_parts.
Context (E : Ext).
Local Abbreviation N := (ext_N E).

(** A [pivot] that returns has found the records of [x], [y] and the row of
    [x], has a non-zero [b], and ran its loop from the exchanged state. *)
Lemma pivot_Ok (x y : nat) (b new_value : Z) (s s' : fixplex) :
  pivot E x y b new_value s = Ok s' ->
  exists xI yI row_x,
    m_vars s !! x = Some xI /\ m_vars s !! y = Some yI /\
    m_rows s !! var_info.m_base2row xI = Some row_x /\
    b ≠ 0 /\
    (assertions_enabled E = true ->
     var_info.m_is_base xI = true /\ var_info.m_is_base yI = false) /\
    foldlM (pivot_row E (var_info.m_base2row xI) b (var_info.m_value yI))
      (pivot_exchange E x y (var_info.m_base2row xI) b new_value
         (pivot_value N row_x b (var_info.m_value yI) new_value) s)
      (col_entries y (M s)) = Ok s'.
Proof.
  unfold pivot. intros Hrun.
  apply res_bind_Ok in Hrun as (u1 & Hax & Hrun).
  apply res_bind_Ok in Hrun as (u2 & Hay & Hrun).
  apply res_bind_Ok in Hrun as (xI & HxI & Hrun).
  apply res_bind_Ok in Hrun as (yI & HyI & Hrun).
  apply res_bind_Ok in Hrun as (row_x & Hrow & Hrun).
  apply res_bind_Ok in Hrun as (q & Hq & Hrun).
  apply res_bind_Ok in Hrun as (u3 & _ & Hrun).
  apply res_bind_Ok in Hrun as (s1 & Hloop & Hrun).
  apply res_bind_Ok in Hrun as (u4 & _ & Hrun). injection Hrun as <-.
  apply of_option_Ok in HxI, HyI, Hrow. revert HxI HyI Hrow Hloop. proj_simpl.
  intros HxI HyI Hrow Hloop.
  exists xI, yI, row_x. repeat (split; [done |]).
  split; [by eapply ndiv_Ok |]. split.
  - intros Hon. apply (SASSERT_Ok _ _ _ Hon) in Hax, Hay.
    unfold is_base in Hax, Hay. revert Hax Hay. proj_simpl. rewrite HxI, HyI. cbn.
    intros [= ->] [= Hy]. split; [done |]. by destruct (var_info.m_is_base yI).
  - unfold ndiv in Hq. destruct (b =? 0); [discriminate |]. injection Hq as <-.
    exact Hloop.
Qed.
Lemma nshr_Ok (a k r : Z) : nshr N a k = Ok r -> r = Z.shiftr a k.
Proof. unfold nshr. destruct (_ && _); [by intros [= <-] | discriminate]. Qed.

Lemma pivot_row_skip (rx : nat) (b old_value_y : Z) (s s' : fixplex) (col : nat * Z) :
  bool_decide (fst col = rx) = true ->
  pivot_row E rx b old_value_y s col = Ok s' -> s' = s.
Proof.
  intros Hskip%bool_decide_eq_true. unfold pivot_row.
  destruct (decide (fst col = rx)); [by intros [= <-] | done].
Qed.

(** One step of the loop of [pivot] on a row other than the row of [x]. *)
Lemma pivot_row_effect (rx : nat) (b old_value_y : Z) (es_x : list row_entry)
    (row_x : row_info.t) (s s' : fixplex) (col : nat * Z) :
  M s !! rx = Some es_x ->
  m_rows s !! rx = Some row_x ->
  bool_decide (fst col = rx) = false ->
  pivot_row E rx b old_value_y s col = Ok s' ->
  exists row_z,
    m_rows s !! fst col = Some row_z /\ is_Some (m_vars s !! row_info.m_base row_z) /\
    M s' = alter (cascade_row E b (snd col) es_x) (fst col) (M s) /\
    m_rows s' = alter (fun ri =>
                  row_info.set_base_coeff (cascade_base_coeff E b ri)
                    (row_info.set_value
                       (cascade_value E b (snd col) old_value_y (row_info.m_value row_x) ri) ri))
                  (fst col) (m_rows s) /\
    m_vars s' = alter (var_info.set_value
                  (nsub N 0
                     (cascade_value E b (snd col) old_value_y (row_info.m_value row_x) row_z
                      / cascade_base_coeff E b row_z)))
                  (row_info.m_base row_z) (m_vars s).
Proof.
  intros Hes_x Hrow_x Hskip%bool_decide_eq_false. unfold pivot_row.
  destruct (decide (fst col = rx)); [done |]. intros Hrun.
  apply res_bind_Ok in Hrun as (row_z & Hrow_z & Hrun). apply of_option_Ok in Hrow_z.
  apply res_bind_Ok in Hrun as (vi & Hvi & Hrun). apply of_option_Ok in Hvi.
  apply res_bind_Ok in Hrun as (? & _ & Hrun).
  apply res_bind_Ok in Hrun as (b1 & Hb1 & Hrun). apply nshr_Ok in Hb1.
  apply res_bind_Ok in Hrun as (cs & Hcs & Hrun). apply nshr_Ok in Hcs.
  apply res_bind_Ok in Hrun as (row_x' & Hrow_x' & Hrun). apply of_option_Ok in Hrow_x'.
  revert Hrow_x'. proj_simpl. rewrite Hrow_x. intros [= <-].
  apply res_bind_Ok in Hrun as (q & Hq & Hrun).
  apply res_bind_Ok in Hrun as (? & _ & Hrun). injection Hrun as <-.
  exists row_z. split; [done |]. split; [by exists vi |].
  proj_simpl. subst b1 cs. split; [| split].
  - unfold add, mul. rewrite list_lookup_alter_ne, Hes_x by done.
    by rewrite list_alter_alter_eq.
  - rewrite list_alter_alter_eq. apply list_alter_ext; [| done].
    intros ri Hri. rewrite Hrow_z in Hri. by injection Hri as <-.
  - unfold ndiv in Hq. destruct (_ =? 0); [discriminate |]. by injection Hq as <-.
Qed.

(** The loop of [pivot]: every row other than the row of [x] that holds [y]
    is left as its own step computed it from the exchanged state; the other
    rows and the variables that are not the base of such a row are left as
    they were. *)
Lemma pivot_loop_effect (rx : nat) (b old_value_y : Z) (es_x : list row_entry)
    (row_x : row_info.t) (l : list (nat * Z)) (s s' : fixplex) :
  M s !! rx = Some es_x ->
  m_rows s !! rx = Some row_x ->
  NoDup (fst <$> l) ->
  (forall r1 r2 ri1 ri2,
     m_rows s !! r1 = Some ri1 -> m_rows s !! r2 = Some ri2 ->
     row_info.m_base ri1 = row_info.m_base ri2 -> r1 = r2) ->
  foldlM (pivot_row E rx b old_value_y) s l = Ok s' ->
  (forall r, r ∉ fst <$> l \/ r = rx ->
     M s' !! r = M s !! r /\ m_rows s' !! r = m_rows s !! r) /\
  (forall u,
     (forall col ri, col ∈ l -> fst col ≠ rx -> m_rows s !! fst col = Some ri ->
        row_info.m_base ri ≠ u) ->
     m_vars s' !! u = m_vars s !! u) /\
  (forall col, col ∈ l -> fst col ≠ rx ->
     exists row_z,
       m_rows s !! fst col = Some row_z /\
       M s' !! fst col = cascade_row E b (snd col) es_x <$> M s !! fst col /\
       m_rows s' !! fst col
       = Some (row_info.mk (row_info.m_base row_z) (cascade_base_coeff E b row_z)
                 (cascade_value E b (snd col) old_value_y (row_info.m_value row_x) row_z)) /\
       val_of s' (row_info.m_base row_z)
       = nsub N 0 (cascade_value E b (snd col) old_value_y (row_info.m_value row_x) row_z
                   / cascade_base_coeff E b row_z)).
Proof.
  intros Hes_x Hrow_x Hnd Hdist Hrun.
  destruct (row_loop_effect (pivot_row E rx b old_value_y) (fun r => bool_decide (r = rx))
              (fun c => cascade_row E b c es_x)
              (fun c ri => row_info.set_base_coeff (cascade_base_coeff E b ri)
                 (row_info.set_value
                    (cascade_value E b c old_value_y (row_info.m_value row_x) ri) ri))
              (fun c ri => nsub N 0
                 (cascade_value E b c old_value_y (row_info.m_value row_x) ri
                  / cascade_base_coeff E b ri))
              (fun s1 => M s1 !! rx = Some es_x /\ m_rows s1 !! rx = Some row_x))
    with (l := l) (s := s) (s' := s') as (HF & HV & HE); try done.
  - intros s1 col s2 [H1 H2] Hstep.
    destruct (bool_decide (fst col = rx)) eqn:Hskip.
    + by apply pivot_row_skip in Hstep as ->.
    + pose proof Hskip as Hne%bool_decide_eq_false.
      destruct (pivot_row_effect _ _ _ _ _ _ _ _ H1 H2 Hskip Hstep)
        as (_ & _ & _ & -> & -> & _).
      by rewrite !list_lookup_alter_ne.
  - intros s1 col s2 Hskip Hstep. by apply pivot_row_skip in Hstep as ->.
  - intros s1 col s2 [H1 H2] Hskip Hstep. by eapply pivot_row_effect.
  - split; [| split].
    + intros r [Hr | ->]; apply HF; [by left | right; by apply bool_decide_eq_true].
    + intros u Hu. apply HV. intros col ri Hcol Hskip%bool_decide_eq_false. by apply Hu.
    + intros col Hcol Hne.
      destruct (HE col Hcol) as (row_z & Hrow_z & HMz & HRz & HVz);
        [by apply bool_decide_eq_false |].
      exists row_z. split; [done |]. split; [done |]. split; [done |].
      unfold val_of. by rewrite HVz.
Qed.
Lemma pivot_row_patch (rx : nat) (b old_value_y : Z) (s s' : fixplex) (col : nat * Z) :
  fst col ≠ rx ->
  pivot_row E rx b old_value_y s col = Ok s' ->
  exists row_z s0,
    m_rows s !! fst col = Some row_z /\ m_to_patch s0 = m_to_patch s /\
    m_to_patch s' = add_patch_set E (row_info.m_base row_z) s0.
Proof.
  intros Hne. unfold pivot_row. destruct (decide (fst col = rx)); [done |]. intros Hrun.
  apply res_bind_Ok in Hrun as (row_z & Hrow_z & Hrun). apply of_option_Ok in Hrow_z.
  apply res_bind_Ok in Hrun as (? & _ & Hrun).
  apply res_bind_Ok in Hrun as (? & _ & Hrun).
  apply res_bind_Ok in Hrun as (b1 & _ & Hrun).
  apply res_bind_Ok in Hrun as (cs & _ & Hrun).
  apply res_bind_Ok in Hrun as (? & _ & Hrun).
  apply res_bind_Ok in Hrun as (q & _ & Hrun).
  apply res_bind_Ok in Hrun as (? & _ & Hrun). injection Hrun as <-.
  exists row_z. eexists. split; [done |]. split; [| by proj_simpl]. by proj_simpl.
Qed.

(** With an [add_patch] that enqueues, the loop of [pivot] leaves in the
    To-Patch set what was there and the base of every row it changed. *)
Lemma pivot_loop_patch (rx : nat) (b old_value_y : Z) (l : list (nat * Z)) :
  patch_enqueues E ->
  forall s s',
    foldlM (pivot_row E rx b old_value_y) s l = Ok s' ->
    (forall u, u ∈ m_to_patch s -> u ∈ m_to_patch s') /\
    (forall col z, col ∈ l -> fst col ≠ rx -> row_bases s !! fst col = Some z ->
                   z ∈ m_to_patch s').
Proof.
  intros Hpatch. induction l as [|col l IH]; intros s s' Hrun.
  { injection Hrun as <-. split; [done |]. intros col z Hcol. by apply elem_of_nil in Hcol. }
  cbn [foldlM] in Hrun. apply res_bind_Ok in Hrun as (s2 & Hstep & Hrun).
  destruct (IH s2 s' Hrun) as [IHkeep IHin].
  pose proof (pivot_row_basis E _ _ _ _ _ _ Hstep) as [= _ Hbases _].
  assert (Hkeep2 : forall u, u ∈ m_to_patch s -> u ∈ m_to_patch s2).
  { intros u Hu. destruct (decide (fst col = rx)) as [Heq | Hne].
    - apply pivot_row_skip in Hstep as ->; [done | by apply bool_decide_eq_true].
    - destruct (pivot_row_patch _ _ _ _ _ _ Hne Hstep) as (row_z & s0 & _ & H0 & ->).
      apply (proj2 (Hpatch _ _)). by rewrite H0. }
  split; [by auto |].
  intros col' z [-> | Hcol']%elem_of_cons Hne Hz.
  - destruct (pivot_row_patch _ _ _ _ _ _ Hne Hstep) as (row_z & s0 & Hrow_z & H0 & Hp).
    apply row_bases_lookup in Hrow_z. rewrite Hz in Hrow_z. injection Hrow_z as ->.
    apply IHkeep. rewrite Hp. apply (proj1 (Hpatch _ _)).
  - apply (IHin col'); [done | done |]. by rewrite Hbases.
Qed.
End pivot_parts.

Section pivot_effect.
Context (E : Ext).
Local Abbreviation N := (ext_N E).

(** The exchanged state, field by field. *)
Lemma pivot_exchange_fields (x y rx : nat) (b new_value val : Z) (s : fixplex)
    (xI yI : var_info.t) (row_x : row_info.t) :
  x ≠ y ->
  m_vars s !! x = Some xI -> m_vars s !! y = Some yI -> m_rows s !! rx = Some row_x ->
  let s1 := pivot_exchange E x y rx b new_value val s in
  M s1 = M s /\
  m_rows s1 !! rx = Some (row_info.mk y b val) /\
  (forall r, r ≠ rx -> m_rows s1 !! r = m_rows s !! r) /\
  m_vars s1 !! x
  = Some (var_info.mk new_value (var_info.m_lo xI) (var_info.m_hi xI) false
            (var_info.m_base2row xI)) /\
  m_vars s1 !! y
  = Some (var_info.mk (nsub N 0 (val / b)) (var_info.m_lo yI) (var_info.m_hi yI) true rx) /\
  (forall u, u ≠ x -> u ≠ y -> m_vars s1 !! u = m_vars s !! u).
Proof.
  intros Hxy Hx Hy Hrow s1. unfold s1, pivot_exchange. proj_simpl.
  split; [done |]. split; [| split; [| split; [| split]]].
  - by rewrite !list_lookup_alter_eq, Hrow.
  - intros r Hr. by rewrite !list_lookup_alter_ne.
  - by rewrite !list_lookup_alter_eq, !list_lookup_alter_ne, Hx.
  - rewrite !(list_lookup_alter_ne _ _ x y) by done.
    by rewrite !list_lookup_alter_eq, Hy.
  - intros u Hux Huy. by rewrite !list_lookup_alter_ne.
Qed.

Lemma exact_quotient (b val : Z) :
  0 <= N -> val mod b = 0 -> nadd N (nmul N b (nsub N 0 (val / b))) val = 0.
Proof.
  intros HN Hmod. unfold nadd, nmul, nsub.
  assert (Hval : val = b * (val / b)).
  { destruct (Z.eq_dec b 0) as [-> | Hb]; [by rewrite Z.mod_0_r in Hmod |].
    pose proof (Z.div_mod val b Hb). lia. }
  pose proof (modulus_pos N HN) as HM.
  rewrite (wrap_add_l N). transitivity (wrap N 0); [| apply wrap_small; lia].
  apply wrap_eq_iff; [done |].
  unfold wrap, modulus. rewrite (Z.mod_eq (0 - val / b)) by lia.
  remember (val / b) as q eqn:Hq. clear Hq Hmod. subst val.
  exists (- (b * ((0 - q) / 2 ^ N))). ring.
Qed.
(** What [pivot] leaves when it returns. *)
Lemma pivot_result (x y : nat) (b new_value : Z) (s s' : fixplex)
    (xI yI : var_info.t) (row_x : row_info.t) (es_x : list row_entry) :
  basis_inv s ->
  (forall r es, M s !! r = Some es -> NoDup (fst <$> es)) ->
  m_vars s !! x = Some xI -> var_info.m_is_base xI = true ->
  m_vars s !! y = Some yI -> var_info.m_is_base yI = false ->
  m_rows s !! var_info.m_base2row xI = Some row_x ->
  M s !! var_info.m_base2row xI = Some es_x ->
  pivot E x y b new_value s = Ok s' ->
  let rx := var_info.m_base2row xI in
  let val := pivot_value N row_x b (var_info.m_value yI) new_value in
  m_rows s' !! rx = Some (row_info.mk y b val) /\
  m_vars s' !! y
  = Some (var_info.mk (nsub N 0 (val / b)) (var_info.m_lo yI) (var_info.m_hi yI) true rx) /\
  m_vars s' !! x
  = Some (var_info.mk new_value (var_info.m_lo xI) (var_info.m_hi xI) false rx) /\
  (forall rz c, (rz, c) ∈ col_entries y (M s) -> rz ≠ rx ->
     exists row_z es_z,
       m_rows s !! rz = Some row_z /\ M s !! rz = Some es_z /\
       M s' !! rz = Some (cascade_row E b c es_x es_z) /\
       m_rows s' !! rz
       = Some (row_info.mk (row_info.m_base row_z) (cascade_base_coeff E b row_z)
                 (cascade_value E b c (var_info.m_value yI) val row_z)) /\
       val_of s' (row_info.m_base row_z)
       = nsub N 0 (cascade_value E b c (var_info.m_value yI) val row_z
                   / cascade_base_coeff E b row_z)) /\
  (patch_enqueues E ->
   y ∈ m_to_patch s' /\
   forall rz c row_z, (rz, c) ∈ col_entries y (M s) -> rz ≠ rx ->
     m_rows s !! rz = Some row_z -> row_info.m_base row_z ∈ m_to_patch s').
Proof.
  intros Hbasis Hnd Hx Hxb Hy Hyb Hrow Hes_x Hrun rx val.
  destruct (basis_inv_owner s Hbasis) as [_ Hdist].
  destruct Hbasis as (Hlen & Hb1 & Hb2).
  assert (Hxy : x ≠ y) by (intros ->; congruence).
  assert (Hbx : basic_vars s !! x = Some (true, rx)).
  { unfold basic_vars. by rewrite list_lookup_fmap, Hx; cbn; rewrite Hxb. }
  assert (Hby : basic_vars s !! y = Some (false, var_info.m_base2row yI)).
  { unfold basic_vars. by rewrite list_lookup_fmap, Hy; cbn; rewrite Hyb. }
  apply pivot_Ok in Hrun as (xI' & yI' & row_x' & Hx' & Hy' & Hrow' & Hb & _ & Hloop).
  rewrite Hx in Hx'. injection Hx' as <-. rewrite Hy in Hy'. injection Hy' as <-.
  rewrite Hrow in Hrow'. injection Hrow' as <-.
  fold rx val in Hloop.
  destruct (pivot_exchange_fields x y rx b new_value val s xI yI row_x Hxy Hx Hy Hrow)
    as (HM1 & Hrx1 & Hr1 & Hx1 & Hy1 & Hu1).
  set (s1 := pivot_exchange E x y rx b new_value val s) in *.
  (* the bases of the rows other than [rx] are basic before the pivot *)
  assert (Hbases : forall r ri, r ≠ rx -> m_rows s1 !! r = Some ri ->
            row_info.m_base ri ≠ x /\ row_info.m_base ri ≠ y /\ m_rows s !! r = Some ri).
  { intros r ri Hr Hri. rewrite Hr1 in Hri by done.
    pose proof (Hb2 _ _ (row_bases_lookup _ _ _ Hri)) as Hbv.
    repeat split; [| | done]; intros Heq; rewrite Heq in Hbv; congruence. }
  assert (Hdist1 : forall r1 r2 ri1 ri2,
            m_rows s1 !! r1 = Some ri1 -> m_rows s1 !! r2 = Some ri2 ->
            row_info.m_base ri1 = row_info.m_base ri2 -> r1 = r2).
  { intros r1 r2 ri1 ri2 H1 H2 Heq.
    destruct (decide (r1 = rx)) as [-> | Hn1]; destruct (decide (r2 = rx)) as [-> | Hn2];
      [done | | |].
    - rewrite Hrx1 in H1. injection H1 as <-. cbn in Heq.
      destruct (Hbases _ _ Hn2 H2) as (_ & ? & _). congruence.
    - rewrite Hrx1 in H2. injection H2 as <-. cbn in Heq.
      destruct (Hbases _ _ Hn1 H1) as (_ & ? & _). congruence.
    - destruct (Hbases _ _ Hn1 H1) as (_ & _ & ?). destruct (Hbases _ _ Hn2 H2) as (_ & _ & ?).
      by eapply Hdist. }
  pose proof Hloop as Hpatch.
  apply (pivot_loop_effect E rx b _ es_x (row_info.mk y b val)) in Hloop
    as (HF & HV & HE); [| by rewrite HM1 | done | by apply col_entries_NoDup | done].
  split; [| split; [| split; [| split]]].
  - destruct (HF rx) as [_ ->]; [by right | done].
  - rewrite HV; [done |]. intros col ri _ Hne Hri. by apply (Hbases _ _ Hne Hri).
  - rewrite HV; [done |]. intros col ri _ Hne Hri. by apply (Hbases _ _ Hne Hri).
  - intros rz c Hcol Hne.
    destruct (HE _ Hcol Hne) as (row_z & Hrow_z & HMz & HRz & HVz). cbn [fst snd] in *.
    destruct (Hbases _ _ Hne Hrow_z) as (_ & _ & Hrow_z').
    apply elem_of_col_entries in Hcol as (es_z & Hes_z & _).
    exists row_z, es_z. rewrite HM1, Hes_z in HMz. done.
  - intros Hen. apply (pivot_loop_patch E _ _ _ _ Hen) in Hpatch as [Hkeep Hin]. split.
    + apply Hkeep. unfold s1, pivot_exchange. proj_simpl. apply (proj1 (Hen _ _)).
    + intros rz c row_z Hcol Hne Hrow_z. apply (Hin (rz, c)); [done | done |].
      apply row_bases_lookup. cbn. by rewrite Hr1.
Qed.
End pivot_effect.

(** C5, as the code has it: [pivot(x, y, b, new_value)] gives the row of
    [x] the cached value [old - b * value(y) + a * new_value], makes [y] its
    base with coefficient [b] and value [0 - cached / b], the quotient of
    the unsigned values, which solves the row's equation when [b] divides
    the cached value; [x] is not basic any more, at [new_value]; every other
    row [z] that holds [y] with coefficient [c] is scaled by [b1] and gets
    [c1] times the row of [x] added, its cached value becomes
    [b1 * (cached_z - old value of y) + c1 * cached], its base coefficient is
    multiplied by [b1] and its base variable gets [0 - cached_z / base_coeff];
    and with an [add_patch] that enqueues, [y] and the base of every such
    row are in the To-Patch set. *)
Theorem pivot_effect (E : Ext) (x y : nat) (b new_value : Z) (s s' : fixplex)
    (xI yI : var_info.t) (row_x : row_info.t) (es_x : list row_entry) :
  basis_inv s ->
  (forall r es, M s !! r = Some es -> NoDup (fst <$> es)) ->
  m_vars s !! x = Some xI -> var_info.m_is_base xI = true ->
  m_vars s !! y = Some yI -> var_info.m_is_base yI = false ->
  m_rows s !! var_info.m_base2row xI = Some row_x ->
  M s !! var_info.m_base2row xI = Some es_x ->
  pivot E x y b new_value s = Ok s' ->
  let rx := var_info.m_base2row xI in
  let val := pivot_value (ext_N E) row_x b (var_info.m_value yI) new_value in
  m_rows s' !! rx = Some (row_info.mk y b val) /\
  m_vars s' !! y
  = Some (var_info.mk (nsub (ext_N E) 0 (val / b)) (var_info.m_lo yI) (var_info.m_hi yI)
            true rx) /\
  (0 <= ext_N E -> val mod b = 0 ->
   nadd (ext_N E) (nmul (ext_N E) b (nsub (ext_N E) 0 (val / b))) val = 0) /\
  m_vars s' !! x
  = Some (var_info.mk new_value (var_info.m_lo xI) (var_info.m_hi xI) false rx) /\
  (forall rz c, (rz, c) ∈ col_entries y (M s) -> rz ≠ rx ->
     exists row_z es_z,
       m_rows s !! rz = Some row_z /\ M s !! rz = Some es_z /\
       M s' !! rz = Some (cascade_row E b c es_x es_z) /\
       m_rows s' !! rz
       = Some (row_info.mk (row_info.m_base row_z) (cascade_base_coeff E b row_z)
                 (cascade_value E b c (var_info.m_value yI) val row_z)) /\
       val_of s' (row_info.m_base row_z)
       = nsub (ext_N E) 0 (cascade_value E b c (var_info.m_value yI) val row_z
                           / cascade_base_coeff E b row_z)) /\
  (patch_enqueues E ->
   y ∈ m_to_patch s' /\
   forall rz c row_z, (rz, c) ∈ col_entries y (M s) -> rz ≠ rx ->
     m_rows s !! rz = Some row_z -> row_info.m_base row_z ∈ m_to_patch s').
Proof.
  intros Hbasis Hnd Hx Hxb Hy Hyb Hrow Hes_x Hrun rx val.
  destruct (pivot_result E x y b new_value s s' xI yI row_x es_x
              Hbasis Hnd Hx Hxb Hy Hyb Hrow Hes_x Hrun) as (H1 & H2 & H3 & H4 & H5).
  split; [exact H1 |]. split; [exact H2 |].
  split; [| split; [exact H3 | split; [exact H4 | exact H5]]].
  intros HN Hmod. by apply exact_quotient.
Qed.

Lemma cascade_example_basis : basis_inv cascade_example.
Proof.
  split; [done |]. split.
  - intros [|[|[|v]]] r; cbn; intros [=]; by subst.
  - intros [|[|r]] v; cbn; intros [=]; by subst.
Qed.

Lemma cascade_example_rows :
  forall r es, M cascade_example !! r = Some es -> NoDup (fst <$> es).
Proof.
  intros [|[|r]] es; cbn; intros [=]; subst; by apply (bool_decide_unpack _).
Qed.

Lemma set_insert_enqueues : patch_enqueues uint4_enqueue_ext.
Proof.
  intros v s. cbn. unfold set_insert. destruct (decide (v ∈ m_to_patch s)).
  - by split.
  - split; [by left | intros u Hu; by right].
Qed.

Lemma pivot_effect_witness :
  exists s',
    pivot uint4_enqueue_ext 0 1 1 15 cascade_example = Ok s' /\
    m_rows s' !! 0%nat = Some (row_info.mk 1 1 15) /\
    m_vars s' !! 1%nat = Some (var_info.mk 1 0 0 true 0) /\
    m_vars s' !! 0%nat = Some (var_info.mk 15 5 0 false 0) /\
    M s' !! 1%nat = Some [(2%nat, 1); (1%nat, 1); (0%nat, 15)] /\
    m_rows s' !! 1%nat = Some (row_info.mk 2 1 1) /\
    2%nat ∈ m_to_patch s'.
Proof.
  destruct (pivot uint4_enqueue_ext 0 1 1 15 cascade_example) as [s'|] eqn:Hrun;
    [| vm_compute in Hrun; discriminate].
  exists s'. split; [reflexivity |].
  destruct (pivot_effect uint4_enqueue_ext 0 1 1 15 cascade_example s'
              (var_info.mk 0 5 0 true 0) (var_info.mk 0 0 0 false 0) (row_info.mk 0 1 0)
              [(0%nat, 1); (1%nat, 1)]
              cascade_example_basis cascade_example_rows
              eq_refl eq_refl eq_refl eq_refl eq_refl eq_refl Hrun)
    as (H1 & H2 & _ & H3 & H4 & H5).
  split; [exact H1 |]. split; [exact H2 |]. split; [exact H3 |].
  destruct (H4 1%nat 2) as (row_z & es_z & Hrow_z & Hes_z & HM & HR & _);
    [vm_compute; right; left | done |].
  injection Hrow_z as <-. injection Hes_z as <-.
  split; [exact HM |]. split; [exact HR |].
  destruct (H5 set_insert_enqueues) as [_ Hin].
  apply (Hin 1%nat 2 (row_info.mk 2 1 0)); [vm_compute; right; left | done | done].
Defined.

Lemma inexact_example_rows : exact_rows inexact_example /\ row_inv 4 inexact_example.
Proof.
  split.
  - intros [|r] ri; cbn; intros [=]; by subst.
  - intros [|r] ri es; cbn; intros [=] [=]; by subst.
Qed.

(** Against C5's exact division: on the row [x + 2y = 0] at [y = 0], whose
    cached value and base value are right and the division exact, fixing
    [x] at 15 pivots on [y] with coefficient 2; the cached value becomes 15,
    which 2 does not divide, [y] gets [0 - 15 / 2 = 9], and
    [2 * 9 + 15] is not 0 modulo 16. *)
Lemma exact_division_counterexample :
  exact_rows inexact_example /\ row_inv 4 inexact_example /\
  exists s',
    make_var_feasible uint4_ext 0 inexact_example = Ok (l_true, s') /\
    pivot uint4_ext 0 1 2 15 inexact_example = Ok s' /\
    pivot uint4_release_ext 0 1 2 15 inexact_example = Ok s' /\
    m_rows s' !! 0%nat = Some (row_info.mk 1 2 15) /\
    val_of s' 1 = 9 /\
    15 mod 2 <> 0 /\
    ~ row_equation 4 s' (row_info.mk 1 2 15).
Proof.
  split; [apply inexact_example_rows |]. split; [apply inexact_example_rows |].
  eexists. split; [vm_compute; reflexivity |].
  split; [vm_compute; reflexivity |]. split; [vm_compute; reflexivity |].
  split; [reflexivity |]. split; [reflexivity |].
  split; [by vm_compute |]. by vm_compute.
Qed.

(** Where C5 fails: the cascade does not eliminate [y] and does not give
    the row its cached value.  [cascade_example] has all the invariants;
    repairing [x] is [pivot(x, y, 1, 15)], and the row of [z] holds [y]
    with [c = 2], which passes the gate.  The loop computes [b1 = 1] and
    [c1 = inv(2 >> 1) = inv(1)], so the row of [z] becomes
    [z + y + 15x]: [y], now basic in the row of [x], is still in it.  Its
    cached value becomes [b1 * (0 - 0) + c1 * 15 = 1], where the ring sum of
    its entries other than [z] is [1 * 1 + 15 * 15 = 2]; and with [z] at
    [0 - 1 / 1 = 15] the left-hand side of the row is 1, not 0.  Every
    division is exact. *)
Lemma cascade_failure :
  tableau_wf cascade_example /\ row_inv 4 cascade_example /\
  exact_rows cascade_example /\
  col_entries 1 (M cascade_example) = [(0%nat, 1); (1%nat, 2)] /\
  has_minimal_trailing_zeros uint4_ext 1 1 cascade_example = true /\
  cascade_b1 uint4_ext 1 = 1 /\ cascade_c1 uint4_ext 1 2 = 15 /\
  exists s',
    make_var_feasible uint4_ext 0 cascade_example = Ok (l_true, s') /\
    pivot uint4_ext 0 1 1 15 cascade_example = Ok s' /\
    pivot uint4_release_ext 0 1 1 15 cascade_example = Ok s' /\
    is_base s' 1 = Ok true /\
    M s' !! 1%nat = Some [(2%nat, 1); (1%nat, 1); (0%nat, 15)] /\
    col_entries 1 (M s') = [(0%nat, 1); (1%nat, 1)] /\
    m_rows s' !! 1%nat = Some (row_info.mk 2 1 1) /\
    row_sum 4 s' 2 [(2%nat, 1); (1%nat, 1); (0%nat, 15)] = 2 /\
    values s' = [15; 1; 15] /\
    row_eval 4 (val_of s') [(2%nat, 1); (1%nat, 1); (0%nat, 15)] = 1 /\
    exact_rows s' /\
    ~ row_inv 4 s'.
Proof.
  split.
  { split; [apply cascade_example_basis |]. split; [apply cascade_example_rows |]. split.
    - intros [|[|r]] [|[|r']] es e; cbn; intros [=] He [=]; subst; try done;
        repeat (apply elem_of_cons in He as [-> | He]; [done |]); by apply elem_of_nil in He.
    - intros [|[|r]] ri es; cbn; intros [=] [=]; subst; cbn; by left. }
  split; [intros [|[|r]] ri es; cbn; intros [=] [=]; by subst |].
  split; [intros [|[|r]] ri; cbn; intros [=]; by subst |].
  split; [reflexivity |]. split; [reflexivity |]. split; [reflexivity |].
  split; [reflexivity |].
  eexists. split; [vm_compute; reflexivity |].
  split; [vm_compute; reflexivity |]. split; [vm_compute; reflexivity |].
  do 7 (split; [reflexivity |]). split.
  - intros [|[|r]] ri; cbn; intros [=]; by subst.
  - intros Hinv. destruct (Hinv 1%nat _ _ eq_refl eq_refl) as [Hsum _].
    by vm_compute in Hsum.
Qed.

(** The cached value of the cascade when [y] is eliminated.  On
    [cascade_odd_example], which has all the invariants, repairing [x] is
    [pivot(x, y, 1, 4)]; the row of [z] holds [y] with [c = 3], and with
    [b1 = 1] and [c1 = inv(3)] it becomes [z + 13x].  Its cached value
    becomes [b1 * (3 - 1) + c1 * 4 = 6], where the ring sum of its entries
    other than [z] is [13 * 4 = 4]: the value of [y] is subtracted once,
    not [c] times.  With [z] at [0 - 6 / 1 = 10] the left-hand side of the
    row is 14, not 0. *)
Lemma cascade_value_failure :
  tableau_wf cascade_odd_example /\ row_inv 4 cascade_odd_example /\
  exact_rows cascade_odd_example /\
  cascade_b1 uint4_ext 1 = 1 /\ cascade_c1 uint4_ext 1 3 = 13 /\
  exists s',
    make_var_feasible uint4_ext 0 cascade_odd_example = Ok (l_true, s') /\
    pivot uint4_ext 0 1 1 4 cascade_odd_example = Ok s' /\
    pivot uint4_release_ext 0 1 1 4 cascade_odd_example = Ok s' /\
    M s' !! 1%nat = Some [(2%nat, 1); (0%nat, 13)] /\
    m_rows s' !! 1%nat = Some (row_info.mk 2 1 6) /\
    row_sum 4 s' 2 [(2%nat, 1); (0%nat, 13)] = 4 /\
    values s' = [4; 12; 10] /\
    row_eval 4 (val_of s') [(2%nat, 1); (0%nat, 13)] = 14 /\
    exact_rows s' /\
    ~ row_inv 4 s'.
Proof.
  split.
  { split; [| split; [| split]].
    - split; [done |]. split.
      + intros [|[|[|v]]] r; cbn; intros [=]; by subst.
      + intros [|[|r]] v; cbn; intros [=]; by subst.
    - intros [|[|r]] es; cbn; intros [=]; subst; by apply (bool_decide_unpack _).
    - intros [|[|r]] [|[|r']] es e; cbn; intros [=] He [=]; subst; try done;
        repeat (apply elem_of_cons in He as [-> | He]; [done |]); by apply elem_of_nil in He.
    - intros [|[|r]] ri es; cbn; intros [=] [=]; subst; cbn; by left. }
  split; [intros [|[|r]] ri es; cbn; intros [=] [=]; by subst |].
  split; [intros [|[|r]] ri; cbn; intros [=]; by subst |].
  split; [reflexivity |]. split; [reflexivity |].
  eexists. split; [vm_compute; reflexivity |].
  split; [vm_compute; reflexivity |]. split; [vm_compute; reflexivity |].
  do 5 (split; [reflexivity |]). split.
  - intros [|[|r]] ri; cbn; intros [=]; by subst.
  - intros Hinv. destruct (Hinv 1%nat _ _ eq_refl eq_refl) as [Hsum _].
    by vm_compute in Hsum.
Qed.

(** ** The row invariant across a pivot *)

Section pivot_single.
Context (E : Ext).
Local Abbreviation N := (ext_N E).

(** When the column of [y] holds the row of [x] only, [pivot] ends in the
    exchanged state. *)
Lemma pivot_single (x y : nat) (b new_value : Z) (s s' : fixplex)
    (xI yI : var_info.t) (row_x : row_info.t) :
  m_vars s !! x = Some xI -> m_vars s !! y = Some yI ->
  m_rows s !! var_info.m_base2row xI = Some row_x ->
  (forall rz c, (rz, c) ∈ col_entries y (M s) -> rz = var_info.m_base2row xI) ->
  pivot E x y b new_value s = Ok s' ->
  s' = pivot_exchange E x y (var_info.m_base2row xI) b new_value
         (pivot_value N row_x b (var_info.m_value yI) new_value) s.
Proof.
  intros Hx Hy Hrow Hcol Hrun.
  apply pivot_Ok in Hrun as (xI' & yI' & row_x' & Hx' & Hy' & Hrow' & _ & _ & Hloop).
  rewrite Hx in Hx'. injection Hx' as <-. rewrite Hy in Hy'. injection Hy' as <-.
  rewrite Hrow in Hrow'. injection Hrow' as <-.
  rewrite foldlM_skip in Hloop; [by injection Hloop as <- |].
  intros [rz c] Hin. unfold pivot_row. cbn [fst].
  by rewrite decide_True by (by eapply Hcol).
Qed.

Lemma pivot_value_wrap (row_x : row_info.t) (b old_value_y new_value : Z) :
  pivot_value N row_x b old_value_y new_value
  = wrap N (row_info.m_value row_x - b * old_value_y
            + row_info.m_base_coeff row_x * new_value).
Proof.
  unfold pivot_value, nadd, nsub, nmul.
  rewrite (wrap_add_l N), (wrap_add_r N).
  replace (row_info.m_value row_x - wrap N (b * old_value_y)
           + row_info.m_base_coeff row_x * new_value)
    with (row_info.m_value row_x + row_info.m_base_coeff row_x * new_value
          - wrap N (b * old_value_y)) by ring.
  rewrite (wrap_sub_r E). f_equal. ring.
Qed.

(** The exchanged state keeps the row invariant when [b] is the coefficient
    of [y] in the row of [x] and no other row holds [y]. *)
Lemma pivot_exchange_row_inv (x y : nat) (b new_value : Z) (s : fixplex)
    (xI yI : var_info.t) (row_x : row_info.t) (es_x : list row_entry) :
  0 <= N -> tableau_wf s -> row_inv N s ->
  m_vars s !! x = Some xI -> var_info.m_is_base xI = true ->
  m_vars s !! y = Some yI -> var_info.m_is_base yI = false ->
  m_rows s !! var_info.m_base2row xI = Some row_x ->
  M s !! var_info.m_base2row xI = Some es_x -> (y, b) ∈ es_x ->
  (forall rz c, (rz, c) ∈ col_entries y (M s) -> rz = var_info.m_base2row xI) ->
  row_inv N (pivot_exchange E x y (var_info.m_base2row xI) b new_value
               (pivot_value N row_x b (var_info.m_value yI) new_value) s).
Proof.
  intros HN (Hbasis & Hnd & Hown & Hbc) Hinv Hx Hxb Hy Hyb Hrow Hes_x Hyb_in Hcol.
  set (rx := var_info.m_base2row xI) in *.
  set (val := pivot_value N row_x b (var_info.m_value yI) new_value).
  assert (Hxy : x ≠ y) by (intros ->; congruence).
  destruct (pivot_exchange_fields E x y rx b new_value val s xI yI row_x Hxy Hx Hy Hrow)
    as (HM1 & Hrx1 & Hr1 & Hx1 & Hy1 & Hu1).
  set (s1 := pivot_exchange E x y rx b new_value val s) in *.
  destruct Hbasis as (Hlen & Hb1 & Hb2).
  assert (Hbvx : basic_vars s !! x = Some (true, rx)).
  { unfold basic_vars. by rewrite list_lookup_fmap, Hx; cbn; rewrite Hxb. }
  assert (Hbvy : basic_vars s !! y = Some (false, var_info.m_base2row yI)).
  { unfold basic_vars. by rewrite list_lookup_fmap, Hy; cbn; rewrite Hyb. }
  pose proof (Hb1 _ _ Hbvx) as Hbx.
  assert (Hbase_x : row_info.m_base row_x = x).
  { rewrite (row_bases_lookup _ _ _ Hrow) in Hbx. by injection Hbx. }
  assert (Hvx : val_of s1 x = new_value) by (unfold val_of; by rewrite Hx1).
  assert (Hvy : val_of s y = var_info.m_value yI) by (unfold val_of; by rewrite Hy).
  assert (Hvu : forall u, u ≠ x -> u ≠ y -> val_of s1 u = val_of s u).
  { intros u ? ?. apply val_of_lookup. by apply Hu1. }
  intros r ri es Hri Hes. rewrite HM1 in Hes.
  destruct (decide (r = rx)) as [-> | Hne].
  - rewrite Hrx1 in Hri. injection Hri as <-. rewrite Hes_x in Hes. injection Hes as <-.
    cbn [row_info.m_base row_info.m_value row_info.m_base_coeff].
    split; [| unfold val_of; by rewrite Hy1].
    destruct (Hinv _ _ _ Hrow Hes_x) as [Hcached _]. rewrite Hbase_x in Hcached.
    pose proof (Hbc _ _ _ Hrow Hes_x) as Hxa. rewrite Hbase_x in Hxa.
    pose proof (Hnd _ _ Hes_x) as Hnd_x.
    set (g := fun e : row_entry =>
                if decide (fst e = x) then row_term s1 y e else row_term s x e).
    destruct (sumZ_update (row_term s x) g x es_x Hnd_x) as [Hg _].
    { intros e _ He. unfold g. by rewrite decide_False. }
    destruct (sumZ_update g (row_term s1 y) y es_x Hnd_x) as [Hf _].
    { intros e _ He. unfold g. destruct (decide (fst e = x)) as [| Hex]; [done |].
      unfold row_term. rewrite !decide_False by done. by rewrite Hvu. }
    specialize (Hg _ Hxa). specialize (Hf _ Hyb_in).
    assert (Hgx : g (x, row_info.m_base_coeff row_x)
                  = row_info.m_base_coeff row_x * new_value).
    { unfold g, row_term. cbn [fst snd].
      by rewrite decide_True, decide_False, Hvx by done. }
    assert (Htx : row_term s x (x, row_info.m_base_coeff row_x) = 0).
    { unfold row_term. cbn [fst snd]. by rewrite decide_True. }
    assert (Hgy : g (y, b) = b * var_info.m_value yI).
    { unfold g, row_term. cbn [fst snd].
      by rewrite !(decide_False (P := y = x)), Hvy by done. }
    assert (Hty : row_term s1 y (y, b) = 0).
    { unfold row_term. cbn [fst snd]. by rewrite decide_True. }
    rewrite Hgx, Htx in Hg. rewrite Hgy, Hty in Hf.
    unfold val. rewrite pivot_value_wrap, Hcached. unfold row_sum.
    rewrite Hf, Hg.
    replace (wrap N (sumZ (row_term s x <$> es_x)) - b * var_info.m_value yI
             + row_info.m_base_coeff row_x * new_value)
      with (wrap N (sumZ (row_term s x <$> es_x))
            + (row_info.m_base_coeff row_x * new_value - b * var_info.m_value yI)) by ring.
    rewrite (wrap_add_l N). f_equal. ring.
  - rewrite Hr1 in Hri by done. destruct (Hinv _ _ _ Hri Hes) as [Hc Hv].
    pose proof (Hb2 _ _ (row_bases_lookup _ _ _ Hri)) as Hbv.
    assert (Hbx' : row_info.m_base ri ≠ x) by (intros Heq; rewrite Heq in Hbv; congruence).
    assert (Hby' : row_info.m_base ri ≠ y) by (intros Heq; rewrite Heq in Hbv; congruence).
    split; [| by rewrite Hvu].
    rewrite Hc. unfold row_sum. do 2 f_equal.
    apply list_eq. intros i. rewrite !list_lookup_fmap.
    destruct (es !! i) as [e|] eqn:He; [| done]. cbn. f_equal.
    apply list_elem_of_lookup_2 in He.
    assert (fst e ≠ x).
    { intros Heq. apply Hne. symmetry. apply (Hown r rx es e Hes He). by rewrite Heq. }
    assert (fst e ≠ y).
    { intros Heq. apply Hne, (Hcol r (snd e)), elem_of_col_entries.
      exists es. split; [done |]. rewrite <- Heq. by destruct e. }
    unfold row_term. destruct (decide _); [done |]. by rewrite Hvu.
Qed.

(** A [pivot] whose entering variable is in no row but that of [x] keeps
    the row invariant. *)
Lemma pivot_row_inv (x y : nat) (b new_value : Z) (s s' : fixplex)
    (xI yI : var_info.t) (es_x : list row_entry) :
  0 <= N -> tableau_wf s -> row_inv N s ->
  m_vars s !! x = Some xI -> var_info.m_is_base xI = true ->
  m_vars s !! y = Some yI -> var_info.m_is_base yI = false ->
  M s !! var_info.m_base2row xI = Some es_x -> (y, b) ∈ es_x ->
  (forall rz c, (rz, c) ∈ col_entries y (M s) -> rz = var_info.m_base2row xI) ->
  pivot E x y b new_value s = Ok s' ->
  row_inv N s'.
Proof.
  intros HN Hwf Hinv Hx Hxb Hy Hyb Hes_x Hin Hcol Hrun.
  pose proof Hrun as Hrun'.
  apply pivot_Ok in Hrun' as (xI' & yI' & row_x & Hx' & _ & Hrow & _).
  rewrite Hx in Hx'. injection Hx' as <-.
  rewrite (pivot_single x y b new_value s s' xI yI row_x Hx Hy Hrow Hcol Hrun).
  by eapply pivot_exchange_row_inv.
Qed.
End pivot_single.

Lemma inexact_example_wf : tableau_wf inexact_example.
Proof.
  split; [| split; [| split]].
  - split; [done |]. split.
    + intros [|[|v]] r; cbn; intros [=]; by subst.
    + intros [|r] v; cbn; intros [=]; by subst.
  - intros [|r] es; cbn; intros [=]; subst; by apply (bool_decide_unpack _).
  - intros [|r] [|r'] es e; cbn; intros [=] He [=]; by subst.
  - intros [|r] ri es; cbn; intros [=] [=]; subst. cbn. by left.
Qed.

Lemma inexact_update_example_rows :
  tableau_wf inexact_update_example /\ exact_rows inexact_update_example /\
  row_inv 4 inexact_update_example.
Proof.
  split; [| split].
  - split; [| split; [| split]].
    + split; [done |]. split.
      * intros [|[|v]] r; cbn; intros [=]; by subst.
      * intros [|r] v; cbn; intros [=]; by subst.
    + intros [|r] es; cbn; intros [=]; subst; by apply (bool_decide_unpack _).
    + intros [|r] [|r'] es e; cbn; intros [=] He [=]; by subst.
    + intros [|r] ri es; cbn; intros [=] [=]; subst. cbn. by left.
  - intros [|r] ri; cbn; intros [=]; by subst.
  - intros [|r] ri es; cbn; intros [=] [=]; by subst.
Qed.

(** ** A pivot and the pivot back *)

Section round_trip.
Context (E : Ext).
Local Abbreviation N := (ext_N E).


End round_trip.



Lemma round_trip_example_rows :
  tableau_wf round_trip_example /\ exact_rows round_trip_example /\
  row_inv 4 round_trip_example.
Proof.
  split; [| split].
  - split; [| split; [| split]].
    + split; [done |]. split.
      * intros [|[|[|v]]] r; cbn; intros [=]; by subst.
      * intros [|[|r]] v; cbn; intros [=]; by subst.
    + intros [|[|r]] es; cbn; intros [=]; subst; by apply (bool_decide_unpack _).
    + intros [|[|r]] [|[|r']] es e; cbn; intros [=] He [=]; subst; try done.
      * apply elem_of_cons in He as [-> | He]; [done |].
        apply list_elem_of_singleton in He as ->. done.
      * apply elem_of_cons in He as [-> | He]; [done |].
        apply list_elem_of_singleton in He as ->. done.
    + intros [|[|r]] ri es; cbn; intros [=] [=]; subst; cbn; by left.
  - intros [|[|r]] ri; cbn; intros [=]; by subst.
  - intros [|[|r]] ri es; cbn; intros [=] [=]; by subst.
Qed.


(** ** The basis across the cascade *)

Lemma shared_column_example_rows :
  tableau_wf shared_column_example /\ exact_rows shared_column_example /\
  row_inv 4 shared_column_example.
Proof.
  split; [| split].
  - split; [| split; [| split]].
    + split; [done |]. split.
      * intros [|[|[|v]]] r; cbn; intros [=]; by subst.
      * intros [|[|r]] v; cbn; intros [=]; by subst.
    + intros [|[|r]] es; cbn; intros [=]; subst; by apply (bool_decide_unpack _).
    + intros [|[|r]] [|[|r']] es e; cbn; intros [=] He [=]; subst; try done.
      * apply elem_of_cons in He as [-> | He]; [done |].
        apply list_elem_of_singleton in He as ->. done.
      * apply elem_of_cons in He as [-> | He]; [done |].
        apply list_elem_of_singleton in He as ->. done.
    + intros [|[|r]] ri es; cbn; intros [=] [=]; subst; cbn; by left.
  - intros [|[|r]] ri; cbn; intros [=]; by subst.
  - intros [|[|r]] ri es; cbn; intros [=] [=]; by subst.
Qed.

(** Where C4 fails on [make_feasible]: two calls of [add_row] build the rows
    [x + 2y = 0] and [z + 2y = 0], a tableau that has all the invariants.
    The pivot of [x] with [y] leaves [y], now basic in row 0, in the row of
    [z] with coefficient 14; [z] is out of its bounds, [y] is the only
    eligible entry of its row, and the next pivot is called with the basic
    [y]. With the assertions compiled away [make_feasible] returns
    [l_true] with [y] as the base of both rows; with the assertions checked
    it fails at [SASSERT(!is_base(y))]. *)
Lemma shared_column_failure :
  (exists s1,
     add_row uint4_release_ext 0 0 2 [0%nat; 1%nat] [1; 2] shared_column_vars
     = Some (Ok (0%nat, s1)) /\
     add_row uint4_release_ext 0 2 2 [2%nat; 1%nat] [1; 2] s1
     = Some (Ok (1%nat, shared_column_example))) /\
  tableau_wf shared_column_example /\ exact_rows shared_column_example /\
  row_inv 4 shared_column_example /\
  (exists s1,
     pivot uint4_release_ext 0 1 2 15 shared_column_example = Ok s1 /\
     M s1 !! 1%nat = Some [(2%nat, 1); (1%nat, 14); (0%nat, 14)] /\
     is_base s1 1 = Ok true /\
     in_bounds_var s1 2 = Ok false /\
     select_pivot_core uint4_release_ext 2 2 0 s1 = Ok (Some 1%nat, 14, s1)) /\
  (exists s',
     make_feasible uint4_release_ext 200 shared_column_example = Some (Ok (l_true, s')) /\
     row_bases s' = [1%nat; 1%nat] /\
     ~ basis_inv s') /\
  make_feasible uint4_ext 200 shared_column_example = Some (Err assertion_violation).
Proof.
  split; [eexists; split; vm_compute; reflexivity |].
  split; [apply shared_column_example_rows |].
  split; [apply shared_column_example_rows |].
  split; [apply shared_column_example_rows |].
  split; [| split].
  - eexists. split; [vm_compute; reflexivity |].
    repeat (split; [vm_compute; reflexivity |]). vm_compute; reflexivity.
  - eexists. split; [vm_compute; reflexivity |]. split; [reflexivity |].
    intros (_ & _ & H). specialize (H 0%nat 1%nat eq_refl). by vm_compute in H.
  - vm_compute; reflexivity.
Qed.

(** ** The row invariant across [make_feasible] *)

Lemma sound_tableau_view (N : Z) (s s' : fixplex) :
  tableau_view s' = tableau_view s -> sound_tableau N s -> sound_tableau N s'.
Proof.
  unfold tableau_view, sound_tableau, tableau_wf, basis_inv, row_inv, row_sum, row_term,
    val_of, basic_vars, row_bases.
  intros [= HM HV HR]. by rewrite HM, HV, HR.
Qed.

Section make_feasible_rows.
Context (E : Ext).
Local Abbreviation N := (ext_N E).
Hypothesis N_nonneg : 0 <= N.
Hypothesis assertions_on : assertions_enabled E = true.

(** A [pivot] on an entry [(y, b)] of the row of [x], in a tableau whose
    rows share no variable, keeps the shape and the row invariant. *)
Lemma pivot_sound (x y : nat) (b new_value : Z) (s s' : fixplex)
    (xI : var_info.t) (es_x : list row_entry) :
  sound_tableau N s ->
  m_vars s !! x = Some xI ->
  M s !! var_info.m_base2row xI = Some es_x -> (y, b) ∈ es_x ->
  pivot E x y b new_value s = Ok s' ->
  sound_tableau N s'.
Proof.
  intros (Hwf & Hinv & Hsingle) Hx Hes_x Hin Hrun.
  pose proof Hrun as Hrun'.
  apply pivot_Ok in Hrun' as (xI' & yI & row_x & Hx' & Hy & Hrow & _ & Hpre & _).
  rewrite Hx in Hx'. injection Hx' as <-.
  destruct (Hpre assertions_on) as [Hxb Hyb].
  set (rx := var_info.m_base2row xI) in *.
  assert (Hcol : forall rz c, (rz, c) ∈ col_entries y (M s) -> rz = rx).
  { intros rz c Hc. apply (Hsingle y rz rx c b Hc). apply elem_of_col_entries. by exists es_x. }
  assert (Hxy : x ≠ y) by (intros ->; congruence).
  pose proof (pivot_row_inv E x y b new_value s s' xI yI es_x
                N_nonneg Hwf Hinv Hx Hxb Hy Hyb Hes_x Hin Hcol Hrun) as Hinv'.
  destruct Hwf as (Hbasis & Hnd & Hown & Hbc).
  pose proof (pivot_basis E x y b new_value s s' Hbasis (or_introl assertions_on) Hrun)
    as Hbasis'.
  rewrite (pivot_single E x y b new_value s s' xI yI row_x Hx Hy Hrow Hcol Hrun)
    in Hbasis', Hinv' |- *.
  fold rx in Hbasis', Hinv' |- *.
  set (val := pivot_value N row_x b (var_info.m_value yI) new_value) in *.
  destruct (pivot_exchange_fields E x y rx b new_value val s xI yI row_x Hxy Hx Hy Hrow)
    as (HM1 & Hrx1 & Hr1 & _).
  set (s1 := pivot_exchange E x y rx b new_value val s) in *.
  split; [| split; [done | by rewrite HM1]].
  split; [done |]. rewrite HM1. split; [done |]. split.
  - intros r r' es e Hes He Hbase.
    destruct (decide (r' = rx)) as [-> | Hne].
    + unfold row_bases in Hbase. rewrite list_lookup_fmap, Hrx1 in Hbase.
      injection Hbase as Hbase. cbn in Hbase. symmetry.
      apply (Hcol r (snd e)), elem_of_col_entries. exists es. split; [done |].
      rewrite Hbase. by destruct e.
    + apply (Hown r r' es e Hes He).
      unfold row_bases in *. by rewrite list_lookup_fmap, <- Hr1, <- list_lookup_fmap.
  - intros r ri es Hri Hes. destruct (decide (r = rx)) as [-> | Hne].
    + rewrite Hrx1 in Hri. injection Hri as <-. rewrite Hes_x in Hes. by injection Hes as <-.
    + rewrite Hr1 in Hri by done. by eapply Hbc.
Qed.

Lemma make_var_feasible_sound (x : nat) (s s' : fixplex) (v : lbool) :
  sound_tableau N s -> make_var_feasible E x s = Ok (v, s') -> sound_tableau N s'.
Proof.
  intros Hinv. unfold make_var_feasible. intros Hrun.
  apply res_bind_Ok in Hrun as ([] & _ & Hrun); [by injection Hrun as _ <- |].
  apply res_bind_Ok in Hrun as (val & _ & Hrun).
  apply res_bind_Ok in Hrun as (l & _ & Hrun).
  apply res_bind_Ok in Hrun as (h & _ & Hrun).
  destruct (new_value_delta E val l h) as [new_value delta].
  apply res_bind_Ok in Hrun as ([[y b] s1] & Hsel & Hrun).
  pose proof Hsel as Hstate. apply select_pivot_core_state in Hstate as [g ->].
  assert (Hinv1 : sound_tableau N (set_random g s)) by (by apply (sound_tableau_view N s)).
  destruct y as [y|].
  - apply res_bind_Ok in Hrun as (s2 & Hpivot & Hrun). injection Hrun as _ <-.
    apply select_pivot_core_eligible in Hsel as (xi & es & Hx & Hes & Hin & _).
    by eapply (pivot_sound x y b new_value (set_random g s) s2 xi es).
  - apply res_bind_Ok in Hrun as (inf & _ & Hrun). by injection Hrun as _ <-.
Qed.

Lemma make_feasible_body_sound (k nr : Z) (s : fixplex) :
  sound_tableau N s ->
  match make_feasible_body E k nr s with
  | Return (Ok (_, s')) => sound_tableau N s'
  | Return (Err _) => True
  | Continue _ s' => sound_tableau N s'
  end.
Proof.
  intros Hinv. unfold make_feasible_body.
  destruct (select_var_to_fix E s) as [[v|] patch].
  2:{ unfold SASSERT. rewrite assertions_on. res_simpl.
      destruct (well_formed E _); [by apply (sound_tableau_view N s) | done]. }
  destruct (limit_inc E _) as [ok lim].
  destruct (negb ok || _); [by apply (sound_tableau_view N s) |].
  destruct (check_blands_rule E v nr _) as [[nr' bland] lb].
  destruct (make_var_feasible E v _) as [[verdict s1]|] eqn:Hrun; [| done].
  apply make_var_feasible_sound in Hrun; [| by apply (sound_tableau_view N s)].
  destruct verdict; [by apply (sound_tableau_view N s1) .. | done].
Qed.

Lemma make_feasible_loop_sound (fuel : nat) :
  forall (k nr : Z) (s s' : fixplex) (v : lbool),
    sound_tableau N s -> make_feasible_loop E fuel k nr s = Some (Ok (v, s')) ->
    sound_tableau N s'.
Proof.
  induction fuel as [|fuel IH]; intros k nr s s' v Hinv; cbn [make_feasible_loop];
    pose proof (make_feasible_body_sound k nr s Hinv) as Hbody;
    destruct (make_feasible_body E k nr s) as [[[v1 s1]|]|nr1 s1]; try discriminate.
  - by intros [= _ <-].
  - by intros [= _ <-].
  - by apply IH.
Qed.

Lemma make_feasible_sound (fuel : nat) (s s' : fixplex) (v : lbool) :
  sound_tableau N s -> make_feasible E fuel s = Some (Ok (v, s')) -> sound_tableau N s'.
Proof.
  intros Hinv. unfold make_feasible. destruct (SASSERT E _); [| discriminate].
  apply make_feasible_loop_sound. by apply (sound_tableau_view N s).
Qed.
End make_feasible_rows.

(** ** The row invariant across [add_row] *)

Section add_row_rows.
Context (E : Ext).
Local Abbreviation N := (ext_N E).

(** The filling loop appends to the new row the entries of the arrays with
    a non-zero coefficient, in order. *)
Lemma add_row_fill_shape (vars : list nat) (coeffs : list Z) (m0 : sparse_matrix)
    (l : list nat) :
  forall es0 m',
    NoDup l ->
    (forall i j v, i ∈ l -> j ∈ l -> vars !! i = Some v -> vars !! j = Some v -> i = j) ->
    foldlM (add_row_fill (length m0) vars coeffs) (m0 ++ [es0]) l = Ok m' ->
    exists es, m' = m0 ++ [es0 ++ es] /\ NoDup (fst <$> es) /\
      forall e, e ∈ es -> exists i, i ∈ l /\ vars !! i = Some (fst e).
Proof.
  induction l as [|i l IH]; intros es0 m' Hnd Hinj Hrun.
  - injection Hrun as <-. exists []. rewrite app_nil_r. split; [done |].
    split; [constructor |]. intros e He. by apply elem_of_nil in He.
  - cbn [foldlM] in Hrun. apply res_bind_Ok in Hrun as (m1 & Hstep & Hrun).
    apply NoDup_cons in Hnd as [Hi Hnd].
    assert (Hinj' : forall i j v, i ∈ l -> j ∈ l ->
              vars !! i = Some v -> vars !! j = Some v -> i = j).
    { intros ? ? ? ? ?. apply Hinj; by right. }
    unfold add_row_fill in Hstep.
    apply res_bind_Ok in Hstep as (c & _ & Hstep).
    destruct (c =? 0).
    + injection Hstep as <-.
      destruct (IH es0 m' Hnd Hinj' Hrun) as (es & -> & Hnd_es & Hall).
      exists es. split; [done |]. split; [done |].
      intros e He. destruct (Hall e He) as (j & Hj & Hv). exists j. split; [by right | done].
    + apply res_bind_Ok in Hstep as (v & Hv & Hstep). apply of_option_Ok in Hv.
      injection Hstep as <-. unfold add_var in Hrun.
      rewrite <- (Nat.add_0_r (length m0)), alter_app_r in Hrun. cbn [alter list_alter] in Hrun.
      rewrite Nat.add_0_r in Hrun.
      destruct (IH (es0 ++ [(v, c)]) m' Hnd Hinj' Hrun) as (es & -> & Hnd_es & Hall).
      exists ((v, c) :: es). rewrite <- app_assoc. split; [done |]. split.
      * rewrite fmap_cons. apply NoDup_cons. split; [| done]. cbn.
        intros (e & Hfst & He)%list_elem_of_fmap.
        destruct (Hall e He) as (j & Hj & Hvj). rewrite <- Hfst in Hvj.
        apply Hi. rewrite (Hinj i j v); [done | by left | by right | done | done].
      * intros e [-> | He]%elem_of_cons; [exists i; split; [by left | done] |].
        destruct (Hall e He) as (j & Hj & Hvj). exists j. split; [by right | done].
Qed.

(** The scan of the new row when it pushes nothing on [m_base_vars]: the
    state is untouched, the entries off the base variable are on non-basic
    variables, the value is the ring sum over them, and the base
    coefficient is the coefficient of an entry on the base variable, if one
    is there. *)
Lemma add_row_scan_shape (base_var : nat) (es : list row_entry) :
  forall bc0 val0 s0 bc val s1,
    foldlM (add_row_scan E base_var) (bc0, val0, s0) es = Ok (bc, val, s1) ->
    m_base_vars s1 = [] ->
    val0 = wrap N val0 ->
    s1 = s0 /\
    (forall e, e ∈ es -> fst e ≠ base_var -> is_base s0 (fst e) = Ok false) /\
    val = wrap N (val0 + sumZ (row_term s0 base_var <$> es)) /\
    (bc = bc0 \/ (base_var, bc) ∈ es).
Proof.
  induction es as [|e es IH]; intros bc0 val0 s0 bc val s1 Hrun Hempty Hval0.
  - injection Hrun as <- <- <-. split; [done |].
    split; [intros e He; by apply elem_of_nil in He |].
    split; [| by left]. cbn. by rewrite Z.add_0_r.
  - cbn [foldlM] in Hrun. apply res_bind_Ok in Hrun as ([[bc1 val1] s2] & Hstep & Hrun).
    unfold add_row_scan in Hstep. rewrite fmap_cons, sumZ_cons.
    destruct (decide (fst e = base_var)) as [Heq | Hne].
    + injection Hstep as <- <- <-.
      destruct (IH _ _ _ _ _ _ Hrun Hempty Hval0) as (-> & Hnb & -> & Hbc).
      split; [done |]. split.
      * intros e' [-> | He']%elem_of_cons; [done | by apply Hnb].
      * split.
        -- assert (row_term s0 base_var e = 0) as ->.
           { unfold row_term. by rewrite decide_True. }
           by rewrite Z.add_0_l.
        -- right. destruct Hbc as [-> | Hin]; [| by right].
           apply elem_of_cons. left. rewrite <- Heq. by destruct e.
    + apply res_bind_Ok in Hstep as (b & Hb & Hstep).
      apply res_bind_Ok in Hstep as (x & Hx & Hstep). injection Hstep as <- <- <-.
      assert (Hval1 : nadd N val0 (nmul N (snd e) x) = wrap N (nadd N val0 (nmul N (snd e) x))).
      { unfold nadd. rewrite <- (Z.add_0_r (wrap N _)) at 2.
        by rewrite (wrap_add_l N), Z.add_0_r. }
      destruct (IH _ _ _ _ _ _ Hrun Hempty Hval1) as (Hs & Hnb & -> & Hbc).
      destruct b.
      { rewrite Hs in Hempty. cbn in Hempty. by apply app_eq_nil in Hempty as [_ ?]. }
      split; [done |]. split.
      * intros e' [-> | He']%elem_of_cons; [done | by apply Hnb].
      * split; [| destruct Hbc as [-> | Hin]; [by left | right; by right]].
        assert (Hv : val_of s0 (fst e) = x).
        { unfold value in Hx. unfold val_of.
          destruct (var_info.m_value <$> m_vars s0 !! fst e); [| discriminate].
          cbn in *. congruence. }
        assert (row_term s0 base_var e = snd e * x) as ->.
        { unfold row_term. by rewrite decide_False, Hv. }
        unfold nadd, nmul. rewrite (wrap_add_l N).
        replace (val0 + wrap N (snd e * x) + sumZ (row_term s0 base_var <$> es))
          with (wrap N (snd e * x) + (val0 + sumZ (row_term s0 base_var <$> es))) by ring.
        rewrite (wrap_add_l N). f_equal. ring.
Qed.

(** What [add_row] returns, field by field: the new row is the last one,
    with the entries of the arrays, all but the base variable non-basic. *)
Lemma add_row_result (fuel base_var num_vars : nat) (vars : list nat) (coeffs : list Z)
    (s s' : fixplex) (r : nat) :
  (forall i j v, (i < num_vars)%nat -> (j < num_vars)%nat ->
     vars !! i = Some v -> vars !! j = Some v -> i = j) ->
  length (m_rows s) = length (M s) ->
  add_row E fuel base_var num_vars vars coeffs s = Some (Ok (r, s')) ->
  exists es bc val bI,
    r = length (M s) /\
    M s' = M s ++ [es] /\ NoDup (fst <$> es) /\
    m_rows s' = m_rows s ++ [row_info.mk base_var bc val] /\
    m_vars s !! base_var = Some bI /\
    m_vars s' !! base_var
    = Some (var_info.mk (nsub N 0 (val / bc)) (var_info.m_lo bI) (var_info.m_hi bI) true r) /\
    (forall u, u ≠ base_var -> m_vars s' !! u = m_vars s !! u) /\
    (forall e, e ∈ es -> fst e ≠ base_var -> is_base s (fst e) = Ok false) /\
    val = wrap N (sumZ (row_term s base_var <$> es)) /\
    (base_var, bc) ∈ es.
Proof.
  intros Hinj Hlen. unfold add_row, mk_row.
  destruct (_ ≫= _) as [s9|] eqn:Hchain; [| discriminate].
  intros Hend.
  assert (Hs9 : s' = s9 /\ r = length (M s) /\ m_base_vars s9 = []).
  { destruct (m_base_vars s9) eqn:Hbv.
    - apply (f_equal (fun o => from_option id (Err assertion_violation) o)) in Hend.
      cbn [from_option id] in Hend.
      apply res_bind_Ok in Hend as (? & _ & Hend).
      apply res_bind_Ok in Hend as (? & _ & Hend). by injection Hend as <- <-.
    - destruct (gauss_jordan fuel s9) as [[s10|]|] eqn:Hgj; [| discriminate | discriminate].
      apply gauss_jordan_Ok in Hgj as [_ Hgj]. congruence. }
  destruct Hs9 as (-> & -> & Hempty). clear Hend.
  apply res_bind_Ok in Hchain as (m & Hfill & Hchain).
  change (M (set_base_vars [] s)) with (M s) in Hfill.
  apply add_row_fill_shape in Hfill as (es & -> & Hnd & _).
  2:{ apply NoDup_seq. }
  2:{ intros i j v Hi%elem_of_seq Hj%elem_of_seq. apply Hinj; lia. }
  cbn [app] in Hchain.
  apply res_bind_Ok in Hchain as (es' & Hes' & Hchain).
  apply of_option_Ok in Hes'. cbn [M set_M] in Hes'.
  rewrite list_lookup_middle in Hes' by done. injection Hes' as <-.
  apply res_bind_Ok in Hchain as ([[bc val] s2] & Hscan & Hchain).
  apply res_bind_Ok in Hchain as (? & _ & Hchain).
  apply res_bind_Ok in Hchain as (? & _ & Hchain).
  apply res_bind_Ok in Hchain as (bI & HbI & Hchain). apply of_option_Ok in HbI.
  apply res_bind_Ok in Hchain as (q & Hq & Hchain). injection Hchain as <-.
  revert Hempty. unfold add_patch. proj_simpl. intros Hempty.
  apply add_row_scan_shape in Hscan as (-> & Hnb & -> & Hbc); [| done | done].
  revert HbI. proj_simpl. intros HbI.
  pose proof (ndiv_Ok _ _ _ Hq) as Hbc0.
  unfold ndiv in Hq. destruct (bc =? 0); [discriminate |]. injection Hq as <-.
  exists es, bc, (wrap N (0 + sumZ (row_term s base_var <$> es))), bI.
  split; [done |]. proj_simpl. split; [done |]. split; [done |]. split.
  { unfold pad_rows. rewrite Hlen, Nat.sub_succ_l, Nat.sub_diag by done. cbn [replicate].
    rewrite <- Hlen, <- (Nat.add_0_r (length (m_rows s))), alter_app_r. done. }
  split; [done |]. split.
  { by rewrite !list_lookup_alter_eq, HbI. }
  split.
  { intros u Hu. by rewrite !list_lookup_alter_ne. }
  split; [exact Hnb |]. split; [done |].
  by destruct Hbc as [-> | ?].
Qed.

(** [add_row] for a base variable that no row holds, on arrays that name
    no variable twice, keeps the shape of the tableau and the row
    invariant. *)
Lemma add_row_sound (fuel base_var num_vars : nat) (vars : list nat) (coeffs : list Z)
    (s s' : fixplex) (r : nat) :
  0 <= N -> tableau_wf s -> row_inv N s ->
  (forall i j v, (i < num_vars)%nat -> (j < num_vars)%nat ->
     vars !! i = Some v -> vars !! j = Some v -> i = j) ->
  col_entries base_var (M s) = [] ->
  add_row E fuel base_var num_vars vars coeffs s = Some (Ok (r, s')) ->
  tableau_wf s' /\ row_inv N s'.
Proof.
  intros HN (Hbasis & Hnd & Hown & Hbc) Hinv Hinj Hfresh Hrun.
  pose proof Hbasis as (Hlen & Hb1 & Hb2).
  destruct (add_row_result fuel base_var num_vars vars coeffs s s' r Hinj Hlen Hrun)
    as (es & bc & val & bI & -> & HM & Hnd_es & HR & HbI & Hvb & Hvu & Hnb & Hval & Hin).
  assert (Hnot : forall r1 es1 e, M s !! r1 = Some es1 -> e ∈ es1 -> fst e ≠ base_var).
  { intros r1 es1 e Hes1 He Heq.
    assert (Hc : (r1, snd e) ∈ col_entries base_var (M s)).
    { apply elem_of_col_entries. exists es1. split; [done |]. rewrite <- Heq. by destruct e. }
    rewrite Hfresh in Hc. by apply elem_of_nil in Hc. }
  assert (Hnobase : forall r1 ri, m_rows s !! r1 = Some ri -> row_info.m_base ri ≠ base_var).
  { intros r1 ri Hri.
    destruct (lookup_lt_is_Some_2 (M s) r1) as [es1 Hes1].
    { rewrite <- Hlen. by eapply lookup_lt_Some. }
    apply (Hnot r1 es1 (row_info.m_base ri, row_info.m_base_coeff ri) Hes1).
    by eapply Hbc. }
  assert (Hbase : is_base s base_var = Ok false).
  { unfold is_base. rewrite HbI. cbn. destruct (var_info.m_is_base bI) eqn:Hb; [| done].
    exfalso.
    assert (Hbv : basic_vars s !! base_var = Some (true, var_info.m_base2row bI)).
    { unfold basic_vars. by rewrite list_lookup_fmap, HbI; cbn; rewrite Hb. }
    apply Hb1 in Hbv. unfold row_bases in Hbv. rewrite list_lookup_fmap in Hbv.
    destruct (m_rows s !! var_info.m_base2row bI) as [ri|] eqn:Hri; [| done].
    injection Hbv as Hbv. by apply (Hnobase _ _ Hri). }
  pose proof (add_row_basis E fuel base_var num_vars vars coeffs s s' _ Hbasis
                (or_intror Hbase) Hrun) as Hbasis'.
  assert (Hold_M : forall r1 es1, (r1 < length (M s))%nat ->
            M s' !! r1 = Some es1 -> M s !! r1 = Some es1).
  { intros r1 es1 Hlt. by rewrite HM, lookup_app_l. }
  assert (Hnew_M : M s' !! length (M s) = Some es).
  { by rewrite HM, list_lookup_middle. }
  assert (Hold_R : forall r1 ri, (r1 < length (M s))%nat ->
            m_rows s' !! r1 = Some ri -> m_rows s !! r1 = Some ri).
  { intros r1 ri Hlt. rewrite HR, lookup_app_l by lia. done. }
  assert (Hnew_R : m_rows s' !! length (M s) = Some (row_info.mk base_var bc val)).
  { by rewrite HR, list_lookup_middle. }
  assert (Hcases : forall r1 es1, M s' !! r1 = Some es1 ->
            (r1 < length (M s))%nat \/ r1 = length (M s)).
  { intros r1 es1 H1. apply lookup_lt_Some in H1.
    rewrite HM, length_app in H1. cbn in H1. lia. }
  assert (Hval_u : forall u, u ≠ base_var -> val_of s' u = val_of s u).
  { intros u Hu. apply val_of_lookup. by apply Hvu. }
  split.
  - split; [done |]. split; [| split].
    + intros r1 es1 H1. destruct (Hcases _ _ H1) as [Hlt | ->].
      * eapply Hnd. by apply Hold_M.
      * rewrite Hnew_M in H1. by injection H1 as <-.
    + intros r1 r2 es1 e H1 He H2.
      assert (Hr2 : (r2 < length (M s))%nat \/ r2 = length (M s)).
      { unfold row_bases in H2. rewrite list_lookup_fmap in H2.
        destruct (m_rows s' !! r2) eqn:Hri; [| done]. apply lookup_lt_Some in Hri.
        rewrite HR, length_app in Hri. cbn in Hri. lia. }
      assert (Hrb : forall r0, (r0 < length (M s))%nat ->
                row_bases s' !! r0 = row_bases s !! r0).
      { intros r0 Hlt. unfold row_bases. rewrite !list_lookup_fmap, HR, lookup_app_l by lia.
        done. }
      destruct (Hcases _ _ H1) as [Hlt1 | ->]; destruct Hr2 as [Hlt2 | ->]; [| | | done].
      * rewrite Hrb in H2 by done. eapply Hown; [by apply Hold_M | done | done].
      * exfalso. unfold row_bases in H2. rewrite list_lookup_fmap, Hnew_R in H2.
        injection H2 as H2. cbn in H2. symmetry in H2.
        by apply (Hnot r1 es1 e (Hold_M _ _ Hlt1 H1) He).
      * exfalso. rewrite Hnew_M in H1. injection H1 as <-.
        rewrite Hrb in H2 by done. pose proof (Hb2 _ _ H2) as Hbv.
        assert (Hne : fst e ≠ base_var).
        { intros Heq. unfold row_bases in H2. rewrite list_lookup_fmap in H2.
          destruct (m_rows s !! r2) as [ri|] eqn:Hri; [| done]. injection H2 as H2.
          apply (Hnobase _ _ Hri). congruence. }
        pose proof (Hnb e He Hne) as Hfalse. unfold is_base in Hfalse.
        unfold basic_vars in Hbv. rewrite list_lookup_fmap in Hbv.
        destruct (m_vars s !! fst e); cbn in *; congruence.
    + intros r1 ri es1 Hri H1. destruct (Hcases _ _ H1) as [Hlt | ->].
      * eapply Hbc; [by apply Hold_R | by apply Hold_M].
      * rewrite Hnew_R in Hri. injection Hri as <-. rewrite Hnew_M in H1.
        by injection H1 as <-.
  - intros r1 ri es1 Hri H1. destruct (Hcases _ _ H1) as [Hlt | ->].
    + apply Hold_R in Hri; [| done]. apply Hold_M in H1; [| done].
      destruct (Hinv _ _ _ Hri H1) as [Hc Hv]. split.
      * rewrite Hc. unfold row_sum. do 2 f_equal.
        apply list_eq. intros i. rewrite !list_lookup_fmap.
        destruct (es1 !! i) as [e|] eqn:He; [| done]. cbn. f_equal.
        apply list_elem_of_lookup_2 in He.
        unfold row_term. destruct (decide _); [done |].
        rewrite Hval_u; [done |]. by eapply Hnot.
      * rewrite Hval_u; [done |]. by eapply Hnobase.
    + rewrite Hnew_R in Hri. injection Hri as <-. rewrite Hnew_M in H1. injection H1 as <-.
      cbn [row_info.m_base row_info.m_value row_info.m_base_coeff]. split.
      * rewrite Hval. unfold row_sum. do 2 f_equal.
        apply list_eq. intros i. rewrite !list_lookup_fmap.
        destruct (es !! i) as [e|] eqn:He; [| done]. cbn. f_equal.
        unfold row_term. destruct (decide _); [done |]. by rewrite Hval_u.
      * unfold val_of. by rewrite Hvb.
Qed.
End add_row_rows.

(** C2, as the code has it: take a tableau of the right shape in which every
    cached value is the ring sum of [coefficient * value] over the non-base
    entries of its row and every base variable is at [0 - cached / base_coeff],
    with [/] the quotient of the unsigned values (it truncates, and need not
    be exact).  The same holds of the tableau after [add_row] for a base
    variable that no row holds, on arrays that name no variable twice; after
    [update_value] on a non-basic variable; after a [pivot] whose entering
    variable [y] is held by the row of [x] only, with [b] its coefficient
    there; and, with the assertions checked, after [make_feasible] on a
    tableau in which no two rows hold the same variable. *)
Theorem row_invariant (E : Ext) (s : fixplex) :
  0 <= ext_N E -> tableau_wf s -> row_inv (ext_N E) s ->
  (forall fuel base_var num_vars vars coeffs r s',
     (forall i j v, (i < num_vars)%nat -> (j < num_vars)%nat ->
        vars !! i = Some v -> vars !! j = Some v -> i = j) ->
     col_entries base_var (M s) = [] ->
     add_row E fuel base_var num_vars vars coeffs s = Some (Ok (r, s')) ->
     tableau_wf s' /\ row_inv (ext_N E) s') /\
  (forall v delta s',
     is_base s v = Ok false -> update_value E v delta s = Ok s' ->
     row_inv (ext_N E) s') /\
  (forall x y b new_value s' xI yI es_x,
     m_vars s !! x = Some xI -> var_info.m_is_base xI = true ->
     m_vars s !! y = Some yI -> var_info.m_is_base yI = false ->
     M s !! var_info.m_base2row xI = Some es_x -> (y, b) ∈ es_x ->
     (forall rz c, (rz, c) ∈ col_entries y (M s) -> rz = var_info.m_base2row xI) ->
     pivot E x y b new_value s = Ok s' ->
     row_inv (ext_N E) s') /\
  (forall fuel verdict s',
     assertions_enabled E = true -> single_rows (M s) ->
     make_feasible E fuel s = Some (Ok (verdict, s')) ->
     tableau_wf s' /\ row_inv (ext_N E) s').
Proof.
  intros HN Hwf Hinv. split; [| split; [| split]].
  - intros fuel base_var num_vars vars coeffs r s' Hinj Hfresh Hrun.
    exact (add_row_sound E fuel base_var num_vars vars coeffs s s' r
             HN Hwf Hinv Hinj Hfresh Hrun).
  - intros v delta s' Hbase Hrun. by eapply update_value_row_inv.
  - intros x y b new_value s' xI yI es_x Hx Hxb Hy Hyb Hes Hin Hcol Hrun.
    exact (pivot_row_inv E x y b new_value s s' xI yI es_x
             HN Hwf Hinv Hx Hxb Hy Hyb Hes Hin Hcol Hrun).
  - intros fuel verdict s' Hon Hsingle Hrun.
    destruct (make_feasible_sound E HN Hon fuel s s' verdict) as (Hwf' & Hinv' & _);
      [split; [exact Hwf | split; [exact Hinv | exact Hsingle]] | exact Hrun |].
    by split.
Qed.

Lemma inexact_example_single : single_rows (M inexact_example).
Proof.
  intros v r r' c c' (es & Hes & _)%elem_of_col_entries (es' & Hes' & _)%elem_of_col_entries.
  apply lookup_lt_Some in Hes, Hes'. cbn in Hes, Hes'. lia.
Qed.

Lemma row_invariant_witness :
  exists s1 s2 verdict s3,
    update_value uint4_ext 1 1 inexact_example = Ok s1 /\ row_inv 4 s1 /\
    pivot uint4_ext 0 1 2 15 inexact_example = Ok s2 /\ row_inv 4 s2 /\
    make_feasible uint4_ext 200 inexact_example = Some (Ok (verdict, s3)) /\ row_inv 4 s3.
Proof.
  destruct (row_invariant uint4_ext inexact_example ltac:(by vm_compute)
              inexact_example_wf (proj2 inexact_example_rows)) as (_ & Hupd & Hpiv & Hmf).
  destruct (update_value uint4_ext 1 1 inexact_example) as [s1|] eqn:Hrun1;
    [| vm_compute in Hrun1; discriminate].
  destruct (pivot uint4_ext 0 1 2 15 inexact_example) as [s2|] eqn:Hrun2;
    [| vm_compute in Hrun2; discriminate].
  destruct (make_feasible uint4_ext 200 inexact_example) as [[[verdict s3]|]|] eqn:Hrun3;
    [| vm_compute in Hrun3; discriminate | vm_compute in Hrun3; discriminate].
  exists s1, s2, verdict, s3. split; [reflexivity |].
  split; [exact (Hupd 1%nat 1 s1 eq_refl Hrun1) |]. split; [reflexivity |].
  split.
  - apply (Hpiv 0%nat 1%nat 2 15 s2 (var_info.mk 0 5 0 true 0) (var_info.mk 0 0 0 false 0)
             [(0%nat, 1); (1%nat, 2)] eq_refl eq_refl eq_refl eq_refl eq_refl);
      [right; left | | exact Hrun2].
    intros rz c Hin. vm_compute in Hin. apply list_elem_of_singleton in Hin.
    by injection Hin.
  - split; [reflexivity |].
    exact (proj2 (Hmf 200%nat verdict s3 eq_refl inexact_example_single Hrun3)).
Defined.

(** Against C2's exact division: the row [2s + v = 0] at [v = 2], [s = 15]
    has the right cached value 2, divided by 2 exactly; [update_value(v, 1)]
    returns with the cached value 3, which 2 does not divide, and leaves [s]
    at [0 - 3 / 2 = 15], where [2 * 15 + 3] is not 0 modulo 16. *)
Lemma row_invariant_counterexample :
  tableau_wf inexact_update_example /\ exact_rows inexact_update_example /\
  row_inv 4 inexact_update_example /\
  row_equation 4 inexact_update_example (row_info.mk 0 2 2) /\
  exists s',
    update_value uint4_ext 1 1 inexact_update_example = Ok s' /\
    update_value uint4_release_ext 1 1 inexact_update_example = Ok s' /\
    m_rows s' !! 0%nat = Some (row_info.mk 0 2 3) /\
    val_of s' 0 = 15 /\
    3 mod 2 <> 0 /\
    ~ exact_rows s' /\
    ~ row_equation 4 s' (row_info.mk 0 2 3).
Proof.
  split; [apply inexact_update_example_rows |].
  split; [apply inexact_update_example_rows |].
  split; [apply inexact_update_example_rows |].
  split; [by vm_compute |].
  eexists. split; [vm_compute; reflexivity |]. split; [vm_compute; reflexivity |].
  split; [reflexivity |]. split; [reflexivity |]. split; [by vm_compute |].
  split; [| by vm_compute].
  intros Hex. specialize (Hex 0%nat _ eq_refl). by vm_compute in Hex.
Qed.

(** Where C2 fails on [make_feasible]: two calls of [add_row] build the
    rows [x + y = 0] and [z + 2y = 0], a tableau that has all the
    invariants, with exact divisions.  [make_feasible] repairs [x] with
    [pivot(x, y, 1, 15)], whose cascade turns the row of [z] into
    [z + y + 15x] with the cached value 1, and returns [l_true], with the
    assertions checked or not.  In the tableau it returns the cached value
    of the row of [z] is 1 where the ring sum of its other entries is 2,
    and the left-hand side of the row is 1, not 0; every division is
    exact. *)
Lemma row_invariant_failure :
  (exists s1,
     add_row uint4_ext 0 0 2 [0%nat; 1%nat] [1; 1] cascade_free_vars
     = Some (Ok (0%nat, s1)) /\
     add_row uint4_ext 0 2 2 [2%nat; 1%nat] [1; 2] s1
     = Some (Ok (1%nat, cascade_free_example))) /\
  tableau_wf cascade_free_example /\ row_inv 4 cascade_free_example /\
  exact_rows cascade_free_example /\
  exists s',
    make_feasible uint4_ext 200 cascade_free_example = Some (Ok (l_true, s')) /\
    make_feasible uint4_release_ext 200 cascade_free_example = Some (Ok (l_true, s')) /\
    m_stats s' = mk_stats 1 1 0 /\
    M s' !! 1%nat = Some [(2%nat, 1); (1%nat, 1); (0%nat, 15)] /\
    m_rows s' !! 1%nat = Some (row_info.mk 2 1 1) /\
    row_sum 4 s' 2 [(2%nat, 1); (1%nat, 1); (0%nat, 15)] = 2 /\
    values s' = [15; 1; 15] /\
    row_eval 4 (val_of s') [(2%nat, 1); (1%nat, 1); (0%nat, 15)] = 1 /\
    exact_rows s' /\
    ~ row_inv 4 s'.
Proof.
  split; [eexists; split; vm_compute; reflexivity |].
  split.
  { split; [| split; [| split]].
    - split; [done |]. split.
      + intros [|[|[|v]]] r; cbn; intros [=]; by subst.
      + intros [|[|r]] v; cbn; intros [=]; by subst.
    - intros [|[|r]] es; cbn; intros [=]; subst; by apply (bool_decide_unpack _).
    - intros [|[|r]] [|[|r']] es e; cbn; intros [=] He [=]; subst; try done;
        repeat (apply elem_of_cons in He as [-> | He]; [done |]); by apply elem_of_nil in He.
    - intros [|[|r]] ri es; cbn; intros [=] [=]; subst; cbn; by left. }
  split; [intros [|[|r]] ri es; cbn; intros [=] [=]; by subst |].
  split; [intros [|[|r]] ri; cbn; intros [=]; by subst |].
  eexists. split; [vm_compute; reflexivity |]. split; [vm_compute; reflexivity |].
  do 6 (split; [reflexivity |]). split.
  - intros [|[|r]] ri; cbn; intros [=]; by subst.
  - intros Hinv. destruct (Hinv 1%nat _ _ eq_refl eq_refl) as [Hsum _].
    by vm_compute in Hsum.
Qed.

(** * Further properties of the code *)

(** ** Wrapping intervals *)

(** X1: for [lo ≠ hi] the intervals [[lo, hi)] and [[hi, lo)] split the
    ring: a value is in one exactly when it is not in the other; [lo] is
    in [[lo, hi)] and [hi] is not. *)
Theorem in_bounds_complement (val lo hi : Z) :
  lo ≠ hi ->
  in_bounds val lo hi = negb (in_bounds val hi lo) /\
  in_bounds lo lo hi = true /\
  in_bounds hi lo hi = false.
Proof.
  intros Hne. unfold in_bounds.
  rewrite (proj2 (Z.eqb_neq lo hi) Hne), (proj2 (Z.eqb_neq hi lo)) by lia.
  repeat split;
    repeat match goal with
           | |- context [?a <? ?b] => destruct (Z.ltb_spec a b)
           | |- context [?a <=? ?b] => destruct (Z.leb_spec a b)
           end; cbn; lia || done.
Qed.

Lemma in_bounds_complement_witness :
  in_bounds 1 9 4 = negb (in_bounds 1 4 9) /\
  in_bounds 9 9 4 = true /\
  in_bounds 4 9 4 = false.
Proof. apply (in_bounds_complement 1 9 4). lia. Defined.

(** ** Registering variables *)

Lemma ensure_var_loop_closed (d : var_info.t) (fuel v : nat) :
  forall vars,
    (S v - length vars <= fuel)%nat ->
    ensure_var_loop d fuel v vars = vars ++ replicate (S v - length vars) d.
Proof.
  induction fuel as [|fuel IH]; intros vars Hfuel; cbn [ensure_var_loop].
  - replace (S v - length vars)%nat with 0%nat by lia. by rewrite app_nil_r.
  - destruct (decide (length vars <= v)%nat) as [Hle | Hgt].
    + rewrite IH by (rewrite length_app; cbn; lia).
      rewrite length_app. cbn [length].
      replace (S v - length vars)%nat with (S (S v - (length vars + 1)))%nat by lia.
      cbn [replicate]. by rewrite <- app_assoc.
    + replace (S v - length vars)%nat with 0%nat by lia. by rewrite app_nil_r.
Qed.

Lemma ensure_var_vars (d : var_info.t) (v : nat) (s : fixplex) :
  m_vars (ensure_var d v s) = m_vars s ++ replicate (S v - length (m_vars s)) d.
Proof. unfold ensure_var. cbn [m_vars set_vars]. apply ensure_var_loop_closed. lia. Qed.

(** X2: [ensure_var(v)] ends with [v] registered: the variables are the
    old ones, each with its record, followed by default records up to [v];
    it adds none when [v] is registered already, so that calling it again,
    or for a smaller variable, changes nothing; the matrix, the rows and the
    To-Patch set are as they were. *)
Theorem ensure_var_registers (d : var_info.t) (v : nat) (s : fixplex) :
  (v < length (m_vars (ensure_var d v s)))%nat /\
  length (m_vars (ensure_var d v s)) = Nat.max (length (m_vars s)) (S v) /\
  (forall u, (u < length (m_vars s))%nat ->
             m_vars (ensure_var d v s) !! u = m_vars s !! u) /\
  (forall u, (length (m_vars s) <= u <= v)%nat ->
             m_vars (ensure_var d v s) !! u = Some d) /\
  ((v < length (m_vars s))%nat -> ensure_var d v s = s) /\
  (forall u, (u <= v)%nat -> ensure_var d u (ensure_var d v s) = ensure_var d v s) /\
  M (ensure_var d v s) = M s /\ m_rows (ensure_var d v s) = m_rows s /\
  m_to_patch (ensure_var d v s) = m_to_patch s.
Proof.
  assert (Hsame : forall s0 u, (u < length (m_vars s0))%nat -> ensure_var d u s0 = s0).
  { intros s0 u Hu. unfold ensure_var, set_vars.
    rewrite ensure_var_loop_closed by lia.
    replace (S u - length (m_vars s0))%nat with 0%nat by lia.
    cbn [replicate]. rewrite app_nil_r. by destruct s0. }
  assert (Hlen : length (m_vars (ensure_var d v s)) = Nat.max (length (m_vars s)) (S v)).
  { rewrite ensure_var_vars, length_app, length_replicate. lia. }
  split; [lia |]. split; [exact Hlen |]. split; [| split; [| split; [| split]]].
  - intros u Hu. by rewrite ensure_var_vars, lookup_app_l.
  - intros u Hu. rewrite ensure_var_vars, lookup_app_r by lia.
    apply lookup_replicate_2. lia.
  - apply Hsame.
  - intros u Hu. apply Hsame. lia.
  - done.
Qed.

(** X3: [ensure_var] keeps the invariants of the tableau when the default
    record is not basic: the basis invariant and the shape of the tableau,
    and the row invariant when every variable of a row was registered. *)
Theorem ensure_var_invariants (N : Z) (d : var_info.t) (v : nat) (s : fixplex) :
  var_info.m_is_base d = false ->
  (basis_inv s -> basis_inv (ensure_var d v s)) /\
  (tableau_wf s -> tableau_wf (ensure_var d v s)) /\
  (row_inv N s ->
   (forall r es e, M s !! r = Some es -> e ∈ es -> is_Some (m_vars s !! fst e)) ->
   (forall r ri, m_rows s !! r = Some ri -> is_Some (m_vars s !! row_info.m_base ri)) ->
   row_inv N (ensure_var d v s)).
Proof.
  intros Hd.
  assert (Hbasis : basis_inv s -> basis_inv (ensure_var d v s)).
  { intros (Hlen & H1 & H2).
    assert (Hbv : basic_vars (ensure_var d v s)
                  = basic_vars s
                    ++ replicate (S v - length (m_vars s)) (false, var_info.m_base2row d)).
    { unfold basic_vars. by rewrite ensure_var_vars, fmap_app, fmap_replicate, Hd. }
    split; [done |]. split.
    - intros u r Hu. rewrite Hbv in Hu.
      apply lookup_app_Some in Hu as [Hu | [_ Hu]]; [by apply H1 |].
      by apply lookup_replicate in Hu as [[=] _].
    - intros r u Hr. rewrite Hbv. apply lookup_app_l_Some. by apply H2. }
  split; [exact Hbasis |]. split.
  - intros (Hb & Hrest). split; [by apply Hbasis | exact Hrest].
  - intros Hinv Hreg Hregb r ri es Hri Hes.
    change (m_rows (ensure_var d v s)) with (m_rows s) in Hri.
    change (M (ensure_var d v s)) with (M s) in Hes.
    assert (Hval : forall u, is_Some (m_vars s !! u) ->
              val_of (ensure_var d v s) u = val_of s u).
    { intros u [i Hi]. unfold val_of.
      by rewrite ensure_var_vars, (lookup_app_l_Some _ _ _ _ Hi), Hi. }
    destruct (Hinv _ _ _ Hri Hes) as [Hc Hv]. split.
    + rewrite Hc. unfold row_sum. do 2 f_equal.
      apply list_eq. intros i. rewrite !list_lookup_fmap.
      destruct (es !! i) as [e|] eqn:He; [| done]. cbn. f_equal.
      apply list_elem_of_lookup_2 in He.
      unfold row_term. destruct (decide _); [done |]. rewrite Hval; [done |].
      by eapply Hreg.
    + rewrite Hval; [done |]. by eapply Hregb.
Qed.

Lemma ensure_var_invariants_witness :
  basis_inv (ensure_var (var_info.mk 0 0 0 false 0) 5 inexact_example) /\
  tableau_wf (ensure_var (var_info.mk 0 0 0 false 0) 5 inexact_example) /\
  row_inv 4 (ensure_var (var_info.mk 0 0 0 false 0) 5 inexact_example).
Proof.
  destruct (ensure_var_invariants 4 (var_info.mk 0 0 0 false 0) 5 inexact_example eq_refl)
    as (Hb & Hwf & Hrow).
  split; [apply Hb, inexact_example_wf |]. split; [apply Hwf, inexact_example_wf |].
  apply Hrow; [apply inexact_example_rows | |].
  - intros [|r] es e; cbn; intros [=] He; subst.
    apply elem_of_cons in He as [-> | He]; [by eexists |].
    apply list_elem_of_singleton in He as ->. by eexists.
  - intros [|r] ri; cbn; intros [=]; subst. by eexists.
Defined.

(** ** The elimination loop *)

(** X5: [gauss_jordan] returns, with the state as it was, exactly when
    [m_base_vars] is empty; when it is not and its last variable is
    registered, the loop has not ended after any number of iterations. *)
Theorem gauss_jordan_ends (s : fixplex) :
  (forall fuel s', gauss_jordan fuel s = Some (Ok s') <-> m_base_vars s = [] /\ s' = s) /\
  (forall fuel v i,
     last (m_base_vars s) = Some v -> m_vars s !! v = Some i ->
     gauss_jordan fuel s = None).
Proof.
  split.
  - intros fuel s'. split.
    + intros H. apply gauss_jordan_Ok in H as [-> H]. by split.
    + intros [Hb ->]. destruct fuel; cbn [gauss_jordan]; by rewrite Hb.
  - intros fuel v i Hlast Hv. by eapply gauss_jordan_diverges.
Qed.

(** ** [add_row] on a variable that is basic already *)

Section add_row_basic.
Context (E : Ext).
Local Abbreviation N := (ext_N E).

(** The filling loop puts in the new row every entry of the arrays with a
    non-zero coefficient. *)
Lemma add_row_fill_holds (vars : list nat) (coeffs : list Z) (m0 : sparse_matrix)
    (l : list nat) :
  forall es0 m',
    foldlM (add_row_fill (length m0) vars coeffs) (m0 ++ [es0]) l = Ok m' ->
    exists es, m' = m0 ++ [es0 ++ es] /\
      forall i v c, i ∈ l -> vars !! i = Some v -> coeffs !! i = Some c -> c ≠ 0 ->
                    (v, c) ∈ es.
Proof.
  induction l as [|i l IH]; intros es0 m' Hrun.
  - injection Hrun as <-. exists []. rewrite app_nil_r. split; [done |].
    intros i v c Hi. by apply elem_of_nil in Hi.
  - cbn [foldlM] in Hrun. apply res_bind_Ok in Hrun as (m1 & Hstep & Hrun).
    unfold add_row_fill in Hstep.
    apply res_bind_Ok in Hstep as (c & Hc & Hstep). apply of_option_Ok in Hc.
    destruct (Z.eqb_spec c 0) as [Hc0 | Hc0].
    + injection Hstep as <-. destruct (IH es0 m' Hrun) as (es & -> & Hall).
      exists es. split; [done |].
      intros j v' c' [-> | Hj]%elem_of_cons Hv' Hc' Hne; [congruence | by eapply Hall].
    + apply res_bind_Ok in Hstep as (v & Hv & Hstep). apply of_option_Ok in Hv.
      injection Hstep as <-. unfold add_var in Hrun.
      rewrite <- (Nat.add_0_r (length m0)), alter_app_r in Hrun. cbn [alter list_alter] in Hrun.
      rewrite Nat.add_0_r in Hrun.
      destruct (IH (es0 ++ [(v, c)]) m' Hrun) as (es & -> & Hall).
      exists ((v, c) :: es). rewrite <- app_assoc. split; [done |].
      intros j v' c' [-> | Hj]%elem_of_cons Hv' Hc' Hne.
      * rewrite Hv in Hv'. rewrite Hc in Hc'. injection Hv' as <-. injection Hc' as <-.
        by left.
      * right. by eapply Hall.
Qed.

(** [add_row] returns a row only when the elimination has nothing to do:
    when no entry off the base variable is on a basic variable. *)
Lemma add_row_Ok_nonbasic (fuel base_var num_vars : nat) (vars : list nat)
    (coeffs : list Z) (s s' : fixplex) (r i v : nat) (c : Z) :
  add_row E fuel base_var num_vars vars coeffs s = Some (Ok (r, s')) ->
  (i < num_vars)%nat -> vars !! i = Some v -> coeffs !! i = Some c -> c ≠ 0 ->
  v ≠ base_var ->
  is_base s v = Ok false.
Proof.
  unfold add_row, mk_row.
  destruct (_ ≫= _) as [s9|] eqn:Hchain; [| discriminate].
  intros Hend Hi Hv Hc Hc0 Hvb.
  assert (Hempty : m_base_vars s9 = []).
  { destruct (m_base_vars s9) eqn:Hbv; [done |].
    destruct (gauss_jordan fuel s9) as [[s10|]|] eqn:Hgj; [| discriminate | discriminate].
    apply gauss_jordan_Ok in Hgj as [_ Hgj]. congruence. }
  clear Hend.
  apply res_bind_Ok in Hchain as (m & Hfill & Hchain).
  change (M (set_base_vars [] s)) with (M s) in Hfill.
  apply add_row_fill_holds in Hfill as (es & -> & Hall).
  cbn [app] in Hchain.
  apply res_bind_Ok in Hchain as (es' & Hes' & Hchain).
  apply of_option_Ok in Hes'. cbn [M set_M] in Hes'.
  rewrite list_lookup_middle in Hes' by done. injection Hes' as <-.
  apply res_bind_Ok in Hchain as ([[bc val] s2] & Hscan & Hchain).
  apply res_bind_Ok in Hchain as (? & _ & Hchain).
  apply res_bind_Ok in Hchain as (? & _ & Hchain).
  apply res_bind_Ok in Hchain as (bI & _ & Hchain).
  apply res_bind_Ok in Hchain as (q & _ & Hchain). injection Hchain as <-.
  revert Hempty. unfold add_patch. proj_simpl. intros Hempty.
  apply add_row_scan_shape in Hscan as (_ & Hnb & _); [| done | done].
  apply (Hnb (v, c)); [| done].
  apply (Hall i); [apply elem_of_seq; lia | done | done | done].
Qed.
End add_row_basic.

(** X6: [add_row] never returns a row when one of its entries, with a
    non-zero coefficient and off the base variable, is on a variable that
    is basic already: the run fails or its elimination loop does not end.
    With the assertions checked the same holds when the base variable
    itself is basic already. *)
Theorem add_row_basic_entry (E : Ext) (fuel base_var num_vars : nat) (vars : list nat)
    (coeffs : list Z) (s : fixplex) :
  (exists i v c,
     (i < num_vars)%nat /\ vars !! i = Some v /\ coeffs !! i = Some c /\ c ≠ 0 /\
     v ≠ base_var /\ is_base s v = Ok true) \/
  (assertions_enabled E = true /\ is_base s base_var = Ok true) ->
  add_row E fuel base_var num_vars vars coeffs s = None \/
  exists e, add_row E fuel base_var num_vars vars coeffs s = Some (Err e).
Proof.
  intros Hpre.
  destruct (add_row E fuel base_var num_vars vars coeffs s) as [[[r s']|e]|] eqn:Hrun;
    [exfalso | right; by exists e | by left].
  destruct Hpre as [(i & v & c & Hi & Hv & Hc & Hc0 & Hvb & Hbase) | [Hon Hbase]].
  - pose proof (add_row_Ok_nonbasic E fuel base_var num_vars vars coeffs s s' r i v c
                  Hrun Hi Hv Hc Hc0 Hvb). congruence.
  - revert Hrun. unfold add_row, mk_row.
    destruct (_ ≫= _) as [s9|] eqn:Hchain; [| discriminate]. intros _.
    apply res_bind_Ok in Hchain as (m & _ & Hchain).
    apply res_bind_Ok in Hchain as (es & _ & Hchain).
    apply res_bind_Ok in Hchain as ([[bc val] s2] & Hscan & Hchain).
    apply add_row_scan_frame in Hscan as (_ & Hv2 & _). cbn in Hv2.
    apply res_bind_Ok in Hchain as (? & _ & Hchain).
    apply res_bind_Ok in Hchain as (? & Hassert & _).
    apply (SASSERT_Ok _ _ _ Hon) in Hassert. unfold is_base in *. rewrite Hv2 in Hassert.
    destruct (of_option _) as [[]|]; cbn in Hassert; congruence.
Qed.

Lemma add_row_basic_entry_witness :
  add_row uint4_ext 7 1 2 [1%nat; 0%nat] [1; 1] inexact_example = None \/
  exists e, add_row uint4_ext 7 1 2 [1%nat; 0%nat] [1; 1] inexact_example = Some (Err e).
Proof.
  apply add_row_basic_entry. left. exists 1%nat, 0%nat, 1.
  split; [lia |]. split; [reflexivity |]. split; [reflexivity |].
  split; [lia |]. split; [lia | reflexivity].
Defined.

(** ** Bounds *)

Ltac bounds_simpl :=
  unfold bounds_of; proj_simpl; rewrite ?fmap_alter_same by done; try done.

Section bounds.
Context (E : Ext).

Lemma update_value_bounds (v : nat) (delta : Z) (s s' : fixplex) :
  update_value E v delta s = Ok s' -> bounds_of s' = bounds_of s.
Proof.
  unfold update_value. destruct (delta =? 0); [by intros [= <-] |]. intros Hrun.
  apply res_bind_Ok in Hrun as (vi & _ & Hrun).
  apply res_bind_Ok in Hrun as (? & _ & Hrun).
  eapply (foldlM_invariant (fun s1 => bounds_of s1 = bounds_of s)); [| | exact Hrun].
  - intros s1 c s2 _ H1 H2. rewrite <- H1. clear H1. unfold update_value_row in H2.
    apply res_bind_Ok in H2 as (ri & _ & H2).
    apply res_bind_Ok in H2 as (q & _ & H2).
    apply res_bind_Ok in H2 as (? & _ & H2).
    injection H2 as <-. unfold add_patch. bounds_simpl.
  - bounds_simpl.
Qed.

Lemma pivot_bounds (x y : nat) (b new_value : Z) (s s' : fixplex) :
  pivot E x y b new_value s = Ok s' -> bounds_of s' = bounds_of s.
Proof.
  intros Hrun.
  apply pivot_Ok in Hrun as (xI & yI & row_x & _ & _ & _ & _ & _ & Hloop).
  eapply (foldlM_invariant (fun s1 => bounds_of s1 = bounds_of s)); [| | exact Hloop].
  - intros s1 col s2 _ H1 H2. rewrite <- H1. clear H1. unfold pivot_row in H2.
    destruct (decide (fst col = _)); [by injection H2 as <- |].
    apply res_bind_Ok in H2 as (row_z & _ & H2).
    apply res_bind_Ok in H2 as (? & _ & H2).
    apply res_bind_Ok in H2 as (? & _ & H2).
    apply res_bind_Ok in H2 as (b1 & _ & H2).
    apply res_bind_Ok in H2 as (cs & _ & H2).
    apply res_bind_Ok in H2 as (row_x' & _ & H2).
    apply res_bind_Ok in H2 as (q & _ & H2).
    apply res_bind_Ok in H2 as (? & _ & H2).
    injection H2 as <-. unfold add_patch. bounds_simpl.
  - unfold pivot_exchange, add_patch. bounds_simpl.
Qed.

Lemma make_var_feasible_bounds (x : nat) (s s' : fixplex) (v : lbool) :
  make_var_feasible E x s = Ok (v, s') -> bounds_of s' = bounds_of s.
Proof.
  unfold make_var_feasible. intros Hrun.
  apply res_bind_Ok in Hrun as ([] & _ & Hrun); [by injection Hrun as _ <- |].
  apply res_bind_Ok in Hrun as (val & _ & Hrun).
  apply res_bind_Ok in Hrun as (l & _ & Hrun).
  apply res_bind_Ok in Hrun as (h & _ & Hrun).
  destruct (new_value_delta E val l h) as [new_value delta].
  apply res_bind_Ok in Hrun as ([[y b] s1] & Hsel & Hrun).
  apply select_pivot_core_state in Hsel as [g ->].
  destruct y as [y|].
  - apply res_bind_Ok in Hrun as (s2 & Hpivot & Hrun). injection Hrun as _ <-.
    by apply pivot_bounds in Hpivot.
  - apply res_bind_Ok in Hrun as (inf & _ & Hrun). by injection Hrun as _ <-.
Qed.

Lemma make_feasible_body_bounds (k nr : Z) (s : fixplex) :
  match make_feasible_body E k nr s with
  | Return (Ok (_, s')) => bounds_of s' = bounds_of s
  | Return (Err _) => True
  | Continue _ s' => bounds_of s' = bounds_of s
  end.
Proof.
  unfold make_feasible_body.
  destruct (select_var_to_fix E s) as [[v|] patch].
  2:{ destruct (SASSERT E _); done. }
  destruct (limit_inc E _) as [ok lim].
  destruct (negb ok || _); [done |].
  destruct (check_blands_rule E v nr _) as [[nr' bland] lb].
  destruct (make_var_feasible E v _) as [[verdict s1]|] eqn:Hrun; [| done].
  apply make_var_feasible_bounds in Hrun.
  by destruct verdict.
Qed.

Lemma make_feasible_loop_bounds (fuel : nat) :
  forall (k nr : Z) (s s' : fixplex) (v : lbool),
    make_feasible_loop E fuel k nr s = Some (Ok (v, s')) -> bounds_of s' = bounds_of s.
Proof.
  induction fuel as [|fuel IH]; intros k nr s s' v; cbn [make_feasible_loop];
    pose proof (make_feasible_body_bounds k nr s) as Hbody;
    destruct (make_feasible_body E k nr s) as [[[v1 s1]|]|nr1 s1]; try discriminate.
  - by intros [= _ <-].
  - by intros [= _ <-].
  - intros H. apply IH in H. congruence.
Qed.

Lemma make_feasible_bounds (fuel : nat) (s s' : fixplex) (v : lbool) :
  make_feasible E fuel s = Some (Ok (v, s')) -> bounds_of s' = bounds_of s.
Proof.
  unfold make_feasible. destruct (SASSERT E _); [| discriminate].
  intros H. by apply make_feasible_loop_bounds in H.
Qed.

Lemma add_row_bounds (fuel base_var num_vars : nat) (vars : list nat) (coeffs : list Z)
    (s s' : fixplex) (r : nat) :
  add_row E fuel base_var num_vars vars coeffs s = Some (Ok (r, s')) ->
  bounds_of s' = bounds_of s.
Proof.
  unfold add_row, mk_row.
  destruct (_ ≫= _) as [s9|] eqn:Hchain; [| discriminate].
  intros Hend.
  assert (Hs9 : s' = s9).
  { destruct (m_base_vars s9).
    - apply (f_equal (fun o => from_option id (Err assertion_violation) o)) in Hend.
      cbn [from_option id] in Hend.
      apply res_bind_Ok in Hend as (? & _ & Hend).
      apply res_bind_Ok in Hend as (? & _ & Hend). by injection Hend as <- <-.
    - destruct (gauss_jordan fuel s9) as [[s10|]|] eqn:Hgj; [| discriminate | discriminate].
      apply gauss_jordan_Ok in Hgj as [-> _].
      apply (f_equal (fun o => from_option id (Err assertion_violation) o)) in Hend.
      cbn [from_option id] in Hend.
      apply res_bind_Ok in Hend as (? & _ & Hend).
      apply res_bind_Ok in Hend as (? & _ & Hend). by injection Hend as <- <-. }
  subst s'. clear Hend.
  apply res_bind_Ok in Hchain as (m & _ & Hchain).
  apply res_bind_Ok in Hchain as (es & _ & Hchain).
  apply res_bind_Ok in Hchain as ([[bc val] s2] & Hscan & Hchain).
  apply add_row_scan_frame in Hscan as (_ & Hv2 & _). cbn in Hv2.
  apply res_bind_Ok in Hchain as (? & _ & Hchain).
  apply res_bind_Ok in Hchain as (? & _ & Hchain).
  apply res_bind_Ok in Hchain as (? & _ & Hchain).
  apply res_bind_Ok in Hchain as (q & _ & Hchain). injection Hchain as <-.
  unfold add_patch. bounds_simpl. by rewrite Hv2.
Qed.
End bounds.

(** X7: no operation changes the bounds of a variable or the number of
    variables: whenever [add_row], [update_value], [pivot],
    [make_var_feasible] or [make_feasible] returns, every variable has the
    [lo] and [hi] it had. *)
Theorem bounds_unchanged (E : Ext) (s : fixplex) :
  (forall fuel base_var num_vars vars coeffs r s',
     add_row E fuel base_var num_vars vars coeffs s = Some (Ok (r, s')) ->
     bounds_of s' = bounds_of s /\ length (m_vars s') = length (m_vars s)) /\
  (forall v delta s',
     update_value E v delta s = Ok s' ->
     bounds_of s' = bounds_of s /\ length (m_vars s') = length (m_vars s)) /\
  (forall x y b new_value s',
     pivot E x y b new_value s = Ok s' ->
     bounds_of s' = bounds_of s /\ length (m_vars s') = length (m_vars s)) /\
  (forall x verdict s',
     make_var_feasible E x s = Ok (verdict, s') ->
     bounds_of s' = bounds_of s /\ length (m_vars s') = length (m_vars s)) /\
  (forall fuel verdict s',
     make_feasible E fuel s = Some (Ok (verdict, s')) ->
     bounds_of s' = bounds_of s /\ length (m_vars s') = length (m_vars s)).
Proof.
  assert (Hlen : forall s', bounds_of s' = bounds_of s ->
            bounds_of s' = bounds_of s /\ length (m_vars s') = length (m_vars s)).
  { intros s' H. split; [done |]. apply (f_equal length) in H. unfold bounds_of in H.
    by rewrite !length_fmap in H. }
  split; [| split; [| split; [| split]]].
  - intros. by eapply Hlen, add_row_bounds.
  - intros. by eapply Hlen, update_value_bounds.
  - intros. by eapply Hlen, pivot_bounds.
  - intros. by eapply Hlen, make_var_feasible_bounds.
  - intros. by eapply Hlen, make_feasible_bounds.
Qed.

(** ** Repairing a variable *)

Section repair.
Context (E : Ext).
Local Abbreviation N := (ext_N E).

(** The candidate of [make_var_feasible] is within the bounds. *)
Lemma candidate_in_bounds (val l h : Z) :
  is_numeral N l -> is_numeral N h ->
  in_bounds val l h = false ->
  in_bounds (fst (new_value_delta E val l h)) l h = true.
Proof.
  intros Hl Hh Hout. unfold is_numeral in *.
  assert (Hne : l ≠ h).
  { intros ->. unfold in_bounds in Hout. by rewrite Z.eqb_refl in Hout. }
  unfold new_value_delta. destruct (_ <? _); cbn [fst].
  - apply in_bounds_true. lia.
  - apply in_bounds_true. unfold nsub.
    destruct (Z.eq_dec h 0) as [-> | Hh0].
    + rewrite (wrap_neg N) by lia. lia.
    + rewrite (wrap_small N) by lia. lia.
Qed.

Lemma make_var_feasible_l_true (x : nat) (s s' : fixplex) (xi : var_info.t) :
  assertions_enabled E = true ->
  basis_inv s ->
  (forall r es, M s !! r = Some es -> NoDup (fst <$> es)) ->
  m_vars s !! x = Some xi ->
  is_numeral N (var_info.m_lo xi) -> is_numeral N (var_info.m_hi xi) ->
  make_var_feasible E x s = Ok (l_true, s') ->
  (in_bounds (var_info.m_value xi) (var_info.m_lo xi) (var_info.m_hi xi) = true /\ s' = s) \/
  (in_bounds (var_info.m_value xi) (var_info.m_lo xi) (var_info.m_hi xi) = false /\
   m_vars s' !! x
   = Some (var_info.mk
             (fst (new_value_delta E (var_info.m_value xi) (var_info.m_lo xi)
                     (var_info.m_hi xi)))
             (var_info.m_lo xi) (var_info.m_hi xi) false (var_info.m_base2row xi))).
Proof.
  intros Hon Hbasis Hnd Hx Hl Hh. unfold make_var_feasible, in_bounds_var, value, lo, hi.
  rewrite Hx. res_simpl. intros Hrun.
  destruct (in_bounds _ _ _) eqn:Hin; [left; by injection Hrun as <- |]. right.
  split; [done |].
  destruct (new_value_delta E _ _ _) as [new_value delta] eqn:Hnv. cbn [fst].
  apply res_bind_Ok in Hrun as ([[y b] s1] & Hsel & Hrun).
  pose proof Hsel as Hstate. apply select_pivot_core_state in Hstate as [g ->].
  destruct y as [y|].
  2:{ apply res_bind_Ok in Hrun as ([] & _ & Hrun); discriminate. }
  apply res_bind_Ok in Hrun as (s2 & Hpivot & Hrun). injection Hrun as <-.
  apply select_pivot_core_eligible in Hsel as (xi' & es & Hx' & Hes & _).
  rewrite Hx in Hx'. injection Hx' as <-.
  pose proof Hpivot as Hpre.
  apply pivot_Ok in Hpre as (xI & yI & row_x & HxI & HyI & Hrow & _ & Hpre & _).
  change (m_vars (set_random g s)) with (m_vars s) in HxI, HyI.
  change (m_rows (set_random g s)) with (m_rows s) in Hrow.
  rewrite Hx in HxI. injection HxI as <-.
  destruct (Hpre Hon) as [Hxb Hyb].
  destruct (pivot_result E x y b new_value (set_random g s) s2 xi yI row_x es)
    as (_ & _ & Hxs & _); done.
Qed.
End repair.

Lemma nearer_example_basis :
  basis_inv nearer_example /\
  forall r es, M nearer_example !! r = Some es -> NoDup (fst <$> es).
Proof.
  split.
  - split; [done |]. split.
    + intros [|[|v]] r; cbn; intros [=]; by subst.
    + intros [|r] v; cbn; intros [=]; by subst.
  - intros [|r] es; cbn; intros [=]; subst; by apply (bool_decide_unpack _).
Qed.

(** X8: with the assertions checked, on a tableau with the basis invariant
    whose rows hold a variable once, a variable [x] with numeral bounds is
    within its bounds whenever [make_var_feasible(x)] returns [l_true]:
    either it was already and nothing changed, or the pivot left it
    non-basic at the candidate value, which is [lo] or [hi - 1]. *)
Theorem make_var_feasible_repairs (E : Ext) (x : nat) (s s' : fixplex) (xi : var_info.t) :
  assertions_enabled E = true ->
  basis_inv s ->
  (forall r es, M s !! r = Some es -> NoDup (fst <$> es)) ->
  m_vars s !! x = Some xi ->
  is_numeral (ext_N E) (var_info.m_lo xi) -> is_numeral (ext_N E) (var_info.m_hi xi) ->
  make_var_feasible E x s = Ok (l_true, s') ->
  in_bounds_var s' x = Ok true /\
  lo s' x = Ok (var_info.m_lo xi) /\ hi s' x = Ok (var_info.m_hi xi) /\
  (in_bounds (var_info.m_value xi) (var_info.m_lo xi) (var_info.m_hi xi) = true -> s' = s) /\
  (in_bounds (var_info.m_value xi) (var_info.m_lo xi) (var_info.m_hi xi) = false ->
   is_base s' x = Ok false /\
   (value s' x = Ok (var_info.m_lo xi) \/
    value s' x = Ok (nsub (ext_N E) (var_info.m_hi xi) 1))).
Proof.
  intros Hon Hbasis Hnd Hx Hl Hh Hrun.
  destruct (make_var_feasible_l_true E x s s' xi Hon Hbasis Hnd Hx Hl Hh Hrun)
    as [[Hin ->] | [Hout Hx']].
  - unfold in_bounds_var, value, lo, hi. rewrite Hx. res_simpl. rewrite Hin.
    split; [done |]. split; [done |]. split; [done |]. split; [done | congruence].
  - unfold in_bounds_var, value, lo, hi, is_base. rewrite Hx'. res_simpl.
    cbn [var_info.m_value var_info.m_lo var_info.m_hi var_info.m_is_base].
    rewrite (candidate_in_bounds E _ _ _ Hl Hh Hout).
    split; [done |]. split; [done |]. split; [done |]. split; [congruence |].
    intros _. split; [done |].
    unfold new_value_delta. destruct (_ <? _); [by left | by right].
Qed.

Lemma make_var_feasible_repairs_witness :
  exists s',
    make_var_feasible uint4_ext 0 nearer_example = Ok (l_true, s') /\
    in_bounds_var s' 0 = Ok true /\ value s' 0 = Ok 7.
Proof.
  destruct (make_var_feasible uint4_ext 0 nearer_example) as [[[] s']|] eqn:Hrun;
    try (vm_compute in Hrun; discriminate).
  exists s'. split; [reflexivity |].
  destruct (make_var_feasible_repairs uint4_ext 0 nearer_example s'
              (var_info.mk 14 4 8 true 0) eq_refl (proj1 nearer_example_basis)
              (proj2 nearer_example_basis) eq_refl) as (Hin & _ & _ & _ & Hout);
    [split; by vm_compute | split; by vm_compute | exact Hrun |].
  split; [exact Hin |].
  destruct (Hout eq_refl) as [_ [Hv | Hv]]; [| exact Hv].
  vm_compute in Hrun. injection Hrun as <-. vm_compute in Hv. discriminate.
Defined.

(** ** The candidate of [make_var_feasible] and the loop *)

Section candidate.
Context (E : Ext).
Local Abbreviation N := (ext_N E).

(** A variable of the To-Patch set that is within its bounds: the loop
    goes on with the tableau as it was and the To-Patch set as
    [select_var_to_fix] left it. *)
Lemma make_feasible_body_in_bounds (k nr : Z) (s : fixplex) (x : nat) (xi : var_info.t)
    (patch : list nat) (lim : Z) :
  m_vars s !! x = Some xi ->
  in_bounds (var_info.m_value xi) (var_info.m_lo xi) (var_info.m_hi xi) = true ->
  select_var_to_fix E s = (Some x, patch) ->
  limit_inc E (m_limit s) = (true, lim) ->
  k <= m_max_iterations E ->
  exists nr' s',
    make_feasible_body E k nr s = Continue nr' s' /\
    tableau_view s' = tableau_view s /\ m_to_patch s' = patch /\
    m_stats s' = m_stats s.
Proof.
  intros Hx Hin Hsel Hlim Hk. unfold make_feasible_body. rewrite Hsel.
  cbn [m_limit set_to_patch]. rewrite Hlim.
  destruct (Z.gtb_spec k (m_max_iterations E)) as [Hgt | _]; [lia |]. cbn [negb orb].
  destruct (check_blands_rule E x nr _) as [[nr' bland] lb].
  erewrite make_var_feasible_in_bounds; [| exact Hx | exact Hin].
  eexists _, _. split; [reflexivity |]. by repeat split.
Qed.

(** What [make_var_feasible] does with a variable outside its bounds. *)
Lemma make_var_feasible_out (x : nat) (s : fixplex) (xi : var_info.t) :
  m_vars s !! x = Some xi ->
  in_bounds (var_info.m_value xi) (var_info.m_lo xi) (var_info.m_hi xi) = false ->
  make_var_feasible E x s
  = (let nd := new_value_delta E (var_info.m_value xi) (var_info.m_lo xi)
                 (var_info.m_hi xi) in
     '(y, b, s1) ← select_pivot_core E x (snd nd) (fst nd) s;
     match y with
     | None => inf ← is_infeasible_row E x s1;
               Ok (if inf : bool then l_false else l_undef, s1)
     | Some y => s2 ← pivot E x y b (fst nd) s1; Ok (l_true, s2)
     end).
Proof.
  intros Hx Hout. unfold make_var_feasible, in_bounds_var, value, lo, hi.
  rewrite Hx. res_simpl. rewrite Hout.
  by destruct (new_value_delta E _ _ _).
Qed.
End candidate.

Lemma lower_example_basis :
  basis_inv lower_example /\
  forall r es, M lower_example !! r = Some es -> NoDup (fst <$> es).
Proof.
  split.
  - split; [done |]. split.
    + intros [|[|v]] r; cbn; intros [=]; by subst.
    + intros [|r] v; cbn; intros [=]; by subst.
  - intros [|r] es; cbn; intros [=]; subst; by apply (bool_decide_unpack _).
Qed.

(** C7, as the code has it: a variable of the To-Patch set that is within
    its bounds is dropped and the loop goes on with no pivot:
    [make_var_feasible] returns [l_true] with the state as it was and the
    iteration continues with the tableau unchanged and the To-Patch set as
    [select_var_to_fix] left it.  For a variable outside its bounds, with
    [up] the distance from the value up to [lo] and [down] the distance
    from the value down to [hi], the candidate is [lo] when [up < down] and
    [hi - 1] otherwise; it is the value [make_var_feasible] hands to the
    pivot selection and to [pivot], and the value the variable has when
    [make_var_feasible] has pivoted.  The step to [hi - 1] is [down + 1],
    so the candidate is the nearer of [lo] and [hi - 1] unless
    [up = down]: then it is [hi - 1], one step further than [lo]. *)
Theorem make_var_feasible_candidate (E : Ext) (x : nat) (s : fixplex) (xi : var_info.t) :
  0 <= ext_N E ->
  m_vars s !! x = Some xi ->
  is_numeral (ext_N E) (var_info.m_value xi) ->
  is_numeral (ext_N E) (var_info.m_lo xi) ->
  is_numeral (ext_N E) (var_info.m_hi xi) ->
  let val := var_info.m_value xi in
  let l := var_info.m_lo xi in
  let h := var_info.m_hi xi in
  let up := nsub (ext_N E) l val in
  let down := nsub (ext_N E) val h in
  let new_value := if up <? down then l else nsub (ext_N E) h 1 in
  let delta := if up <? down then up else nsub (ext_N E) val (nsub (ext_N E) h 1) in
  (in_bounds val l h = true ->
   make_var_feasible E x s = Ok (l_true, s) /\
   forall k nr patch lim,
     select_var_to_fix E s = (Some x, patch) ->
     limit_inc E (m_limit s) = (true, lim) ->
     k <= m_max_iterations E ->
     exists nr' s',
       make_feasible_body E k nr s = Continue nr' s' /\
       tableau_view s' = tableau_view s /\ m_to_patch s' = patch /\
       m_stats s' = m_stats s) /\
  (in_bounds val l h = false ->
   make_var_feasible E x s
   = ('(y, b, s1) ← select_pivot_core E x delta new_value s;
      match y with
      | None => inf ← is_infeasible_row E x s1;
                Ok (if inf : bool then l_false else l_undef, s1)
      | Some y => s2 ← pivot E x y b new_value s1; Ok (l_true, s2)
      end) /\
   (forall s',
      assertions_enabled E = true -> basis_inv s ->
      (forall r es, M s !! r = Some es -> NoDup (fst <$> es)) ->
      make_var_feasible E x s = Ok (l_true, s') ->
      value s' x = Ok new_value /\ is_base s' x = Ok false) /\
   nsub (ext_N E) val (nsub (ext_N E) h 1) = down + 1 /\
   (up <> down -> delta <= up /\ delta <= down + 1) /\
   (up = down -> new_value = nsub (ext_N E) h 1 /\ delta = up + 1)).
Proof.
  intros HN Hx Hv Hl Hh val l h up down new_value delta. split.
  - intros Hin. split; [by eapply make_var_feasible_in_bounds |].
    intros k nr patch lim Hsel Hlim Hk.
    by eapply make_feasible_body_in_bounds.
  - intros Hout.
    assert (Hnd : new_value_delta E val l h = (new_value, delta)).
    { unfold new_value_delta, new_value, delta, up, down. by destruct (_ <? _). }
    pose proof (step_down_succ E HN val l h Hv Hl Hh Hout) as Hstep. fold down in Hstep.
    split; [| split; [| split; [exact Hstep | split]]].
    + rewrite (make_var_feasible_out E x s xi Hx Hout). fold val l h. by rewrite Hnd.
    + intros s' Hon Hbasis Hnd' Hrun.
      destruct (make_var_feasible_l_true E x s s' xi Hon Hbasis Hnd' Hx Hl Hh Hrun)
        as [[Hin _] | [_ Hx']]; [fold val l h in Hin; congruence |].
      fold val l h in Hx'. rewrite Hnd in Hx'. unfold value, is_base. by rewrite Hx'.
    + intros Hne. unfold delta. destruct (Z.ltb_spec up down); lia.
    + intros Heq. unfold new_value, delta. destruct (Z.ltb_spec up down); [lia |].
      split; [done | lia].
Qed.

Lemma make_var_feasible_candidate_witness :
  (exists s', make_var_feasible uint4_ext 0 nearer_example = Ok (l_true, s') /\
              value s' 0 = Ok 7) /\
  (exists s', make_var_feasible uint4_ext 0 lower_example = Ok (l_true, s') /\
              value s' 0 = Ok 4) /\
  (exists nr' s', make_feasible_body uint4_ext 0 0 settled_example = Continue nr' s' /\
                  tableau_view s' = tableau_view settled_example /\ m_to_patch s' = []).
Proof.
  split; [| split].
  - destruct (make_var_feasible uint4_ext 0 nearer_example) as [[[] s']|] eqn:Hrun;
      try (vm_compute in Hrun; discriminate).
    exists s'. split; [reflexivity |].
    destruct (make_var_feasible_candidate uint4_ext 0 nearer_example
                (var_info.mk 14 4 8 true 0) ltac:(cbn; lia) eq_refl
                ltac:(unfold is_numeral; cbn; lia) ltac:(unfold is_numeral; cbn; lia)
                ltac:(unfold is_numeral; cbn; lia)) as [_ Hout].
    destruct (Hout eq_refl) as (_ & Hvalue & _).
    exact (proj1 (Hvalue s' eq_refl (proj1 nearer_example_basis)
                    (proj2 nearer_example_basis) Hrun)).
  - destruct (make_var_feasible uint4_ext 0 lower_example) as [[[] s']|] eqn:Hrun;
      try (vm_compute in Hrun; discriminate).
    exists s'. split; [reflexivity |].
    destruct (make_var_feasible_candidate uint4_ext 0 lower_example
                (var_info.mk 1 4 8 true 0) ltac:(cbn; lia) eq_refl
                ltac:(unfold is_numeral; cbn; lia) ltac:(unfold is_numeral; cbn; lia)
                ltac:(unfold is_numeral; cbn; lia)) as [_ Hout].
    destruct (Hout eq_refl) as (_ & Hvalue & _).
    exact (proj1 (Hvalue s' eq_refl (proj1 lower_example_basis)
                    (proj2 lower_example_basis) Hrun)).
  - destruct (make_var_feasible_candidate uint4_ext 0 settled_example
                (var_info.mk 6 4 8 true 0) ltac:(cbn; lia) eq_refl
                ltac:(unfold is_numeral; cbn; lia) ltac:(unfold is_numeral; cbn; lia)
                ltac:(unfold is_numeral; cbn; lia)) as [Hin _].
    destruct (Hin eq_refl) as [_ Hloop].
    destruct (Hloop 0 0 [] 1 eq_refl eq_refl ltac:(cbn; lia))
      as (nr' & s' & Hbody & Hview & Hpatch & _).
    by exists nr', s'.
Defined.

(** C7, as the claim states it, fails: at 14 with bounds [[4,8)] over
    4-bit numerals the bound [lo = 4] is six steps away and [hi - 1 = 7]
    seven, and the candidate is 7; [make_var_feasible] moves the variable
    there. *)
Lemma nearer_bound_counterexample :
  in_bounds 14 4 8 = false /\
  new_value_delta uint4_ext 14 4 8 = (7, 7) /\
  step_magnitude 4 14 4 = 6 /\ step_magnitude 4 14 7 = 7 /\
  (exists s', make_var_feasible uint4_ext 0 nearer_example = Ok (l_true, s') /\
              value s' 0 = Ok 7) /\
  ~ (forall val l h nv d,
       in_bounds val l h = false -> new_value_delta uint4_ext val l h = (nv, d) ->
       step_magnitude 4 val nv <= step_magnitude 4 val l /\
       step_magnitude 4 val nv <= step_magnitude 4 val (nsub 4 h 1)).
Proof.
  repeat split; try reflexivity.
  - eexists. split; [vm_compute; reflexivity | reflexivity].
  - intros H. destruct (H 14 4 8 7 7 eq_refl eq_refl) as [H1 _].
    vm_compute in H1. by apply H1.
Qed.

(** ** When the pivot selection gives up *)

Section select_pivot_complete.
Context (E : Ext).
Local Abbreviation N := (ext_N E).

(** One step of the selection on an entry that passes the gate: the entry
    is taken when none was before, and a variable that is taken is
    registered. *)
Lemma select_pivot_step_found (x : nat) (new_value row_value : Z) (s : fixplex)
    (st st' : pivot_choice) (e : row_entry) :
  select_pivot_step E x new_value row_value s st e = Ok st' ->
  ((result st < get_num_vars s)%nat -> (result st' < get_num_vars s)%nat) /\
  (best_so_far st = INT_MAX ->
   (best_so_far st' = INT_MAX /\ result st' = result st /\
    (fst e = x \/ has_minimal_trailing_zeros E (fst e) (snd e) s = false)) \/
   (result st' < get_num_vars s)%nat).
Proof.
  unfold select_pivot_step.
  destruct (decide (x = fst e)) as [Hx | Hx];
    [intros [= <-]; split; [done | intros ?; left; by repeat split; [| left]] |].
  destruct (has_minimal_trailing_zeros E (fst e) (snd e) s) eqn:Hmin;
    [| intros [= <-]; split; [done | intros ?; left; by repeat split; [| right]]].
  cbn [negb]. intros Hrun.
  apply res_bind_Ok in Hrun as (vy & Hvy & Hrun).
  assert (Hreg : (fst e < get_num_vars s)%nat).
  { unfold value in Hvy. unfold get_num_vars.
    destruct (m_vars s !! fst e) as [i|] eqn:Hi; [| discriminate].
    by eapply lookup_lt_Some. }
  apply res_bind_Ok in Hrun as (new_y & _ & Hrun).
  apply res_bind_Ok in Hrun as (ly & _ & Hrun).
  apply res_bind_Ok in Hrun as (hy & _ & Hrun).
  split.
  - intros Hlt.
    repeat match type of Hrun with
           | (if ?c then _ else _) = _ => destruct c
           | (let '(_, _) := ?p in _) = _ => destruct p
           end;
      injection Hrun as <-; done.
  - intros Hbest. right. rewrite Hbest, Z.eqb_refl in Hrun. by injection Hrun as <-.
Qed.

Lemma select_pivot_loop_found (x : nat) (new_value row_value : Z) (s : fixplex)
    (es : list row_entry) :
  forall st st',
    foldlM (select_pivot_step E x new_value row_value s) st es = Ok st' ->
    ((result st < get_num_vars s)%nat -> (result st' < get_num_vars s)%nat) /\
    (best_so_far st = INT_MAX ->
     (forall e, e ∈ es ->
                fst e = x \/ has_minimal_trailing_zeros E (fst e) (snd e) s = false) \/
     (result st' < get_num_vars s)%nat).
Proof.
  induction es as [|e es IH]; intros st st' Hrun.
  - injection Hrun as <-. split; [done |]. intros _. left. intros e He.
    by apply elem_of_nil in He.
  - cbn [foldlM] in Hrun. apply res_bind_Ok in Hrun as (st1 & Hstep & Hrun).
    apply select_pivot_step_found in Hstep as [Hkeep Hfirst].
    destruct (IH _ _ Hrun) as [Hkeep' Hrest]. split; [auto |].
    intros Hbest. destruct (Hfirst Hbest) as [(Hbest1 & _ & Hskip) | Hfound]; [| auto].
    destruct (Hrest Hbest1) as [Hnone | Hfound]; [| auto].
    left. intros e' [-> | He']%elem_of_cons; [done | by apply Hnone].
Qed.
End select_pivot_complete.

(** X9: [select_pivot_core] changes nothing but the state of the random
    generator; a variable it returns is registered and is not [x]; and it
    returns [null_var] only when no entry of the row of [x], other than [x],
    passes the eligibility gate. *)
Theorem select_pivot_core_complete (E : Ext) (x : nat) (delta new_value : Z) (s : fixplex) :
  (forall y b s',
     select_pivot_core E x delta new_value s = Ok (y, b, s') ->
     exists g, s' = set_random g s) /\
  (forall y b s',
     select_pivot_core E x delta new_value s = Ok (Some y, b, s') ->
     (y < get_num_vars s)%nat /\ y ≠ x) /\
  (forall b s',
     select_pivot_core E x delta new_value s = Ok (None, b, s') ->
     exists xi es,
       m_vars s !! x = Some xi /\ M s !! var_info.m_base2row xi = Some es /\
       forall e, e ∈ es -> fst e ≠ x ->
                 has_minimal_trailing_zeros E (fst e) (snd e) s = false).
Proof.
  split; [| split].
  - intros y b s' Hrun. by eapply select_pivot_core_state.
  - intros y b s' Hrun. split.
    + revert Hrun. unfold select_pivot_core. intros Hrun.
      apply res_bind_Ok in Hrun as (_ & _ & Hrun).
      apply res_bind_Ok in Hrun as (xi & _ & Hrun).
      apply res_bind_Ok in Hrun as (ri & _ & Hrun).
      apply res_bind_Ok in Hrun as (es & _ & Hrun).
      apply res_bind_Ok in Hrun as (st & _ & Hrun).
      destruct (decide (result st < get_num_vars s)%nat) as [Hlt|]; [| discriminate].
      by injection Hrun as <- _ _.
    + by apply select_pivot_core_eligible in Hrun as (xi & es & _ & _ & _ & Hne & _).
  - intros b s'. unfold select_pivot_core. intros Hrun.
    apply res_bind_Ok in Hrun as (_ & _ & Hrun).
    apply res_bind_Ok in Hrun as (xi & Hxi & Hrun).
    apply res_bind_Ok in Hrun as (ri & _ & Hrun).
    apply res_bind_Ok in Hrun as (es & Hes & Hrun).
    apply res_bind_Ok in Hrun as (st & Hloop & Hrun).
    apply of_option_Ok in Hxi, Hes. exists xi, es. split; [done |]. split; [done |].
    destruct (decide (result st < get_num_vars s)%nat) as [|Hge]; [discriminate |].
    apply select_pivot_loop_found in Hloop as [_ Hloop].
    destruct (Hloop eq_refl) as [Hnone | Hfound]; [| done].
    intros e He Hne. by destruct (Hnone e He).
Qed.

(** ** The infeasible verdict *)

Section verdict.
Context (E : Ext).
Local Abbreviation N := (ext_N E).

(** A loop that proves the row infeasible has read the bounds of every
    entry. *)
Lemma is_infeasible_row_loop_bounds (s : fixplex) (es : list row_entry) :
  forall lo_s hi_s diff,
    is_infeasible_row_loop E s es lo_s hi_s diff = Ok true ->
    is_Some (row_bounds s es).
Proof.
  induction es as [|e es IH]; intros lo_s hi_s diff Hrun; [by eexists |].
  cbn [is_infeasible_row_loop] in Hrun.
  apply res_bind_Ok in Hrun as (l & Hl & Hrun).
  apply res_bind_Ok in Hrun as (h & _ & Hrun).
  destruct (l =? h); [discriminate |].
  destruct (signed_mul E _ _); [| discriminate].
  destruct (signed_add E _ _); [| discriminate].
  apply IH in Hrun as [bs Hbs].
  unfold lo in Hl. destruct (m_vars s !! fst e) as [i|] eqn:Hi; [| discriminate].
  unfold row_bounds in *. cbn. rewrite Hi. cbn. rewrite Hbs. by eexists.
Qed.

Lemma pivot_infeasible_var (x y : nat) (b new_value : Z) (s s' : fixplex) :
  pivot E x y b new_value s = Ok s' -> m_infeasible_var s' = m_infeasible_var s.
Proof.
  intros Hrun.
  apply pivot_Ok in Hrun as (xI & yI & row_x & _ & _ & _ & _ & _ & Hloop).
  eapply (foldlM_invariant (fun s1 => m_infeasible_var s1 = m_infeasible_var s));
    [| | exact Hloop].
  - intros s1 col s2 _ H1 H2. rewrite <- H1. clear H1. unfold pivot_row in H2.
    destruct (decide (fst col = _)); [by injection H2 as <- |].
    apply res_bind_Ok in H2 as (row_z & _ & H2).
    apply res_bind_Ok in H2 as (? & _ & H2).
    apply res_bind_Ok in H2 as (? & _ & H2).
    apply res_bind_Ok in H2 as (b1 & _ & H2).
    apply res_bind_Ok in H2 as (cs & _ & H2).
    apply res_bind_Ok in H2 as (row_x' & _ & H2).
    apply res_bind_Ok in H2 as (q & _ & H2).
    apply res_bind_Ok in H2 as (? & _ & H2).
    by injection H2 as <-.
  - reflexivity.
Qed.

(** [make_var_feasible] does not touch the recorded infeasible variable;
    when it answers [l_false] it has changed nothing of the tableau and
    [is_infeasible_row] has answered true. *)
Lemma make_var_feasible_verdict (x : nat) (s s' : fixplex) (v : lbool) :
  make_var_feasible E x s = Ok (v, s') ->
  m_infeasible_var s' = m_infeasible_var s /\
  (v = l_false -> tableau_view s' = tableau_view s /\ is_infeasible_row E x s' = Ok true).
Proof.
  unfold make_var_feasible. intros Hrun.
  apply res_bind_Ok in Hrun as ([] & _ & Hrun); [by injection Hrun as <- <- |].
  apply res_bind_Ok in Hrun as (val & _ & Hrun).
  apply res_bind_Ok in Hrun as (l & _ & Hrun).
  apply res_bind_Ok in Hrun as (h & _ & Hrun).
  destruct (new_value_delta E val l h) as [new_value delta].
  apply res_bind_Ok in Hrun as ([[y b] s1] & Hsel & Hrun).
  apply select_pivot_core_state in Hsel as [g ->].
  destruct y as [y|].
  - apply res_bind_Ok in Hrun as (s2 & Hpivot & Hrun). injection Hrun as <- <-.
    split; [| done]. by apply pivot_infeasible_var in Hpivot.
  - apply res_bind_Ok in Hrun as (inf & Hinf & Hrun). injection Hrun as <- <-.
    split; [done |]. destruct inf; [done | discriminate].
Qed.

Lemma make_feasible_body_verdict (k nr : Z) (s : fixplex) :
  match make_feasible_body E k nr s with
  | Return (Ok (l_false, s')) =>
      exists v s1, m_infeasible_var s' = Some v /\ tableau_view s' = tableau_view s1 /\
                   is_infeasible_row E v s1 = Ok true
  | Return (Ok (_, s')) => m_infeasible_var s' = m_infeasible_var s
  | Return (Err _) => True
  | Continue _ s' => m_infeasible_var s' = m_infeasible_var s
  end.
Proof.
  unfold make_feasible_body.
  destruct (select_var_to_fix E s) as [[v|] patch].
  2:{ destruct (SASSERT E _); done. }
  destruct (limit_inc E _) as [ok lim].
  destruct (negb ok || _); [done |].
  destruct (check_blands_rule E v nr _) as [[nr' bland] lb].
  destruct (make_var_feasible E v _) as [[verdict s1]|] eqn:Hrun; [| done].
  apply make_var_feasible_verdict in Hrun as [Hkeep Hfalse].
  destruct verdict; [| done | done].
  exists v, s1. destruct (Hfalse eq_refl) as [_ Hinf]. by repeat split.
Qed.

Lemma make_feasible_loop_verdict (fuel : nat) :
  forall (k nr : Z) (s s' : fixplex) (verdict : lbool),
    make_feasible_loop E fuel k nr s = Some (Ok (verdict, s')) ->
    match verdict with
    | l_false =>
        exists v s1, m_infeasible_var s' = Some v /\ tableau_view s' = tableau_view s1 /\
                     is_infeasible_row E v s1 = Ok true
    | _ => m_infeasible_var s' = m_infeasible_var s
    end.
Proof.
  induction fuel as [|fuel IH]; intros k nr s s' verdict; cbn [make_feasible_loop];
    pose proof (make_feasible_body_verdict k nr s) as Hbody;
    destruct (make_feasible_body E k nr s) as [[[v1 s1]|]|nr1 s1]; try discriminate.
  - intros [= <- <-]. by destruct v1.
  - intros [= <- <-]. by destruct v1.
  - intros H. apply IH in H. destruct verdict; [done | congruence | congruence].
Qed.
End verdict.

(** X10: when [make_feasible] returns [l_true] or [l_undef] no infeasible
    variable is recorded; when it returns [l_false] the recorded variable
    [v] is registered and, for the row it points at, the bounds of every
    entry are constrained and [0 < lo_sum <= hi_sum]; with checks that
    detect overflow of the unsigned result and numerals as bounds and
    coefficients, no assignment of the variables within their bounds solves
    the equation of that row. *)
Theorem make_feasible_infeasible (E : Ext) (fuel : nat) (s s' : fixplex) (verdict : lbool) :
  make_feasible E fuel s = Some (Ok (verdict, s')) ->
  (verdict ≠ l_false -> m_infeasible_var s' = None) /\
  (verdict = l_false ->
   exists v xi es bs,
     m_infeasible_var s' = Some v /\ m_vars s' !! v = Some xi /\
     M s' !! var_info.m_base2row xi = Some es /\ row_bounds s' es = Some bs /\
     Forall constrained bs /\
     0 < lo_sum (ext_N E) bs /\ lo_sum (ext_N E) bs <= hi_sum (ext_N E) bs /\
     (0 <= ext_N E ->
      (forall a c, signed_mul E a c = checked_mul (ext_N E) a c) ->
      (forall a c, signed_add E a c = checked_add (ext_N E) a c) ->
      Forall (numeral_bounds (ext_N E)) bs ->
      forall val, within_bounds (ext_N E) s' val es -> row_eval (ext_N E) val es ≠ 0)).
Proof.
  unfold make_feasible. destruct (SASSERT E _); [| discriminate]. intros Hrun.
  apply make_feasible_loop_verdict in Hrun.
  split; [intros Hne; by destruct verdict |].
  intros ->. destruct Hrun as (v & s1 & Hv & [= HM HV HR] & Hinf).
  unfold is_infeasible_row in Hinf.
  apply res_bind_Ok in Hinf as (? & _ & Hinf).
  apply res_bind_Ok in Hinf as (xi & Hxi & Hinf). apply of_option_Ok in Hxi.
  apply res_bind_Ok in Hinf as (? & _ & Hinf).
  apply res_bind_Ok in Hinf as (es & Hes & Hinf). apply of_option_Ok in Hes.
  destruct (is_infeasible_row_loop_bounds E s1 es 0 0 0 Hinf) as [bs Hbs].
  destruct (is_infeasible_row_loop_spec E s1 es bs 0 0 0 Hbs) as (b & Hb & Hiff).
  rewrite Hinf in Hb. injection Hb as <-.
  destruct (proj1 Hiff eq_refl) as (Hcon & Hd & Hlo & Hhi).
  exists v, xi, es, bs. rewrite HV, HM.
  split; [done |]. split; [done |]. split; [done |].
  split; [unfold row_bounds in *; by rewrite HV |].
  split; [done |]. split; [done |]. split; [done |].
  intros HN Hmul Hadd Hnum val Hval.
  eapply (infeasible_sound (ext_N E) HN E s1 val es bs); try done.
  unfold within_bounds in *. by rewrite <- HV.
Qed.

Lemma make_feasible_infeasible_witness :
  exists s',
    make_feasible uint4_ext 200 stuck_example = Some (Ok (l_false, s')) /\
    m_infeasible_var s' = Some 0%nat /\
    forall val, within_bounds 4 s' val [(0%nat, 1); (1%nat, 2)] ->
                row_eval 4 val [(0%nat, 1); (1%nat, 2)] ≠ 0.
Proof.
  destruct (make_feasible uint4_ext 200 stuck_example) as [[[[] s']|]|] eqn:Hrun;
    try (vm_compute in Hrun; discriminate).
  exists s'. split; [reflexivity |].
  destruct (make_feasible_infeasible uint4_ext 200 stuck_example s' l_false Hrun)
    as [_ Hfalse].
  destruct (Hfalse eq_refl) as (v & xi & es & bs & Hv & Hxi & Hes & Hbs & _ & _ & _ & Hsound).
  vm_compute in Hrun. injection Hrun as <-.
  cbn in Hv. injection Hv as <-. cbn in Hxi. injection Hxi as <-.
  cbn in Hes. injection Hes as <-. cbn in Hbs. injection Hbs as <-.
  split; [reflexivity |].
  apply Hsound; [by vm_compute | reflexivity | reflexivity |].
  repeat constructor; by vm_compute.
Defined.

(** ** The effect of [update_value] *)

Section update_value_step_effect.
Context (E : Ext).
Local Abbreviation N := (ext_N E).

(** What [update_value] with a non-zero [delta] does to a non-basic
    variable [v], to the rows that hold it and to their base variables. *)
Lemma update_value_step (v : nat) (delta : Z) (s s' : fixplex) (vi : var_info.t) :
  basis_inv s ->
  (forall r es, M s !! r = Some es -> NoDup (fst <$> es)) ->
  m_vars s !! v = Some vi -> var_info.m_is_base vi = false ->
  (delta =? 0) = false ->
  update_value E v delta s = Ok s' ->
  M s' = M s /\
  val_of s' v = nadd N (var_info.m_value vi) delta /\
  (forall r, r ∉ fst <$> col_entries v (M s) -> m_rows s' !! r = m_rows s !! r) /\
  (forall u, u ≠ v ->
     (forall col ri, col ∈ col_entries v (M s) -> m_rows s !! fst col = Some ri ->
                     row_info.m_base ri ≠ u) ->
     m_vars s' !! u = m_vars s !! u) /\
  (forall r c, (r, c) ∈ col_entries v (M s) ->
     exists ri,
       m_rows s !! r = Some ri /\
       m_rows s' !! r
       = Some (row_info.set_value (nadd N (row_info.m_value ri) (nmul N delta c)) ri) /\
       val_of s' (row_info.m_base ri)
       = nsub N 0 (nadd N (row_info.m_value ri) (nmul N delta c)
                   / row_info.m_base_coeff ri)).
Proof.
  intros Hbasis Hnd Hvi Hvb Hdelta. unfold update_value. rewrite Hdelta. intros Hrun.
  apply res_bind_Ok in Hrun as (vi' & Hvi' & Hrun). apply of_option_Ok in Hvi'.
  rewrite Hvi in Hvi'. injection Hvi' as <-.
  apply res_bind_Ok in Hrun as (? & _ & Hrun).
  revert Hrun. proj_simpl. intros Hrun.
  destruct (basis_inv_owner s Hbasis) as [_ Hdist].
  destruct Hbasis as (Hlen & Hb1 & Hb2).
  set (s1 := set_var v (var_info.set_value (nadd N (var_info.m_value vi) delta)) s) in *.
  apply update_value_loop_effect in Hrun as (HM & HF & HV & HE);
    [| by apply col_entries_NoDup | exact Hdist].
  change (M s1) with (M s) in HM. change (m_rows s1) with (m_rows s) in HF, HV, HE.
  assert (Hvbase : forall r ri, m_rows s !! r = Some ri -> row_info.m_base ri ≠ v).
  { intros r ri Hri Heq. apply row_bases_lookup, Hb2 in Hri.
    unfold basic_vars in Hri. rewrite Heq, list_lookup_fmap, Hvi in Hri. cbn in Hri.
    congruence. }
  split; [exact HM |]. split; [| split; [exact HF | split]].
  - unfold val_of. rewrite HV.
    + unfold s1. proj_simpl. by rewrite list_lookup_alter_eq, Hvi.
    + intros col ri _ Hri. by eapply Hvbase.
  - intros u Hu Hnb. rewrite HV by done. unfold s1. proj_simpl.
    by apply list_lookup_alter_ne.
  - intros r c Hcol. destruct (HE _ Hcol) as (ri & Hri & Hnew & Hbv). by exists ri.
Qed.

Lemma wrap_mul_l (a b : Z) : wrap N (wrap N a * b) = wrap N (a * b).
Proof. unfold wrap, modulus. by rewrite Zmult_mod_idemp_l. Qed.

(** The value the code gives a base variable leaves, in the equation of its
    row, the remainder of the division. *)
Lemma base_value_residual (val bc : Z) :
  is_numeral N val -> is_numeral N bc -> bc ≠ 0 ->
  nadd N (nmul N bc (nsub N 0 (val / bc))) val = val mod bc.
Proof.
  unfold is_numeral. intros Hval Hbc Hne. unfold nadd, nmul, nsub.
  rewrite (Z.mul_comm bc), wrap_mul_l, (wrap_add_l N).
  replace ((0 - val / bc) * bc + val) with (val mod bc)
    by (rewrite (Z.mod_eq val bc) by done; ring).
  apply (wrap_small N). pose proof (Z.mod_pos_bound val bc). lia.
Qed.
End update_value_step_effect.

(** X11: [update_value(v, delta)] with a non-zero [delta] on a non-basic
    variable of a tableau with the basis invariant, whose rows hold a
    variable once: the matrix is unchanged; [v] is at its value plus
    [delta]; a row that does not hold [v] keeps its record; a variable that
    is neither [v] nor the base of a row that holds [v] keeps its record;
    and a row that holds [v] with coefficient [c] has the cached value
    [cached + delta * c] and its base variable at [0 - cached / base_coeff],
    which satisfies the equation of the row exactly when the base
    coefficient divides the new cached value. *)
Theorem update_value_effect (E : Ext) (v : nat) (delta : Z) (s s' : fixplex)
    (vi : var_info.t) :
  basis_inv s ->
  (forall r es, M s !! r = Some es -> NoDup (fst <$> es)) ->
  m_vars s !! v = Some vi -> var_info.m_is_base vi = false ->
  delta ≠ 0 ->
  update_value E v delta s = Ok s' ->
  M s' = M s /\
  val_of s' v = nadd (ext_N E) (var_info.m_value vi) delta /\
  (forall r, r ∉ fst <$> col_entries v (M s) -> m_rows s' !! r = m_rows s !! r) /\
  (forall u, u ≠ v ->
     (forall col ri, col ∈ col_entries v (M s) -> m_rows s !! fst col = Some ri ->
                     row_info.m_base ri ≠ u) ->
     m_vars s' !! u = m_vars s !! u) /\
  (forall r c, (r, c) ∈ col_entries v (M s) ->
     exists ri,
       let cached := nadd (ext_N E) (row_info.m_value ri) (nmul (ext_N E) delta c) in
       m_rows s !! r = Some ri /\
       m_rows s' !! r = Some (row_info.set_value cached ri) /\
       val_of s' (row_info.m_base ri)
       = nsub (ext_N E) 0 (cached / row_info.m_base_coeff ri) /\
       (0 <= ext_N E ->
        is_numeral (ext_N E) (row_info.m_base_coeff ri) ->
        row_info.m_base_coeff ri ≠ 0 ->
        (row_equation (ext_N E) s' (row_info.set_value cached ri) <->
         cached mod row_info.m_base_coeff ri = 0))).
Proof.
  intros Hbasis Hnd Hvi Hvb Hdelta Hrun.
  destruct (update_value_step E v delta s s' vi Hbasis Hnd Hvi Hvb
              (proj2 (Z.eqb_neq _ _) Hdelta) Hrun) as (HM & Hv & HF & HV & HE).
  split; [exact HM |]. split; [exact Hv |]. split; [exact HF |]. split; [exact HV |].
  intros r c Hcol. destruct (HE r c Hcol) as (ri & Hri & Hnew & Hbv).
  exists ri. cbv zeta. split; [exact Hri |]. split; [exact Hnew |]. split; [exact Hbv |].
  intros HN Hbc Hbc0. unfold row_equation.
  cbn [row_info.m_base row_info.m_base_coeff row_info.m_value row_info.set_value].
  rewrite Hbv, base_value_residual; [done | | done | done].
  unfold nadd. apply (wrap_range (ext_N E) HN).
Qed.

Lemma update_value_effect_witness :
  exists s',
    update_value uint4_ext 1 1 inexact_update_example = Ok s' /\
    val_of s' 1 = 3 /\
    m_rows s' !! 0%nat = Some (row_info.mk 0 2 3) /\
    val_of s' 0 = 15 /\
    ~ row_equation 4 s' (row_info.mk 0 2 3).
Proof.
  destruct (update_value uint4_ext 1 1 inexact_update_example) as [s'|] eqn:Hrun;
    [| vm_compute in Hrun; discriminate].
  exists s'. split; [reflexivity |].
  destruct (update_value_effect uint4_ext 1 1 inexact_update_example s'
              (var_info.mk 2 0 0 false 0)
              (proj1 (proj1 inexact_update_example_rows))
              (proj1 (proj2 (proj1 inexact_update_example_rows)))
              eq_refl eq_refl ltac:(lia) Hrun) as (_ & Hv & _ & _ & HE).
  split; [exact Hv |].
  destruct (HE 0%nat 1) as (ri & Hri & Hnew & Hbv & Heq); [vm_compute; left |].
  injection Hri as <-.
  split; [exact Hnew |]. split; [exact Hbv |].
  intros H. apply Heq in H; [by vm_compute in H | by vm_compute | split; by vm_compute | done].
Defined.

(** ** [update_value] and its inverse *)

Lemma var_records_eq (s s2 : fixplex) :
  basic_vars s2 = basic_vars s -> bounds_of s2 = bounds_of s ->
  (forall u, val_of s2 u = val_of s u) ->
  m_vars s2 = m_vars s.
Proof.
  unfold basic_vars, bounds_of, val_of. intros Hb Hbd Hv. apply list_eq. intros u.
  apply (f_equal (fun l => l !! u)) in Hb. apply (f_equal (fun l => l !! u)) in Hbd.
  rewrite !list_lookup_fmap in Hb. rewrite !list_lookup_fmap in Hbd.
  specialize (Hv u).
  destruct (m_vars s2 !! u) as [i2|], (m_vars s !! u) as [i|]; cbn in *; try done.
  destruct i2, i. cbn in *. congruence.
Qed.

Section update_value_inverse.
Context (E : Ext).
Local Abbreviation N := (ext_N E).

Lemma nadd_cancel (a delta c : Z) :
  nadd N (nadd N a (nmul N delta c)) (nmul N (nsub N 0 delta) c) = wrap N a.
Proof.
  unfold nadd, nmul, nsub. rewrite (wrap_mul_l E), (wrap_add_l N), (wrap_add_r N).
  replace (a + wrap N (delta * c) + (0 - delta) * c)
    with (a + (0 - delta) * c + wrap N (delta * c)) by ring.
  rewrite (wrap_add_r N). f_equal. ring.
Qed.

Lemma nadd_nsub_cancel (a delta : Z) :
  nadd N (nadd N a delta) (nsub N 0 delta) = wrap N a.
Proof.
  unfold nadd, nsub. rewrite (wrap_add_l N), (wrap_add_r N). f_equal. ring.
Qed.

Lemma update_value_inverse (v : nat) (delta : Z) (s s1 s2 : fixplex) (vi : var_info.t) :
  0 <= N ->
  basis_inv s ->
  (forall r es, M s !! r = Some es -> NoDup (fst <$> es)) ->
  row_inv N s ->
  m_vars s !! v = Some vi -> var_info.m_is_base vi = false ->
  is_numeral N (var_info.m_value vi) ->
  is_numeral N delta ->
  update_value E v delta s = Ok s1 ->
  update_value E v (nsub N 0 delta) s1 = Ok s2 ->
  M s2 = M s /\ m_rows s2 = m_rows s /\ m_vars s2 = m_vars s.
Proof.
  intros HN Hbasis Hnd Hinv Hvi Hvb Hval Hdelta Hrun1 Hrun2.
  destruct (Z.eq_dec delta 0) as [-> | Hd0].
  { injection Hrun1 as <-. by injection Hrun2 as <-. }
  assert (Hd' : (nsub N 0 delta =? 0) = false).
  { apply Z.eqb_neq. unfold nsub, is_numeral in *. rewrite (wrap_neg N) by lia. lia. }
  pose proof (update_value_basis E _ _ _ _ Hrun1) as BV1.
  pose proof (update_value_basis E _ _ _ _ Hrun2) as BV2.
  pose proof (update_value_bounds E _ _ _ _ Hrun1) as B1.
  pose proof (update_value_bounds E _ _ _ _ Hrun2) as B2.
  destruct (update_value_step E v delta s s1 vi Hbasis Hnd Hvi Hvb
              (proj2 (Z.eqb_neq _ _) Hd0) Hrun1) as (HM1 & Hv1 & HF1 & HV1 & HE1).
  assert (Hvi1 : exists vi1, m_vars s1 !! v = Some vi1 /\ var_info.m_is_base vi1 = false /\
                             var_info.m_value vi1 = nadd N (var_info.m_value vi) delta).
  { injection BV1 as Hbv _ _. apply (f_equal (fun l => l !! v)) in Hbv.
    unfold basic_vars in Hbv. rewrite !list_lookup_fmap, Hvi in Hbv.
    unfold val_of in Hv1.
    destruct (m_vars s1 !! v) as [vi1|]; [| done]. cbn in *.
    exists vi1. split; [done |]. split; [congruence | done]. }
  destruct Hvi1 as (vi1 & Hvi1 & Hvb1 & Hval1).
  assert (Hbasis1 : basis_inv s1) by (by apply (basis_view_inv s)).
  assert (Hnd1 : forall r es, M s1 !! r = Some es -> NoDup (fst <$> es)).
  { rewrite HM1. exact Hnd. }
  destruct (update_value_step E v (nsub N 0 delta) s1 s2 vi1 Hbasis1 Hnd1 Hvi1 Hvb1 Hd' Hrun2)
    as (HM2 & Hv2 & HF2 & HV2 & HE2).
  rewrite HM1 in HF2, HV2, HE2.
  (* a row that holds [v], before and after *)
  assert (Hrow : forall r c, (r, c) ∈ col_entries v (M s) ->
            exists ri,
              m_rows s !! r = Some ri /\ m_rows s2 !! r = Some ri /\
              val_of s2 (row_info.m_base ri) = val_of s (row_info.m_base ri)).
  { intros r c Hcol. destruct (HE1 r c Hcol) as (ri & Hri & Hri1 & _).
    destruct (HE2 r c Hcol) as (ri1 & Hri1' & Hri2 & Hbv2).
    rewrite Hri1 in Hri1'. injection Hri1' as <-.
    cbn [row_info.m_value row_info.m_base row_info.m_base_coeff row_info.set_value]
      in Hri2, Hbv2.
    rewrite nadd_cancel in Hri2, Hbv2.
    pose proof Hcol as (es & Hes & _)%elem_of_col_entries.
    destruct (Hinv r ri es Hri Hes) as [Hc Hb].
    assert (Hw : wrap N (row_info.m_value ri) = row_info.m_value ri).
    { rewrite Hc. unfold row_sum. apply (wrap_small N), (wrap_range N HN). }
    rewrite Hw in Hri2, Hbv2. exists ri. split; [done |]. split; [| congruence].
    rewrite Hri2. f_equal. by destruct ri. }
  split; [congruence |]. split.
  - apply list_eq. intros r.
    destruct (decide (r ∈ fst <$> col_entries v (M s))) as [Hin | Hout].
    + apply list_elem_of_fmap in Hin as ([r' c] & -> & Hcol). cbn [fst].
      destruct (Hrow r' c Hcol) as (ri & Hri & Hri2 & _). congruence.
    + by rewrite HF2, HF1.
  - apply var_records_eq.
    + injection BV1 as ? _ _. injection BV2 as ? _ _. congruence.
    + congruence.
    + intros u. destruct (decide (u = v)) as [-> | Hu].
      * rewrite Hv2, Hval1, nadd_nsub_cancel. unfold val_of. rewrite Hvi. cbn.
        by apply (wrap_small N).
      * destruct (decide (Exists (fun col => row_info.m_base <$> m_rows s !! fst col = Some u)
                            (col_entries v (M s)))) as [Hex | Hno].
        -- apply Exists_exists in Hex as ([r c] & Hcol & Hb). cbn [fst] in Hb.
           destruct (Hrow r c Hcol) as (ri & Hri & _ & Hbv). rewrite Hri in Hb.
           injection Hb as <-. exact Hbv.
        -- assert (Hnb : forall col ri, col ∈ col_entries v (M s) ->
                     m_rows s !! fst col = Some ri -> row_info.m_base ri ≠ u).
           { intros col ri Hcol Hri Heq. apply Hno, Exists_exists. exists col.
             split; [done |]. by rewrite Hri, <- Heq. }
           transitivity (val_of s1 u); apply val_of_lookup.
           ++ apply HV2; [done |]. intros [r c] ri1 Hcol Hri1. cbn [fst] in Hri1.
              destruct (HE1 r c Hcol) as (ri & Hri & Hri1' & _).
              rewrite Hri1 in Hri1'. injection Hri1' as ->. cbn. by apply (Hnb (r, c)).
           ++ by apply HV1.
Qed.
End update_value_inverse.

(** X12: on a tableau with the basis invariant and the row invariant, whose
    rows hold a variable once, [update_value(v, delta)] followed by
    [update_value(v, 0 - delta)] gives back the matrix, every row record and
    every variable record, for a non-basic [v] and numerals as its value and
    as [delta]. *)
Theorem update_value_round_trip (E : Ext) (v : nat) (delta : Z) (s s1 s2 : fixplex)
    (vi : var_info.t) :
  0 <= ext_N E ->
  basis_inv s ->
  (forall r es, M s !! r = Some es -> NoDup (fst <$> es)) ->
  row_inv (ext_N E) s ->
  m_vars s !! v = Some vi -> var_info.m_is_base vi = false ->
  is_numeral (ext_N E) (var_info.m_value vi) ->
  is_numeral (ext_N E) delta ->
  update_value E v delta s = Ok s1 ->
  update_value E v (nsub (ext_N E) 0 delta) s1 = Ok s2 ->
  M s2 = M s /\ m_rows s2 = m_rows s /\ m_vars s2 = m_vars s.
Proof. apply update_value_inverse. Qed.

Lemma update_value_round_trip_witness :
  exists s1 s2,
    update_value uint4_ext 1 5 round_trip_example = Ok s1 /\
    update_value uint4_ext 1 11 s1 = Ok s2 /\
    values s1 = [15; 11; 5] /\
    M s2 = M round_trip_example /\ m_rows s2 = m_rows round_trip_example /\
    m_vars s2 = m_vars round_trip_example.
Proof.
  destruct (update_value uint4_ext 1 5 round_trip_example) as [s1|] eqn:Hrun1;
    [| vm_compute in Hrun1; discriminate].
  destruct (update_value uint4_ext 1 11 s1) as [s2|] eqn:Hrun2;
    [| vm_compute in Hrun1; injection Hrun1 as <-; vm_compute in Hrun2; discriminate].
  exists s1, s2. split; [reflexivity |]. split; [exact Hrun2 |]. split.
  - vm_compute in Hrun1. by injection Hrun1 as <-.
  - apply (update_value_round_trip uint4_ext 1 5 round_trip_example s1 s2
             (var_info.mk 6 0 0 false 0));
      [by vm_compute | apply round_trip_example_rows | apply round_trip_example_rows
      | apply round_trip_example_rows | reflexivity | reflexivity
      | split; by vm_compute | split; by vm_compute | exact Hrun1 | exact Hrun2].
Defined.

(** ** What [pivot] asks of its arguments *)

(** X13: [pivot(x, y, b, new_value)] returns a tableau only for a non-zero
    [b] and registered [x] and [y] whose row exists; with the assertions
    checked it fails at its first assertion when [x] is not basic and at
    its second when [y] is basic, and so it never exchanges a variable with
    itself. *)
Theorem pivot_contract (E : Ext) (x y : nat) (b new_value : Z) (s : fixplex) :
  (forall s',
     pivot E x y b new_value s = Ok s' ->
     b ≠ 0 /\
     exists xI yI row_x,
       m_vars s !! x = Some xI /\ m_vars s !! y = Some yI /\
       m_rows s !! var_info.m_base2row xI = Some row_x /\
       (assertions_enabled E = true ->
        var_info.m_is_base xI = true /\ var_info.m_is_base yI = false /\ x ≠ y)) /\
  (assertions_enabled E = true -> is_base s x = Ok false ->
   pivot E x y b new_value s = Err assertion_violation) /\
  (assertions_enabled E = true -> is_base s x = Ok true -> is_base s y = Ok true ->
   pivot E x y b new_value s = Err assertion_violation) /\
  (assertions_enabled E = true -> is_base s x = Ok true ->
   pivot E x x b new_value s = Err assertion_violation).
Proof.
  assert (Hsecond : forall y', assertions_enabled E = true ->
            is_base s x = Ok true -> is_base s y' = Ok true ->
            pivot E x y' b new_value s = Err assertion_violation).
  { intros y' Hon Hx Hy. unfold pivot, SASSERT. rewrite Hon, !is_base_set_stats, Hx, Hy.
    done. }
  split; [| split; [| split]].
  - intros s' Hrun.
    apply pivot_Ok in Hrun as (xI & yI & row_x & Hx & Hy & Hrow & Hb & Hpre & _).
    split; [done |]. exists xI, yI, row_x. split; [done |]. split; [done |].
    split; [done |]. intros Hon. destruct (Hpre Hon) as [Hxb Hyb].
    split; [done |]. split; [done |]. intros ->. congruence.
  - intros Hon Hx. unfold pivot, SASSERT. by rewrite Hon, !is_base_set_stats, Hx.
  - apply Hsecond.
  - intros Hon Hx. by apply Hsecond.
Qed.

(** ** What [pivot] leaves alone *)

(** X14: on a tableau with the basis invariant whose rows hold a variable
    once, [pivot(x, y, b, new_value)] for a basic [x] and a non-basic [y]
    keeps the entries of the row of [x]; keeps the entries and the record
    of every other row that does not hold [y]; and keeps the record of
    every variable other than [x], [y] and the base variables of the other
    rows that hold [y]. *)
Theorem pivot_frame (E : Ext) (x y : nat) (b new_value : Z) (s s' : fixplex)
    (xI yI : var_info.t) :
  basis_inv s ->
  (forall r es, M s !! r = Some es -> NoDup (fst <$> es)) ->
  m_vars s !! x = Some xI -> var_info.m_is_base xI = true ->
  m_vars s !! y = Some yI -> var_info.m_is_base yI = false ->
  pivot E x y b new_value s = Ok s' ->
  let rx := var_info.m_base2row xI in
  M s' !! rx = M s !! rx /\
  (forall r, r ≠ rx -> r ∉ fst <$> col_entries y (M s) ->
             M s' !! r = M s !! r /\ m_rows s' !! r = m_rows s !! r) /\
  (forall u, u ≠ x -> u ≠ y ->
     (forall r c ri, (r, c) ∈ col_entries y (M s) -> r ≠ rx -> m_rows s !! r = Some ri ->
                     row_info.m_base ri ≠ u) ->
     m_vars s' !! u = m_vars s !! u).
Proof.
  intros Hbasis Hnd Hx Hxb Hy Hyb Hrun rx.
  destruct (basis_inv_owner s Hbasis) as [_ Hdist].
  destruct Hbasis as (Hlen & Hb1 & Hb2).
  assert (Hxy : x ≠ y) by (intros ->; congruence).
  assert (Hbx : basic_vars s !! x = Some (true, rx)).
  { unfold basic_vars. by rewrite list_lookup_fmap, Hx; cbn; rewrite Hxb. }
  assert (Hby : basic_vars s !! y = Some (false, var_info.m_base2row yI)).
  { unfold basic_vars. by rewrite list_lookup_fmap, Hy; cbn; rewrite Hyb. }
  apply pivot_Ok in Hrun as (xI' & yI' & row_x & Hx' & Hy' & Hrow & Hb & _ & Hloop).
  rewrite Hx in Hx'. injection Hx' as <-. rewrite Hy in Hy'. injection Hy' as <-.
  fold rx in Hloop, Hrow.
  set (val := pivot_value (ext_N E) row_x b (var_info.m_value yI) new_value) in *.
  destruct (pivot_exchange_fields E x y rx b new_value val s xI yI row_x Hxy Hx Hy Hrow)
    as (HM1 & Hrx1 & Hr1 & Hx1 & Hy1 & Hu1).
  set (s1 := pivot_exchange E x y rx b new_value val s) in *.
  assert (Hbases : forall r ri, r ≠ rx -> m_rows s1 !! r = Some ri ->
            row_info.m_base ri ≠ x /\ row_info.m_base ri ≠ y /\ m_rows s !! r = Some ri).
  { intros r ri Hr Hri. rewrite Hr1 in Hri by done.
    pose proof (Hb2 _ _ (row_bases_lookup _ _ _ Hri)) as Hbv.
    repeat split; [| | done]; intros Heq; rewrite Heq in Hbv; congruence. }
  assert (Hdist1 : forall r1 r2 ri1 ri2,
            m_rows s1 !! r1 = Some ri1 -> m_rows s1 !! r2 = Some ri2 ->
            row_info.m_base ri1 = row_info.m_base ri2 -> r1 = r2).
  { intros r1 r2 ri1 ri2 H1 H2 Heq.
    destruct (decide (r1 = rx)) as [-> | Hn1]; destruct (decide (r2 = rx)) as [-> | Hn2];
      [done | | |].
    - rewrite Hrx1 in H1. injection H1 as <-. cbn in Heq.
      destruct (Hbases _ _ Hn2 H2) as (_ & ? & _). congruence.
    - rewrite Hrx1 in H2. injection H2 as <-. cbn in Heq.
      destruct (Hbases _ _ Hn1 H1) as (_ & ? & _). congruence.
    - destruct (Hbases _ _ Hn1 H1) as (_ & _ & ?). destruct (Hbases _ _ Hn2 H2) as (_ & _ & ?).
      by eapply Hdist. }
  destruct (lookup_lt_is_Some_2 (M s) rx) as [es_x Hes_x].
  { rewrite <- Hlen. by eapply lookup_lt_Some. }
  apply (pivot_loop_effect E rx b _ es_x (row_info.mk y b val)) in Hloop
    as (HF & HV & _); [| by rewrite HM1 | done | by apply col_entries_NoDup | done].
  split; [| split].
  - destruct (HF rx) as [-> _]; [by right | by rewrite HM1].
  - intros r Hr Hout. destruct (HF r) as [-> ->]; [by left |].
    by rewrite HM1, Hr1.
  - intros u Hux Huy Hnb. rewrite HV; [by apply Hu1 |].
    intros [r c] ri Hcol Hne Hri. cbn [fst] in *.
    destruct (Hbases _ _ Hne Hri) as (_ & _ & Hri'). by eapply Hnb.
Qed.

Lemma pivot_frame_witness :
  exists s',
    pivot uint4_ext 0 1 3 0 round_trip_example = Ok s' /\
    M s' !! 0%nat = Some [(0%nat, 1); (1%nat, 3)].
Proof.
  destruct (pivot uint4_ext 0 1 3 0 round_trip_example) as [s'|] eqn:Hrun;
    [| vm_compute in Hrun; discriminate].
  exists s'. split; [reflexivity |].
  destruct (pivot_frame uint4_ext 0 1 3 0 round_trip_example s'
              (var_info.mk 14 0 0 true 0) (var_info.mk 6 0 0 false 0)) as (HM & _);
    [apply round_trip_example_rows | apply round_trip_example_rows
    | reflexivity | reflexivity | reflexivity | reflexivity | exact Hrun |].
  exact HM.
Defined.

(** ** What [add_row] returns *)

Section add_row_appended.
Context (E : Ext).
Local Abbreviation N := (ext_N E).

(** The matrix [add_row] returns is the one its filling loop built. *)
Lemma add_row_matrix (fuel base_var num_vars : nat) (vars : list nat) (coeffs : list Z)
    (s s' : fixplex) (r : nat) :
  add_row E fuel base_var num_vars vars coeffs s = Some (Ok (r, s')) ->
  foldlM (add_row_fill (length (M s)) vars coeffs) (M s ++ [[]]) (seq 0 num_vars)
  = Ok (M s').
Proof.
  unfold add_row, mk_row.
  destruct (_ ≫= _) as [s9|] eqn:Hchain; [| discriminate].
  intros Hend.
  assert (Hs9 : s' = s9).
  { destruct (m_base_vars s9).
    - apply (f_equal (fun o => from_option id (Err assertion_violation) o)) in Hend.
      cbn [from_option id] in Hend.
      apply res_bind_Ok in Hend as (? & _ & Hend).
      apply res_bind_Ok in Hend as (? & _ & Hend). by injection Hend as <- <-.
    - destruct (gauss_jordan fuel s9) as [[s10|]|] eqn:Hgj; [| discriminate | discriminate].
      apply gauss_jordan_Ok in Hgj as [-> _].
      apply (f_equal (fun o => from_option id (Err assertion_violation) o)) in Hend.
      cbn [from_option id] in Hend.
      apply res_bind_Ok in Hend as (? & _ & Hend).
      apply res_bind_Ok in Hend as (? & _ & Hend). by injection Hend as <- <-. }
  subst s'. clear Hend.
  apply res_bind_Ok in Hchain as (m & Hfill & Hchain).
  change (M (set_base_vars [] s)) with (M s) in Hfill. rewrite Hfill. f_equal.
  apply res_bind_Ok in Hchain as (es & _ & Hchain).
  apply res_bind_Ok in Hchain as ([[bc val] s2] & Hscan & Hchain).
  apply add_row_scan_frame in Hscan as (HM2 & _). cbn in HM2.
  apply res_bind_Ok in Hchain as (? & _ & Hchain).
  apply res_bind_Ok in Hchain as (? & _ & Hchain).
  apply res_bind_Ok in Hchain as (? & _ & Hchain).
  apply res_bind_Ok in Hchain as (q & _ & Hchain). injection Hchain as <-.
  unfold add_patch. proj_simpl. by rewrite HM2.
Qed.
End add_row_appended.

(** X15: when [add_row] returns, on arrays that name no variable twice and
    a tableau with as many row records as rows, the row it returns is a new
    last row; its entries are exactly the entries of the arrays with a
    non-zero coefficient, each variable once; the rows and the row records
    there were are unchanged, and so is every variable but the base
    variable, which is basic in the new row at [0 - value / base_coeff],
    where [value] is the ring sum of [coefficient * value] over the other
    entries and [base_coeff] its own coefficient; and every other entry is
    on a variable that is not basic. *)
Theorem add_row_effect (E : Ext) (fuel base_var num_vars : nat) (vars : list nat)
    (coeffs : list Z) (s s' : fixplex) (r : nat) :
  (forall i j v, (i < num_vars)%nat -> (j < num_vars)%nat ->
     vars !! i = Some v -> vars !! j = Some v -> i = j) ->
  length (m_rows s) = length (M s) ->
  add_row E fuel base_var num_vars vars coeffs s = Some (Ok (r, s')) ->
  exists es bc val bI,
    r = length (M s) /\
    M s' = M s ++ [es] /\ NoDup (fst <$> es) /\
    (forall v c, (v, c) ∈ es <->
       c ≠ 0 /\ exists i, (i < num_vars)%nat /\ vars !! i = Some v /\ coeffs !! i = Some c) /\
    m_rows s' = m_rows s ++ [row_info.mk base_var bc val] /\
    (base_var, bc) ∈ es /\
    val = wrap (ext_N E) (sumZ (row_term s base_var <$> es)) /\
    m_vars s !! base_var = Some bI /\
    m_vars s' !! base_var
    = Some (var_info.mk (nsub (ext_N E) 0 (val / bc)) (var_info.m_lo bI) (var_info.m_hi bI)
              true r) /\
    (forall u, u ≠ base_var -> m_vars s' !! u = m_vars s !! u) /\
    (forall e, e ∈ es -> fst e ≠ base_var -> is_base s (fst e) = Ok false).
Proof.
  intros Hinj Hlen Hrun.
  destruct (add_row_result E fuel base_var num_vars vars coeffs s s' r Hinj Hlen Hrun)
    as (es & bc & val & bI & Hr & HM & Hnd & HR & HbI & Hvb & Hvu & Hnb & Hval & Hin).
  exists es, bc, val, bI.
  split; [done |]. split; [done |]. split; [done |].
  split; [| by repeat split].
  pose proof (add_row_matrix E _ _ _ _ _ _ _ _ Hrun) as Hfill.
  intros v c. split.
  - intros Hvc. pose proof Hfill as Hfill'.
    apply add_row_fill_entries in Hfill' as (es' & Hes' & Hall).
    2:{ by rewrite list_lookup_middle. }
    rewrite HM, list_lookup_middle in Hes' by done. injection Hes' as <-.
    destruct (Hall _ Hvc) as (Hc0 & i & Hi & Hv & Hc). split; [done |]. by exists i.
  - intros (Hc0 & i & Hi & Hv & Hc).
    apply add_row_fill_holds in Hfill as (es' & Hes' & Hall).
    rewrite HM in Hes'. apply app_inv_head in Hes'. injection Hes' as ->.
    apply (Hall i); [apply elem_of_seq; lia | done | done | done].
Qed.

Lemma add_row_effect_witness :
  exists s',
    add_row uint4_ext 0 0 2 [0%nat; 1%nat] [1; 2] shared_column_vars = Some (Ok (0%nat, s')) /\
    M s' = [[(0%nat, 1); (1%nat, 2)]] /\
    m_rows s' = [row_info.mk 0 1 0].
Proof.
  destruct (add_row uint4_ext 0 0 2 [0%nat; 1%nat] [1; 2] shared_column_vars)
    as [[[r s']|]|] eqn:Hrun;
    [| vm_compute in Hrun; discriminate | vm_compute in Hrun; discriminate].
  destruct (add_row_effect uint4_ext 0 0 2 [0%nat; 1%nat] [1; 2] shared_column_vars s' r)
    as (es & bc & val & bI & -> & HM & _ & _ & HR & _); [| reflexivity | exact Hrun |].
  { intros [|[|i]] [|[|j]] v Hi Hj; cbn; intros [=] [=]; subst; done || lia. }
  exists s'. split; [reflexivity |].
  vm_compute in Hrun. injection Hrun as <-. split; reflexivity.
Defined.

(** ** The infeasibility proof and the values *)

Section infeasible_values.
Context (E : Ext).

Lemma is_infeasible_row_loop_ext (s s' : fixplex) (es : list row_entry) :
  bounds_of s' = bounds_of s ->
  forall lo_s hi_s diff,
    is_infeasible_row_loop E s' es lo_s hi_s diff
    = is_infeasible_row_loop E s es lo_s hi_s diff.
Proof.
  intros Hb.
  assert (Hlo : forall v, lo s' v = lo s v).
  { intros v. unfold lo. apply (f_equal (fun l => fst <$> l !! v)) in Hb.
    unfold bounds_of in Hb. rewrite !list_lookup_fmap in Hb.
    by destruct (m_vars s' !! v), (m_vars s !! v); cbn in *; try congruence. }
  assert (Hhi : forall v, hi s' v = hi s v).
  { intros v. unfold hi. apply (f_equal (fun l => snd <$> l !! v)) in Hb.
    unfold bounds_of in Hb. rewrite !list_lookup_fmap in Hb.
    by destruct (m_vars s' !! v), (m_vars s !! v); cbn in *; try congruence. }
  induction es as [|e es IH]; intros lo_s hi_s diff; [done |].
  cbn [is_infeasible_row_loop]. rewrite Hlo, Hhi.
  destruct (lo s (fst e)) as [l|]; [| done]. res_simpl.
  destruct (hi s (fst e)) as [h|]; [| done]. res_simpl.
  destruct (l =? h); [done |].
  destruct (signed_mul E _ _); [| done].
  destruct (signed_add E _ _); [| done]. apply IH.
Qed.

Lemma update_value_matrix (v : nat) (delta : Z) (s s' : fixplex) :
  update_value E v delta s = Ok s' -> M s' = M s.
Proof.
  unfold update_value. destruct (delta =? 0); [by intros [= <-] |]. intros Hrun.
  apply res_bind_Ok in Hrun as (vi & _ & Hrun).
  apply res_bind_Ok in Hrun as (? & _ & Hrun).
  eapply (foldlM_invariant (fun s1 => M s1 = M s)); [| | exact Hrun]; [| done].
  intros s1 c s2 _ H1 H2. apply update_value_row_effect in H2 as (ri & _ & _ & H2 & _).
  by rewrite H2, list_alter_id.
Qed.
End infeasible_values.

(** X16: the answer of [is_infeasible_row] depends on the bounds and the
    coefficients only: after [update_value], whatever the variable and the
    increment, it is the answer it was before. *)
Theorem is_infeasible_row_update_value (E : Ext) (x v : nat) (delta : Z) (s s' : fixplex) :
  update_value E v delta s = Ok s' ->
  is_infeasible_row E x s' = is_infeasible_row E x s.
Proof.
  intros Hrun.
  pose proof (update_value_matrix E _ _ _ _ Hrun) as HM.
  pose proof (update_value_bounds E _ _ _ _ Hrun) as Hb.
  pose proof (update_value_basis E _ _ _ _ Hrun) as [= Hbv Hrb _].
  unfold is_infeasible_row, is_base, var_at, row_at, row_entries. rewrite HM.
  apply (f_equal (fun l => l !! x)) in Hbv. unfold basic_vars in Hbv.
  rewrite !list_lookup_fmap in Hbv.
  destruct (m_vars s' !! x) as [xi'|], (m_vars s !! x) as [xi|]; cbn in Hbv; try done.
  injection Hbv as Hbase Hrow. res_simpl. rewrite Hbase, Hrow.
  destruct (SASSERT E _); [| done]. res_simpl.
  apply (f_equal (fun l => l !! var_info.m_base2row xi)) in Hrb. unfold row_bases in Hrb.
  rewrite !list_lookup_fmap in Hrb.
  destruct (m_rows s' !! _), (m_rows s !! _); cbn in Hrb; try done. res_simpl.
  destruct (M s !! _); [| done]. res_simpl. by apply is_infeasible_row_loop_ext.
Qed.

Lemma is_infeasible_row_update_value_witness :
  exists s',
    update_value uint4_ext 1 1 stuck_example = Ok s' /\
    is_infeasible_row uint4_ext 0 s' = Ok true.
Proof.
  destruct (update_value uint4_ext 1 1 stuck_example) as [s'|] eqn:Hrun;
    [| vm_compute in Hrun; discriminate].
  exists s'. split; [reflexivity |].
  by rewrite (is_infeasible_row_update_value uint4_ext 0 1 1 stuck_example s' Hrun).
Defined.

(** ** The statistics *)

Section counters.
Context (E : Ext).

Lemma pivot_stats (x y : nat) (b new_value : Z) (s s' : fixplex) :
  pivot E x y b new_value s = Ok s' ->
  m_stats s' = mk_stats (m_num_checks (m_stats s)) (incr (m_num_pivots (m_stats s)))
                 (m_num_infeasible (m_stats s)).
Proof.
  intros Hrun.
  apply pivot_Ok in Hrun as (xI & yI & row_x & _ & _ & _ & _ & _ & Hloop).
  eapply (foldlM_invariant
            (fun s1 => m_stats s1
                       = mk_stats (m_num_checks (m_stats s)) (incr (m_num_pivots (m_stats s)))
                           (m_num_infeasible (m_stats s))));
    [| | exact Hloop].
  - intros s1 col s2 _ H1 H2. rewrite <- H1. clear H1. unfold pivot_row in H2.
    destruct (decide (fst col = _)); [by injection H2 as <- |].
    apply res_bind_Ok in H2 as (row_z & _ & H2).
    apply res_bind_Ok in H2 as (? & _ & H2).
    apply res_bind_Ok in H2 as (? & _ & H2).
    apply res_bind_Ok in H2 as (b1 & _ & H2).
    apply res_bind_Ok in H2 as (cs & _ & H2).
    apply res_bind_Ok in H2 as (row_x' & _ & H2).
    apply res_bind_Ok in H2 as (q & _ & H2).
    apply res_bind_Ok in H2 as (? & _ & H2).
    by injection H2 as <-.
  - reflexivity.
Qed.

Lemma make_var_feasible_stats (x : nat) (s s' : fixplex) (v : lbool) :
  make_var_feasible E x s = Ok (v, s') ->
  m_num_checks (m_stats s') = m_num_checks (m_stats s) /\
  m_num_infeasible (m_stats s') = m_num_infeasible (m_stats s) /\
  (m_num_pivots (m_stats s') = m_num_pivots (m_stats s) \/
   v = l_true /\ m_num_pivots (m_stats s') = incr (m_num_pivots (m_stats s))).
Proof.
  unfold make_var_feasible. intros Hrun.
  apply res_bind_Ok in Hrun as ([] & _ & Hrun);
    [injection Hrun as <- <-; by repeat split; try left |].
  apply res_bind_Ok in Hrun as (val & _ & Hrun).
  apply res_bind_Ok in Hrun as (l & _ & Hrun).
  apply res_bind_Ok in Hrun as (h & _ & Hrun).
  destruct (new_value_delta E val l h) as [new_value delta].
  apply res_bind_Ok in Hrun as ([[y b] s1] & Hsel & Hrun).
  apply select_pivot_core_state in Hsel as [g ->].
  destruct y as [y|].
  - apply res_bind_Ok in Hrun as (s2 & Hpivot & Hrun). injection Hrun as <- <-.
    apply pivot_stats in Hpivot. rewrite Hpivot. cbn.
    split; [done |]. split; [done |]. by right.
  - apply res_bind_Ok in Hrun as (inf & Hinf & Hrun). injection Hrun as <- <-.
    split; [done |]. split; [done |]. by left.
Qed.

Lemma make_feasible_body_stats (k nr : Z) (s : fixplex) :
  match make_feasible_body E k nr s with
  | Return (Ok (verdict, s')) =>
      m_num_checks (m_stats s') = m_num_checks (m_stats s) /\
      m_num_infeasible (m_stats s')
      = (if verdict is l_false then incr (m_num_infeasible (m_stats s))
         else m_num_infeasible (m_stats s)) /\
      m_num_pivots (m_stats s') = m_num_pivots (m_stats s)
  | Return (Err _) => True
  | Continue _ s' =>
      m_num_checks (m_stats s') = m_num_checks (m_stats s) /\
      m_num_infeasible (m_stats s') = m_num_infeasible (m_stats s) /\
      (m_num_pivots (m_stats s') = m_num_pivots (m_stats s) \/
       m_num_pivots (m_stats s') = incr (m_num_pivots (m_stats s)))
  end.
Proof.
  unfold make_feasible_body.
  destruct (select_var_to_fix E s) as [[v|] patch].
  2:{ destruct (SASSERT E _); done. }
  destruct (limit_inc E _) as [ok lim].
  destruct (negb ok || _); [done |].
  destruct (check_blands_rule E v nr _) as [[nr' bland] lb].
  destruct (make_var_feasible E v _) as [[verdict s1]|] eqn:Hrun; [| done].
  apply make_var_feasible_stats in Hrun as (Hc & Hi & Hp).
  destruct verdict; cbn;
    destruct Hp as [Hp | [? Hp]]; try discriminate; rewrite Hc, Hi, Hp;
    split; [done | | done | | done | | done |]; (split; [done |]);
    solve [done | by left | by right].
Qed.

Lemma make_feasible_loop_stats (fuel : nat) :
  forall (k nr : Z) (s s' : fixplex) (verdict : lbool),
    make_feasible_loop E fuel k nr s = Some (Ok (verdict, s')) ->
    m_num_checks (m_stats s') = m_num_checks (m_stats s) /\
    m_num_infeasible (m_stats s')
    = (if verdict is l_false then incr (m_num_infeasible (m_stats s))
       else m_num_infeasible (m_stats s)) /\
    exists n, (n <= fuel)%nat /\
      m_num_pivots (m_stats s') = Nat.iter n incr (m_num_pivots (m_stats s)).
Proof.
  induction fuel as [|fuel IH]; intros k nr s s' verdict; cbn [make_feasible_loop];
    pose proof (make_feasible_body_stats k nr s) as Hbody;
    destruct (make_feasible_body E k nr s) as [[[v1 s1]|]|nr1 s1]; try discriminate.
  - intros [= <- <-]. destruct Hbody as (Hc & Hi & Hp).
    split; [done |]. split; [done |]. by exists 0%nat.
  - intros [= <- <-]. destruct Hbody as (Hc & Hi & Hp).
    split; [done |]. split; [done |]. exists 0%nat. split; [lia | done].
  - intros H. apply IH in H as (Hc' & Hi' & n & Hn & Hp').
    destruct Hbody as (Hc & Hi & Hp).
    split; [congruence |]. split; [by rewrite Hi', Hi |].
    destruct Hp as [Hp | Hp]; rewrite Hp in Hp'.
    + exists n. split; [lia | done].
    + exists (S n). split; [lia |]. by rewrite Nat.iter_succ_r.
Qed.
End counters.

(** X17: the statistics count what they name.  A run of [make_feasible]
    that returns has counted one more check; it has counted one more
    infeasible result when the verdict is [l_false], and none otherwise; the
    pivots counted are those of the run, at most one for every iteration of
    the loop that went on.  A [pivot] that succeeds counts one pivot and
    nothing else. *)
Theorem make_feasible_statistics (E : Ext) (fuel : nat) (s s' : fixplex) (verdict : lbool) :
  make_feasible E fuel s = Some (Ok (verdict, s')) ->
  m_num_checks (m_stats s') = incr (m_num_checks (m_stats s)) /\
  m_num_infeasible (m_stats s')
  = (if verdict is l_false then incr (m_num_infeasible (m_stats s))
     else m_num_infeasible (m_stats s)) /\
  (exists n, (n <= fuel)%nat /\
     m_num_pivots (m_stats s') = Nat.iter n incr (m_num_pivots (m_stats s))) /\
  (forall x y b new_value s0 s1,
     pivot E x y b new_value s0 = Ok s1 ->
     m_stats s1 = mk_stats (m_num_checks (m_stats s0)) (incr (m_num_pivots (m_stats s0)))
                    (m_num_infeasible (m_stats s0))).
Proof.
  unfold make_feasible. intros Hrun.
  destruct (SASSERT E _); [| by injection Hrun].
  apply make_feasible_loop_stats in Hrun as (Hc & Hi & Hp).
  split; [exact Hc |]. split; [exact Hi |]. split; [exact Hp |].
  intros x y b new_value s0 s1. apply pivot_stats.
Qed.

Lemma make_feasible_statistics_witness :
  exists s',
    make_feasible uint4_ext 200 stuck_example = Some (Ok (l_false, s')) /\
    m_num_checks (m_stats s') = 1 /\ m_num_infeasible (m_stats s') = 1.
Proof.
  destruct (make_feasible uint4_ext 200 stuck_example) as [[[[] s']|]|] eqn:Hrun;
    try (vm_compute in Hrun; discriminate).
  exists s'. split; [reflexivity |].
  destruct (make_feasible_statistics uint4_ext 200 stuck_example s' l_false Hrun)
    as (Hc & Hi & _).
  split; [exact Hc | exact Hi].
Defined.
